(** * Collection report: revision parsing, catalog and inventory checks

    A shallow embedding of the report logic of
    [verification/scripts/FullReport.py] (the same functions are repeated in
    [verification/scripts/full-verification.py]).

    Modelling conventions.
    - A Python [str] is a [string]; a character is an [ascii], read as a code
      point in the range 0..255.  Names with code points above 255 are outside
      the model.
    - A Python [int] is a [Z].  The interpreter's configurable limit on the
      number of digits [int()] accepts is not modelled.
    - A [set] of names is a [gset string], a [dict] keyed by names is a
      [gmap string _].
    - The outcome of the XML library ([ET.parse]) and the text decoder
      ([html.unescape]) are inputs of the model.
    - The asset tree is a map from the existing directories to their
      entries.  An entry has a name and may be a link to a missing target,
      which [glob] lists and [exists()] denies.  Names are compared exactly,
      as on a case-sensitive file system, and every directory can be read.
    - Paths are written relative to the root of the work space.  The script
      lies in [verification/scripts] and knows its own absolute path, as it
      does under Python 3.9 and later, so [library] and [composites] are
      not below [SCRIPT_DIR.parent], which is [verification].
    - Reading a text file splits it into lines as Python's text mode does.
    - The sizes of the images come from Pillow, which gives positive
      numbers; the analysis of the sizes only prints and is left out.
    - What the script prints is not modelled, nor are the answers of the
      user and what the script does with the files after an answer: [main]
      is followed up to its first question. *)

From Stdlib Require Import ZArith Ascii String List Lia.
From Stdlib Require Import Numbers.DecimalString Numbers.DecimalN.
From stdpp Require Import base option gmap strings list sorting.

Local Open Scope Z_scope.

(** ** Python text primitives *)

Module Py.

(** [str.isspace] on one character; the class also used by [str.strip]
    and by the regular expression class [\s]. *)
Definition is_space (c : ascii) : bool :=
  match N_of_ascii c with
  | 9 | 10 | 11 | 12 | 13 | 28 | 29 | 30 | 31 | 32 | 133 | 160 => true
  | _ => false
  end%N.

(** The regular expression class [\d]. *)
Definition is_digit (c : ascii) : bool :=
  ((48 <=? N_of_ascii c) && (N_of_ascii c <=? 57))%N.

Definition digit_value (c : ascii) : Z := Z.of_N (N_of_ascii c) - 48.

(** Lower-casing of the letters A-Z, as used to compare a character with
    one of the literals [R], [e], [v] under [re.IGNORECASE]. *)
Definition lower (c : ascii) : ascii :=
  if ((65 <=? N_of_ascii c) && (N_of_ascii c <=? 90))%N
  then ascii_of_N (N_of_ascii c + 32) else c.

Definition ieq (lit c : ascii) : bool := Ascii.eqb (lower lit) (lower c).

Fixpoint drop_while (p : ascii → bool) (s : list ascii) : list ascii :=
  match s with
  | [] => []
  | c :: s' => if p c then drop_while p s' else s
  end.

Fixpoint take_while (p : ascii → bool) (s : list ascii) : list ascii :=
  match s with
  | [] => []
  | c :: s' => if p c then c :: take_while p s' else []
  end.

Definition lstrip (s : list ascii) : list ascii := drop_while is_space s.
Definition rstrip (s : list ascii) : list ascii :=
  rev (drop_while is_space (rev s)).
Definition strip (s : list ascii) : list ascii := rstrip (lstrip s).

(** [s.startswith(p)]; on success the remainder [s[len(p):]]. *)
Fixpoint after_prefix (p s : list ascii) : option (list ascii) :=
  match p, s with
  | [], _ => Some s
  | a :: p', b :: s' => if Ascii.eqb a b then after_prefix p' s' else None
  | _ :: _, [] => None
  end.

Definition startswith (p s : list ascii) : bool :=
  match after_prefix p s with Some _ => true | None => false end.

(** [p in s] for strings: [p] occurs as a contiguous substring of [s]. *)
Fixpoint contains (p s : list ascii) : bool :=
  startswith p s ||
  match s with
  | [] => false
  | _ :: s' => contains p s'
  end.

(** [int(ds)] for a string of decimal digits. *)
Definition int_of_digits (ds : list ascii) : Z :=
  fold_left (λ acc c, 10 * acc + digit_value c) ds 0.

(** An [int] inside an f-string: the decimal representation. *)
Definition format_int (z : Z) : string :=
  NilEmpty.string_of_int (Z.to_int z).

Arguments is_space : simpl never.
Arguments is_digit : simpl never.
Arguments ieq : simpl never.

End Py.

Abbreviation chars := list_ascii_of_string.
Abbreviation text := string_of_list_ascii.

(** ** The two regular expressions of [extract_revision] *)

Module Re.
Import Py.

(** One character satisfying [p], then the rest. *)
Definition expect (p : ascii → bool) (s : list ascii) : option (list ascii) :=
  match s with
  | c :: s' => if p c then Some s' else None
  | [] => None
  end.

(** The pattern [\(Rev (\d+)\)] with [re.IGNORECASE], tried at the head of
    [s]: the digits of the group and the text after the match.  The group
    is greedy and the closing parenthesis is not a digit, so only the
    longest run of digits can be followed by it. *)
Definition marker_at (s : list ascii) : option (list ascii * list ascii) :=
  s1 ← expect (Ascii.eqb "(") s;
  s2 ← expect (ieq "R") s1;
  s3 ← expect (ieq "e") s2;
  s4 ← expect (ieq "v") s3;
  s5 ← expect (Ascii.eqb " ") s4;
  match take_while is_digit s5 with
  | [] => None
  | ds => rest ← expect (Ascii.eqb ")") (drop_while is_digit s5);
          Some (ds, rest)
  end.

(** [re.search(r'\(Rev (\d+)\)', name, re.IGNORECASE)]: group 1 of the
    leftmost match. *)
Fixpoint search (s : list ascii) : option (list ascii) :=
  match marker_at s with
  | Some (ds, _) => Some ds
  | None =>
      match s with
      | [] => None
      | _ :: s' => search s'
      end
  end.

(** The pattern [\s*\(Rev \d+\)] tried at the head of [s]: the text after
    the match.  The opening parenthesis is not white space, so only the
    longest run of white space can be followed by the marker. *)
Definition ws_marker_at (s : list ascii) : option (list ascii) :=
  snd <$> marker_at (drop_while is_space s).

(** [re.sub(r'\s*\(Rev \d+\)', '', name, flags=re.IGNORECASE)]: every
    non-overlapping match, scanning from the left, is deleted.  A match is
    never empty, so [length s] steps are enough. *)
Fixpoint sub_fuel (fuel : nat) (s : list ascii) : list ascii :=
  match fuel with
  | O => s
  | S fuel' =>
      match ws_marker_at s with
      | Some rest => sub_fuel fuel' rest
      | None =>
          match s with
          | [] => []
          | c :: s' => c :: sub_fuel fuel' s'
          end
      end
  end.

Definition sub (s : list ascii) : list ascii := sub_fuel (length s) s.

End Re.

(** ** [extract_revision] *)

(** String versions of the text primitives. *)
Definition str_strip (s : string) : string := text (Py.strip (chars s)).
Definition str_lstrip (s : string) : string := text (Py.lstrip (chars s)).
Definition str_rstrip (s : string) : string := text (Py.rstrip (chars s)).
Definition str_startswith (p s : string) : bool := Py.startswith (chars p) (chars s).
Definition str_endswith (p s : string) : bool :=
  Py.startswith (rev (chars p)) (rev (chars s)).
Definition str_contains (p s : string) : bool := Py.contains (chars p) (chars s).

(** [int(s)] on strings. *)
Definition str_int (s : string) : Z := Py.int_of_digits (chars s).

(** [re.search(r'\(Rev (\d+)\)', name, re.IGNORECASE)]: [match.group(1)]
    when there is a match. *)
Definition re_search_rev (name : string) : option string :=
  text <$> Re.search (chars name).

(** [re.sub(r'\s*\(Rev \d+\)', '', name, flags=re.IGNORECASE)] *)
Definition re_sub_rev (name : string) : string := text (Re.sub (chars name)).

Definition extract_revision (name : string) : string * option Z :=
  match re_search_rev name with
  | Some group1 =>
      let rev_num := str_int group1 in
      let name_without_rev := str_strip (re_sub_rev name) in
      (name_without_rev, Some rev_num)
  | None => (str_strip name, None)
  end.

(** *** The vocabulary of the statements about [extract_revision] *)

(** [m] is a revision marker with digits [ds]: an opening parenthesis, the
    letters R, e, v in either case, one space, one or more digits and a
    closing parenthesis. *)
Definition revision_marker (m ds : string) : Prop :=
  ∃ r e v : ascii,
    m = String "(" (String r (String e (String v (String " " (ds +:+ ")")))))
    ∧ (r = "R" ∨ r = "r")%char ∧ (e = "E" ∨ e = "e")%char
    ∧ (v = "V" ∨ v = "v")%char
    ∧ ds ≠ EmptyString ∧ Forall (λ c, Py.is_digit c = true) (chars ds).

(** A marker occurs somewhere in [s]. *)
Definition has_marker (s : string) : Prop :=
  ∃ a m ds b, revision_marker m ds ∧ s = a +:+ m +:+ b.

Definition all_space (ws : string) : Prop :=
  Forall (λ c, Py.is_space c = true) (chars ws).

(** The last character of [s], if there is one, is not white space. *)
Definition no_trailing_space (s : string) : Prop :=
  ∀ s0 c, s = s0 +:+ String c EmptyString → Py.is_space c = false.

(** A text that is white space up to an opening parenthesis: what follows
    the text before a marker. *)
Definition gap_then_paren (y : list ascii) : Prop :=
  ∃ ws tail, y = ws ++ "("%char :: tail ∧ Forall (λ c, Py.is_space c = true) ws.

(** The last character, if there is one, is not white space. *)
Definition last_not_space (a : list ascii) : Prop :=
  ∀ a0 c, a = a0 ++ [c] → Py.is_space c = false.

(** The number of opening parentheses in a text. *)
Definition open_parens (s : list ascii) : nat := count_occ ascii_dec s "("%char.

(** ** The catalog document *)

(** A child of the document root, as [xml.etree.ElementTree] presents it:
    its tag and the value of its [name] attribute, if it has one. *)
Record Element := { tag : string; attr_name : option string }.

(** What [ET.parse] does with the file. *)
Inductive EtParse :=
| Parsed (root : list Element)   (* well-formed: the children of the root *)
| ParseError (msg : string)      (* [ET.ParseError]: not well-formed *)
| OtherError (msg : string).     (* any other exception, such as an I/O error *)

(** What a call does: it returns a value or it raises. *)
Inductive Outcome (A : Type) :=
| Return (a : A)
| Raise (exn : string).
Arguments Return {A} a.
Arguments Raise {A} exn.

(** [root.findall('game')]: the children of the root with that tag. *)
Definition findall_game (root : list Element) : list Element :=
  filter (λ g, tag g = "game") root.

Section Catalog.
(** [html.unescape] of the Python standard library. *)
Variable html_unescape : string → string.

(** The body of the loop of [parse_dat_file]. *)
Definition add_game_name (dat_names : gset string) (game : Element) : gset string :=
  match attr_name game with
  | Some game_name =>
      if decide (game_name = EmptyString) then dat_names
      else {[ html_unescape game_name ]} ∪ dat_names
  | None => dat_names
  end.

Definition parse_dat_file (doc : EtParse) : Outcome (gset string) :=
  match doc with
  | Parsed root => Return (foldl add_game_name ∅ (findall_game root))
  | ParseError _ => Return ∅
  | OtherError _ => Return ∅
  end.

(** The names the loops of [parse_dat_file] and
    [parse_dat_file_for_revisions] work on, in document order. *)
Definition decoded_names (root : list Element) : list string :=
  omap (λ g, match attr_name g with
             | Some n => if decide (n = EmptyString) then None
                         else Some (html_unescape n)
             | None => None
             end) (findall_game root).

(** The revision bookkeeping for one decoded name.  [base_to_max_rev] is a
    [defaultdict(int)]: reading a missing key stores 0 under it. *)
Definition track_revision (base_to_max_rev : gmap string Z) (game_name : string)
  : gmap string Z :=
  let '(base_name, rev_num) := extract_revision game_name in
  match rev_num with
  | Some rev_num =>
      let current := default 0 (base_to_max_rev !! base_name) in
      let d := <[base_name := current]> base_to_max_rev in
      if decide (rev_num > current) then <[base_name := rev_num]> d else d
  | None =>
      match base_to_max_rev !! base_name with
      | Some _ => base_to_max_rev
      | None => <[base_name := 0]> base_to_max_rev
      end
  end.

(** The body of the loop of [parse_dat_file_for_revisions]. *)
Definition track_game (base_to_max_rev : gmap string Z) (game : Element)
  : gmap string Z :=
  match attr_name game with
  | Some game_name =>
      if decide (game_name = EmptyString) then base_to_max_rev
      else track_revision base_to_max_rev (html_unescape game_name)
  | None => base_to_max_rev
  end.

Definition parse_dat_file_for_revisions (doc : EtParse) : Outcome (gmap string Z) :=
  match doc with
  | Parsed root => Return (foldl track_game ∅ (findall_game root))
  | ParseError _ => Return ∅
  | OtherError _ => Return ∅
  end.
End Catalog.

(** The revision index of a list of decoded names: the loop of
    [parse_dat_file_for_revisions] once the names are read and decoded. *)
Definition build_revision_index (names : list string) : gmap string Z :=
  foldl track_revision ∅ names.

(** The base title and the revision of a name; a name without a marker has
    revision 0, the original. *)
Definition base_of (game_name : string) : string := (extract_revision game_name).1.
Definition revision_of (game_name : string) : Z :=
  default 0 (extract_revision game_name).2.

Definition get_latest_revision_name (base_name : string) (max_rev : Z)
    (redump_names : gset string) : option string :=
  if decide (max_rev = 0) then
    if decide (base_name ∈ redump_names) then Some base_name else None
  else
    let rev_name := base_name +:+ " (Rev " +:+ Py.format_int max_rev +:+ ")" in
    if decide (rev_name ∈ redump_names) then Some rev_name else None.

(** ** The asset directories *)

(** [s.rfind(c)]: the index of the last occurrence of [c], if there is one. *)
Fixpoint rfind (c : ascii) (s : list ascii) : option nat :=
  match s with
  | [] => None
  | a :: s' =>
      match rfind c s' with
      | Some i => Some (S i)
      | None => if Ascii.eqb a c then Some O else None
      end
  end.

(** [pathlib]'s [stem] of a file name: the name without its last suffix;
    a name whose only dot is its first or last character has no suffix. *)
Definition stem (name : string) : string :=
  match rfind "." (chars name) with
  | Some i =>
      if ((0 <? i) && (i <? length (chars name) - 1))%nat
      then text (take i (chars name))
      else name
  | None => name
  end.

(** A path is a directory and the name of an entry in it.  Directories are
    written relative to the root of the work space. *)
Record Path := { parent : string; name : string }.

Definition LIBRARY_DIR : string := "library".
Definition COMPOSITES_DIR : string := "composites".
Definition joinpath (dir entry : string) : string := dir +:+ "/" +:+ entry.

Definition COLLECTION_DIRS : list (string * list string) :=
  [ ("2dbox", [ joinpath LIBRARY_DIR "2dbox";
                joinpath LIBRARY_DIR "2dbox-lq";
                joinpath LIBRARY_DIR "2dbox-missing" ]);
    ("3dbox", [ joinpath LIBRARY_DIR "3dbox";
                joinpath LIBRARY_DIR "3dbox-lq";
                joinpath LIBRARY_DIR "3dbox-missing" ]);
    ("disc", [ joinpath LIBRARY_DIR "disc";
               joinpath LIBRARY_DIR "disc-lq";
               joinpath LIBRARY_DIR "disc-missing" ]);
    ("psp-icon0",
      [ joinpath (joinpath COMPOSITES_DIR "psp-icon0") "psp-icon0-generated";
        joinpath (joinpath COMPOSITES_DIR "psp-icon0") "psp-icon0-bespoke" ]) ].

(** An entry of a directory: its name, a single path component, and whether
    it is a link whose target is missing.  [glob] lists such a link like any
    other entry; [exists()] follows it and answers [False]. *)
Record Entry := { entry_name : string; dangling : bool }.

(** An entry that is a file, a directory or a link to one. *)
Definition file (entry : string) : Entry :=
  {| entry_name := entry; dangling := false |}.

(** The file system as the script reads it: every existing directory with
    its entries.  Names are compared exactly. *)
Abbreviation FileSystem := (gmap string (list Entry)).

(** [directory.exists()] *)
Definition dir_exists (fs : FileSystem) (directory : string) : bool :=
  bool_decide (is_Some (fs !! directory)).

(** [(directory / entry).exists()] *)
Definition file_exists (fs : FileSystem) (directory entry : string) : bool :=
  match fs !! directory with
  | Some listing =>
      existsb (λ e, bool_decide (entry_name e = entry) && negb (dangling e)) listing
  | None => false
  end.

(** [directory.glob("*.png")] *)
Definition glob_png (fs : FileSystem) (directory : string) : list Path :=
  match fs !! directory with
  | Some listing =>
      (λ e, {| parent := directory; name := entry_name e |}) <$>
        filter (λ e, str_endswith ".png" (entry_name e) = true) listing
  | None => []
  end.

(** The innermost loop of [collect_collection_filenames]. *)
Definition add_stem (collection_names : gset string) (file_path : Path) : gset string :=
  if str_contains " alt" (stem (name file_path)) then collection_names
  else {[ stem (name file_path) ]} ∪ collection_names.

Definition add_directory (fs : FileSystem) (collection_names : gset string)
    (directory : string) : gset string :=
  if negb (dir_exists fs directory) then collection_names
  else foldl add_stem collection_names (glob_png fs directory).

Definition collect_collection_filenames (fs : FileSystem) : gset string :=
  foldl (λ collection_names '(category, dirs),
           foldl (add_directory fs) collection_names dirs)
        ∅ COLLECTION_DIRS.

(** The directories [check_image_exists] looks into, with their labels. *)
Definition image_dirs (category : string) : option (list (string * string)) :=
  if decide (category = "2dbox") then
    Some [ (joinpath LIBRARY_DIR "2dbox", "normal");
           (joinpath LIBRARY_DIR "2dbox-lq", "lq");
           (joinpath LIBRARY_DIR "2dbox-missing", "missing") ]
  else if decide (category = "3dbox") then
    Some [ (joinpath LIBRARY_DIR "3dbox", "normal");
           (joinpath LIBRARY_DIR "3dbox-lq", "lq");
           (joinpath LIBRARY_DIR "3dbox-missing", "missing") ]
  else if decide (category = "disc") then
    Some [ (joinpath LIBRARY_DIR "disc", "normal");
           (joinpath LIBRARY_DIR "disc-lq", "lq");
           (joinpath LIBRARY_DIR "disc-missing", "missing") ]
  else if decide (category = "psp-icon0") then
    Some [ (joinpath (joinpath COMPOSITES_DIR "psp-icon0") "psp-icon0-generated",
            "generated");
           (joinpath (joinpath COMPOSITES_DIR "psp-icon0") "psp-icon0-bespoke",
            "bespoke") ]
  else None.

(** The loop of [check_image_exists]: the first directory holding the file. *)
Fixpoint first_location (fs : FileSystem) (game_name : string)
    (dirs : list (string * string)) : bool * option string :=
  match dirs with
  | [] => (false, None)
  | (directory, location) :: dirs' =>
      if dir_exists fs directory
         && file_exists fs directory (game_name +:+ ".png")
      then (true, Some location)
      else first_location fs game_name dirs'
  end.

Definition check_image_exists (fs : FileSystem) (game_name category : string)
    : bool * option string :=
  match image_dirs category with
  | Some dirs => first_location fs game_name dirs
  | None => (false, None)
  end.

Definition CATEGORIES : list string := ["2dbox"; "3dbox"; "disc"; "psp-icon0"].

(** The inner loop of [check_collection_completeness] for one category:
    the two lists [missing_cats] and [missing_only_cats] of one game. *)
Definition classify_category (fs : FileSystem) (game_name : string)
    (acc : list string * list string) (category : string)
    : list string * list string :=
  let '(missing_cats, missing_only_cats) := acc in
  let '(found, location) := check_image_exists fs game_name category in
  if negb found then (missing_cats ++ [category], missing_only_cats)
  else if decide (location = Some "missing")
       then (missing_cats, missing_only_cats ++ [category])
       else (missing_cats, missing_only_cats).

Definition classify_game (fs : FileSystem) (game_name : string)
    : list string * list string :=
  foldl (classify_category fs game_name) ([], []) CATEGORIES.

(** The outer loop of [check_collection_completeness] for one game. *)
Definition record_game (fs : FileSystem)
    (acc : gmap string (list string) * gmap string (list string))
    (game_name : string)
    : gmap string (list string) * gmap string (list string) :=
  let '(missing_images, missing_only_games) := acc in
  let '(missing_cats, missing_only_cats) := classify_game fs game_name in
  (match missing_cats with
   | [] => missing_images
   | _ => <[game_name := missing_cats]> missing_images
   end,
   match missing_only_cats with
   | [] => missing_only_games
   | _ => <[game_name := missing_only_cats]> missing_only_games
   end).

(** The set is visited in the order of [elements]; each game writes only
    under its own key. *)
Definition check_collection_completeness (fs : FileSystem)
    (collection_names : gset string)
    : gmap string (list string) * gmap string (list string) :=
  foldl (record_game fs) (∅, ∅) (elements collection_names).

Definition PSP_DIRS : list string :=
  [ joinpath (joinpath COMPOSITES_DIR "psp-icon0") "psp-icon0-generated";
    joinpath (joinpath COMPOSITES_DIR "psp-icon0") "psp-icon0-bespoke" ].

(** The loop of [check_psp_icon0_sync] over one directory. *)
Definition mismatched_in (fs : FileSystem) (collection_names : gset string)
    (mismatched_files : list Path) (psp_dir : string) : list Path :=
  if negb (dir_exists fs psp_dir) then mismatched_files
  else
    foldl (λ acc file_path,
             let game_name := stem (name file_path) in
             if decide (game_name ∉ collection_names)
             then acc ++ [file_path] else acc)
          mismatched_files (glob_png fs psp_dir).

Definition check_psp_icon0_sync (fs : FileSystem) (collection_names : gset string)
    : list Path :=
  foldl (mismatched_in fs collection_names) [] PSP_DIRS.

(** ** The removal report *)

(** Reading a text file line by line.  In text mode every line ending
    (carriage return, line feed, or both) is delivered as one line feed,
    which stays at the end of the line it closes. *)
Fixpoint universal_newlines (s : list ascii) : list ascii :=
  match s with
  | [] => []
  | c :: s' =>
      if Ascii.eqb c "013" then
        "010"%char ::
          universal_newlines
            match s' with
            | d :: s'' => if Ascii.eqb d "010" then s'' else s'
            | [] => s'
            end
      else c :: universal_newlines s'
  end.

Fixpoint lines_from (cur : list ascii) (s : list ascii) : list (list ascii) :=
  match s with
  | [] => match cur with [] => [] | _ => [rev cur] end
  | c :: s' =>
      if Ascii.eqb c "010" then rev (c :: cur) :: lines_from [] s'
      else lines_from (c :: cur) s'
  end.

Definition file_lines (content : string) : list string :=
  text <$> lines_from [] (universal_newlines (chars content)).

(** The three local variables of [parse_filter_report]. *)
Record FilterState := {
  removed_games : gmap string string;
  current_section : option string;
  current_parent : option string
}.

(** The chain of comparisons with the nine section headers. *)
Definition section_of_header (line : string) : option string :=
  if decide (line = "TITLES WITH CLONES") then Some "Clone"
  else if decide (line = "APPLICATION REMOVES") then Some "Application"
  else if decide (line = "AUDIO REMOVES") then Some "Audio"
  else if decide (line = "COVERDISC REMOVES") then Some "Coverdisc"
  else if decide (line = "DEMO, KIOSK, AND SAMPLE REMOVES") then Some "Demo/Kiosk/Sample"
  else if decide (line = "EDUCATIONAL REMOVES") then Some "Educational"
  else if decide (line = "UNLICENSED REMOVES") then Some "Unlicensed"
  else if decide (line = "VIDEO REMOVES") then Some "Video"
  else if decide (line = "LANGUAGE REMOVES") then Some "Language"
  else None.

(** Truth value of a variable that holds [None] or a string. *)
Definition truthy (v : option string) : bool :=
  match v with
  | Some s => negb (bool_decide (s = EmptyString))
  | None => false
  end.

(** The reason stored for a removed title. *)
Definition removal_reason (st : FilterState) : string :=
  if bool_decide (current_section st = Some "Clone") && truthy (current_parent st)
  then "Superior version: '" +:+ default EmptyString (current_parent st) +:+ "'"
  else if truthy (current_section st)
       then default EmptyString (current_section st)
       else "Removed".

(** The body of the loop of [parse_filter_report] for one line. *)
Definition filter_line (st : FilterState) (raw : string) : FilterState :=
  let line := str_rstrip raw in
  match section_of_header line with
  | Some section =>
      {| removed_games := removed_games st;
         current_section := Some section;
         current_parent := None |}
  | None =>
      if bool_decide (line = EmptyString)
         || str_startswith "=" line || str_startswith "*" line
         || str_startswith "SECTIONS" line || str_startswith "This file" line
      then st
      else
        let stripped_line := str_lstrip line in
        match Py.after_prefix (chars "+ ") (chars stripped_line) with
        | Some rest =>
            if decide (current_section st = Some "Clone")
            then {| removed_games := removed_games st;
                    current_section := current_section st;
                    current_parent := Some (text (Py.strip rest)) |}
            else st
        | None =>
            match Py.after_prefix (chars "- ") (chars stripped_line) with
            | Some rest =>
                let game_name := text (Py.strip rest) in
                {| removed_games :=
                     <[game_name := removal_reason st]> (removed_games st);
                   current_section := current_section st;
                   current_parent := current_parent st |}
            | None => st
            end
        end
  end.

Definition initial_filter_state : FilterState :=
  {| removed_games := ∅; current_section := None; current_parent := None |}.

(** [parse_filter_report] on the decoded content of the file; [None] stands
    for a file that cannot be opened or decoded, where the function prints
    the error and returns the empty dictionary. *)
Definition parse_filter_report (content : option string) : gmap string string :=
  match content with
  | Some content =>
      removed_games (foldl filter_line initial_filter_state (file_lines content))
  | None => ∅
  end.

(** ** What a run of [main] gives *)

(** [sorted] on a set of strings. *)
Definition sorted (s : gset string) : list string :=
  merge_sort String.le (elements s).

(** What [main] has computed for its report when it gets to its first
    question to the user, or to its end when it asks none. *)
Record Report := {
  removal_reasons : gmap string string;
  in_dat_not_collection : list string;
  in_collection_not_dat : list string;
  in_both : list string;
  missing_images : gmap string (list string);
  missing_only_games : gmap string (list string);
  mismatched_psp : list Path
}.

(** How a run goes: one of the three early returns, an exception that
    escapes before any question is asked, or the report.  What the user
    answers, and the moving and renaming of files that follows an answer,
    are not part of the model. *)
Inductive RunResult :=
| NoDatFile
| NoGameNames
| NoCollectionNames
| Crashed (exn : string)
| Reported (r : Report).

Definition sample_report : string :=
  "TITLES WITH CLONES" +:+ String "010" (
  "+ Game A (USA)" +:+ String "010" (
  "- Game A (Europe)" +:+ String "010" (
  "AUDIO REMOVES" +:+ String "010" (
  "- Game B" +:+ String "010" EmptyString)))).

(** ** Further checks of the report *)

(** [collect_all_files_for_name]: the files called [collection_name].png in
    the collection directories, in the order of [COLLECTION_DIRS]. *)
Definition collect_all_files_for_name (fs : FileSystem) (collection_name : string)
    : list Path :=
  foldl (λ files '(category, dirs),
           foldl (λ files directory,
                    if negb (dir_exists fs directory) then files
                    else
                      let file_path :=
                        {| parent := directory;
                           name := collection_name +:+ ".png" |} in
                      if file_exists fs (parent file_path) (name file_path)
                      then files ++ [file_path] else files)
                 files dirs)
        [] COLLECTION_DIRS.

(** [COLLECTION_DIRS[category][i]]; the four categories of the loops below
    are keys of the table and the indices are within the lists. *)
Definition collection_dir (category : string) (i : nat) : string :=
  default EmptyString
    (dirs ← (list_to_map COLLECTION_DIRS : gmap string (list string)) !! category;
     dirs !! i).

(** One of the tests of [check_missing_folder_duplicates]: the directory
    exists and holds the image of the game. *)
Definition folder_has (fs : FileSystem) (directory game_name : string) : bool :=
  dir_exists fs directory && file_exists fs directory (game_name +:+ ".png").

(** The list [locations] that [check_missing_folder_duplicates] builds for
    one category and one game. *)
Definition duplicate_locations (fs : FileSystem) (category game_name : string)
    : list string :=
  if decide (category = "psp-icon0") then
    (if folder_has fs (collection_dir category 0) game_name then ["generated"] else [])
    ++ (if folder_has fs (collection_dir category 1) game_name then ["bespoke"] else [])
  else
    (if folder_has fs (collection_dir category 0) game_name then ["normal"] else [])
    ++ (if folder_has fs (collection_dir category 1) game_name then ["lq"] else [])
    ++ (if folder_has fs (collection_dir category 2) game_name then ["missing"] else []).

(** The inner loop of [check_missing_folder_duplicates] for one game. *)
Definition flag_duplicate (fs : FileSystem) (category : string)
    (duplicates : gmap string (list (string * list string))) (game_name : string)
    : gmap string (list (string * list string)) :=
  let locations := duplicate_locations fs category game_name in
  if (1 <? length locations)%nat
  then alter (λ found, found ++ [(game_name, locations)]) category duplicates
  else duplicates.

Definition check_missing_folder_duplicates (fs : FileSystem)
    (collection_names : gset string)
    : gmap string (list (string * list string)) :=
  foldl (λ duplicates category,
           foldl (flag_duplicate fs category) duplicates (elements collection_names))
        {[ "2dbox" := []; "3dbox" := []; "disc" := []; "psp-icon0" := [] ]}
        CATEGORIES.

(** The entries that the games of [games], in this order, add to the list
    of one category: the games with more than one location. *)
Definition duplicate_entries (fs : FileSystem) (category : string)
    (games : list string) : list (string * list string) :=
  omap (λ game_name,
          let locations := duplicate_locations fs category game_name in
          if (1 <? length locations)%nat then Some (game_name, locations) else None)
       games.

(** The flag [has_duplicates] of [main]:
    [any(missing_duplicates[cat] for cat in ["2dbox", "3dbox", "disc"])]. *)
Definition has_duplicates (missing_duplicates : gmap string (list (string * list string)))
    : bool :=
  existsb (λ cat, match default [] (missing_duplicates !! cat) with
                  | [] => false
                  | _ :: _ => true
                  end)
          ["2dbox"; "3dbox"; "disc"].

(** [reason[start:-1]]: from index [start] up to, not including, the last
    character; empty when there is nothing in between. *)
Definition slice_to_last (start : nat) (s : string) : string :=
  text (take (length (chars s) - 1 - start) (drop start (chars s))).

Definition extract_superior_version_name (reason : string) : option string :=
  if negb (str_startswith "Superior version: '" reason) then None
  else
    let start := length (chars "Superior version: '") in
    if str_endswith "'" reason then Some (slice_to_last start reason)
    else None.

(** The revision pass of [main] for one inventory name; the findings are
    tuples (inventory name, latest catalog name, inventory revision, highest
    catalog revision). *)
Definition check_revision (base_to_max_rev : gmap string Z) (dat_names : gset string)
    (needs_revision_update : list (string * string * Z * Z))
    (collection_name : string) : list (string * string * Z * Z) :=
  let '(base_name, collection_rev) := extract_revision collection_name in
  match base_to_max_rev !! base_name with
  | Some max_rev =>
      let collection_rev := default 0 collection_rev in
      if decide (collection_rev < max_rev) then
        let latest_name := get_latest_revision_name base_name max_rev dat_names in
        if truthy latest_name
        then needs_revision_update
               ++ [(collection_name, default EmptyString latest_name,
                    collection_rev, max_rev)]
        else needs_revision_update
      else needs_revision_update
  | None => needs_revision_update
  end.

(** The revision pass of [main]: [base_to_max_rev] is the result of
    [parse_dat_file_for_revisions]; an empty dictionary switches the pass
    off. *)
Definition find_revision_updates (base_to_max_rev : gmap string Z)
    (dat_names collection_names : gset string) : list (string * string * Z * Z) :=
  if decide (base_to_max_rev = ∅) then []
  else foldl (check_revision base_to_max_rev dat_names) [] (sorted collection_names).

(** [count_hq_images] of [full-verification.py]. *)
Definition count_hq_images (fs : FileSystem) (category : string)
    (collection_names : gset string) : nat :=
  let hq_dir :=
    if decide (category = "2dbox") then Some (joinpath LIBRARY_DIR "2dbox")
    else if decide (category = "3dbox") then Some (joinpath LIBRARY_DIR "3dbox")
    else if decide (category = "disc") then Some (joinpath LIBRARY_DIR "disc")
    else None in
  match hq_dir with
  | None => O
  | Some hq_dir =>
      if negb (dir_exists fs hq_dir) then O
      else foldl (λ hq_count game_name,
                    if file_exists fs hq_dir (game_name +:+ ".png")
                    then S hq_count else hq_count)
                 O (elements collection_names)
  end.

(** ** The run of [main] *)

(** [SCRIPT_DIR.parent], the directory above the one of the script; like the
    other directories it is written relative to the root of the work
    space. *)
Definition SCRIPT_PARENT : string := "verification".

(** The path of a file as one string. *)
Definition full_path (file_path : Path) : string :=
  joinpath (parent file_path) (name file_path).

(** [path.relative_to(other)]: what is left of the path below [other]; a
    path that does not lie under [other] raises [ValueError]. *)
Definition relative_to (path other : string) : Outcome string :=
  if decide (path = other) then Return "."
  else
    match Py.after_prefix (chars (other +:+ "/")) (chars path) with
    | Some rest => Return (text rest)
    | None => Raise "ValueError"
    end.

(** A loop of [main] that prints [file_path.relative_to(SCRIPT_DIR.parent)]
    for each file; the calls are not guarded, so the loop ends at the first
    one that raises. *)
Fixpoint print_relative_paths (files : list Path) : Outcome unit :=
  match files with
  | [] => Return tt
  | file_path :: files' =>
      match relative_to (full_path file_path) SCRIPT_PARENT with
      | Return _ => print_relative_paths files'
      | Raise exn => Raise exn
      end
  end.

(** The components of a path that is written with "/". *)
Fixpoint split_slash (cur : list ascii) (s : list ascii) : list string :=
  match s with
  | [] => [text (rev cur)]
  | c :: s' =>
      if Ascii.eqb c "/" then text (rev cur) :: split_slash [] s'
      else split_slash (c :: cur) s'
  end.

Definition parts (file_path : Path) : list string :=
  split_slash [] (chars (parent file_path)) ++ [name file_path].

(** The order of [pathlib] on paths: the order of Python on the lists of
    their components. *)
Fixpoint parts_le (a b : list string) : bool :=
  match a, b with
  | [], _ => true
  | _ :: _, [] => false
  | x :: a', y :: b' =>
      if decide (x = y) then parts_le a' b' else bool_decide (String.le x y)
  end.

Definition path_le (p q : Path) : Prop := parts_le (parts p) (parts q) = true.

#[global] Instance path_le_dec : RelDecision path_le.
Proof. intros p q. unfold path_le. apply _. Defined.

Definition sorted_paths (files : list Path) : list Path :=
  merge_sort path_le files.

(** [main] up to its first question to the user, or to its end when it asks
    none.  [dat_file] is what [ET.parse] makes of the latest catalog file, if
    the directory has one, the same at both places where the file is read;
    [txt_file] is the content of the latest removal report, if there is one,
    with [None] inside for a report that cannot be read.

    The checks of completeness and of duplicates and the analysis of the
    image sizes only print what they find.  The list of the icons without a
    game and the list of the files of the first revision finding are printed
    with [relative_to]; after the second list comes the question whether to
    rename.  With no revision finding the run goes on to list the names; it
    raises nothing before it asks about a cleanup, if it asks at all. *)
Definition main (html_unescape : string → string)
    (dat_file : option EtParse) (txt_file : option (option string))
    (fs : FileSystem) : RunResult :=
  match dat_file with
  | None => NoDatFile
  | Some dat =>
      let removal_reasons :=
        match txt_file with
        | Some content => parse_filter_report content
        | None => ∅
        end in
      match parse_dat_file html_unescape dat with
      | Raise exn => Crashed exn
      | Return dat_names =>
          if decide (dat_names = ∅) then NoGameNames
          else
            let collection_names := collect_collection_filenames fs in
            if decide (collection_names = ∅) then NoCollectionNames
            else
              let completeness :=
                check_collection_completeness fs collection_names in
              let mismatched_psp := check_psp_icon0_sync fs collection_names in
              let report :=
                {| removal_reasons := removal_reasons;
                   in_dat_not_collection := sorted (dat_names ∖ collection_names);
                   in_collection_not_dat := sorted (collection_names ∖ dat_names);
                   in_both := sorted (collection_names ∩ dat_names);
                   missing_images := completeness.1;
                   missing_only_games := completeness.2;
                   mismatched_psp := mismatched_psp |} in
              match print_relative_paths (sorted_paths mismatched_psp) with
              | Raise exn => Crashed exn
              | Return _ =>
                  match parse_dat_file_for_revisions html_unescape dat with
                  | Raise exn => Crashed exn
                  | Return base_to_max_rev =>
                      match find_revision_updates base_to_max_rev dat_names
                              collection_names with
                      | [] => Reported report
                      | (collection_name, _, _, _) :: _ =>
                          let files_to_rename :=
                            collect_all_files_for_name fs collection_name in
                          match print_relative_paths (take 3 files_to_rename) with
                          | Raise exn => Crashed exn
                          | Return _ => Reported report
                          end
                      end
                  end
              end
      end
  end.

(** ** The names that the catalog does not list, with their reasons *)

(** The loop of [main] over [in_collection_not_dat]: a name that the removal
    report has goes to [games_with_reasons] with its reason, any other name
    to [games_without_reasons]. [main] runs it, and the loops below, only
    when there are such names and reasons; without them it lists nothing,
    as the empty lists here do. *)
Definition split_by_reason (removal_reasons : gmap string string)
    (acc : list (string * string) * list string) (name : string)
    : list (string * string) * list string :=
  match removal_reasons !! name with
  | Some reason => (acc.1 ++ [(name, reason)], acc.2)
  | None => (acc.1, acc.2 ++ [name])
  end.

Definition games_by_reason (removal_reasons : gmap string string)
    (in_collection_not_dat : list string)
    : list (string * string) * list string :=
  foldl (split_by_reason removal_reasons) ([], []) in_collection_not_dat.

(** The order of Python on tuples of two strings: the first components
    decide unless they are equal. *)
Definition tuple_le (a b : string * string) : Prop :=
  if decide (a.1 = b.1) then String.le a.2 b.2 else String.le a.1 b.1.

#[global] Instance tuple_le_dec : RelDecision tuple_le.
Proof. intros a b. unfold tuple_le. destruct (decide (a.1 = b.1)); apply _. Defined.

Definition sorted_tuples (l : list (string * string)) : list (string * string) :=
  merge_sort tuple_le l.

(** The body of the loop over [sorted(games_with_reasons)], without what it
    prints. *)
Definition add_superior_candidate (collection_names : gset string)
    (acc : list (string * string * string)) (game : string * string)
    : list (string * string * string) :=
  let '(name, reason) := game in
  if str_startswith "Superior version" reason then
    let superior_name := extract_superior_version_name reason in
    match superior_name with
    | Some superior =>
        if truthy superior_name && bool_decide (superior ∈ collection_names)
        then acc ++ [(name, superior, reason)]
        else acc
    | None => acc
    end
  else acc.

Definition superior_version_candidates (collection_names : gset string)
    (games_with_reasons : list (string * string))
    : list (string * string * string) :=
  foldl (add_superior_candidate collection_names) []
        (sorted_tuples games_with_reasons).

Definition add_rename_candidate (acc : list (string * string))
    (game : string * string) : list (string * string) :=
  let '(name, reason) := game in
  if str_startswith "Superior version" reason then
    let superior_name := extract_superior_version_name reason in
    match superior_name with
    | Some superior =>
        if truthy superior_name then acc ++ [(name, superior)] else acc
    | None => acc
    end
  else acc.

Definition rename_candidates (games_with_reasons : list (string * string))
    : list (string * string) :=
  foldl add_rename_candidate [] games_with_reasons.

(** The eight candidate lists of [main], one per reason that has a cleanup
    of its own. *)
Inductive CleanupList :=
| language_candidates
| demo_candidates
| audio_candidates
| educational_candidates
| application_candidates
| coverdisc_candidates
| unlicensed_candidates
| video_candidates.

#[global] Instance CleanupList_eq_dec : EqDecision CleanupList.
Proof. solve_decision. Defined.

(** The chain of comparisons that picks the list for a reason. *)
Definition cleanup_list_of (reason : string) : option CleanupList :=
  if decide (reason = "Language") then Some language_candidates
  else if decide (reason = "Demo/Kiosk/Sample") then Some demo_candidates
  else if decide (reason = "Audio") then Some audio_candidates
  else if decide (reason = "Educational") then Some educational_candidates
  else if decide (reason = "Application") then Some application_candidates
  else if decide (reason = "Coverdisc") then Some coverdisc_candidates
  else if decide (reason = "Unlicensed") then Some unlicensed_candidates
  else if decide (reason = "Video") then Some video_candidates
  else None.

Definition add_cleanup_candidate (lists : CleanupList → list (string * string))
    (game : string * string) : CleanupList → list (string * string) :=
  let '(name, reason) := game in
  match cleanup_list_of reason with
  | Some target =>
      λ l, if decide (l = target) then lists l ++ [(name, reason)] else lists l
  | None => lists
  end.

Definition cleanup_candidates (games_with_reasons : list (string * string))
    : CleanupList → list (string * string) :=
  foldl add_cleanup_candidate (λ _, []) games_with_reasons.

(** The reason whose games a candidate list holds. *)
Definition reason_name (l : CleanupList) : string :=
  match l with
  | language_candidates => "Language"
  | demo_candidates => "Demo/Kiosk/Sample"
  | audio_candidates => "Audio"
  | educational_candidates => "Educational"
  | application_candidates => "Application"
  | coverdisc_candidates => "Coverdisc"
  | unlicensed_candidates => "Unlicensed"
  | video_candidates => "Video"
  end.

(** *** The vocabulary of the statements about the asset tree *)

(** No entry of the tree is a link to a missing target. *)
Definition no_dangling_links (fs : FileSystem) : Prop :=
  ∀ directory listing e,
    fs !! directory = Some listing → e ∈ listing → dangling e = false.

(** *** The vocabulary of the statements about the removal report *)

(** The nine section headers of the removal report, each with the section
    that it opens. *)
Definition SECTION_HEADERS : list (string * string) :=
  [ ("TITLES WITH CLONES", "Clone");
    ("APPLICATION REMOVES", "Application");
    ("AUDIO REMOVES", "Audio");
    ("COVERDISC REMOVES", "Coverdisc");
    ("DEMO, KIOSK, AND SAMPLE REMOVES", "Demo/Kiosk/Sample");
    ("EDUCATIONAL REMOVES", "Educational");
    ("UNLICENSED REMOVES", "Unlicensed");
    ("VIDEO REMOVES", "Video");
    ("LANGUAGE REMOVES", "Language") ].

(** The lines that the parser passes over: blank lines, separator lines and
    the two lines of the preamble. *)
Definition skipped_line (line : string) : Prop :=
  line = EmptyString
  ∨ (∃ r, line = "=" +:+ r) ∨ (∃ r, line = "*" +:+ r)
  ∨ (∃ r, line = "SECTIONS" +:+ r) ∨ (∃ r, line = "This file" +:+ r).

(** The reasons that are not a superior version: the names of the nine
    sections and the fallback. *)
Definition PLAIN_REASONS : list string :=
  ["Clone"; "Application"; "Audio"; "Coverdisc"; "Demo/Kiosk/Sample";
   "Educational"; "Unlicensed"; "Video"; "Language"; "Removed"].

(** An entry of the dictionary of removed games as the parser writes it. *)
Definition removal_entry (k v : string) : Prop :=
  k ≠ EmptyString ∧ str_strip k = k
  ∧ (v ∈ PLAIN_REASONS
     ∨ ∃ p, p ≠ EmptyString ∧ str_strip p = p
            ∧ v = "Superior version: '" +:+ p +:+ "'").

(** What holds of the three variables of the parser after any number of
    lines. *)
Definition filter_state_ok (st : FilterState) : Prop :=
  (∀ s, current_section st = Some s → s ∈ PLAIN_REASONS ∧ s ≠ "Removed")
  ∧ (∀ p, current_parent st = Some p →
          p ≠ EmptyString ∧ str_strip p = p ∧ current_section st = Some "Clone")
  ∧ (∀ k v, removed_games st !! k = Some v → removal_entry k v).

(** ** Sample inputs *)

(** A small asset tree: one game with a 2D box and an acknowledged missing
    disc, an alternate rendition, and two icons without any other asset. *)
Definition sample_fs : FileSystem :=
  {[ "library/2dbox" := file <$> ["Game A.png"; "Game A alt.png"; "notes.txt"];
     "library/disc-missing" := file <$> ["Game A.png"];
     "composites/psp-icon0/psp-icon0-generated" :=
       file <$> ["Game X.png"; "Game Y alt.png"] ]}.

(** An asset tree without alternate renditions: two games with a 2D box,
    one of them with an icon. *)
Definition tidy_fs : FileSystem :=
  {[ "library/2dbox" := file <$> ["Game A.png"; "Game C.png"];
     "composites/psp-icon0/psp-icon0-generated" := file <$> ["Game A.png"] ]}.

(** An asset tree with a single file: an icon whose stem no other folder has. *)
Definition icon_only_fs : FileSystem :=
  {[ "composites/psp-icon0/psp-icon0-generated" := file <$> ["Game X.png"] ]}.

(** An asset tree whose only entry is a link to a missing target. *)
Definition dangling_fs : FileSystem :=
  {[ "library/2dbox" := [ {| entry_name := "Game D.png"; dangling := true |} ] ]}.

(** A catalog with two entries, one of them in the sample asset tree. *)
Definition sample_catalog : EtParse :=
  Parsed [ {| tag := "game"; attr_name := Some "Game A" |};
           {| tag := "header"; attr_name := Some "Sony - PlayStation" |};
           {| tag := "game"; attr_name := Some "Game Z" |} ].

(** * Properties *)

Local Arguments Ascii.eqb : simpl never.

(** ** Strings and character lists *)

Lemma text_chars (s : string) : text (chars s) = s.
Proof. apply string_of_list_ascii_of_string. Qed.

Lemma chars_text (l : list ascii) : chars (text l) = l.
Proof. apply list_ascii_of_string_of_list_ascii. Qed.

Lemma chars_app (a b : string) : chars (a +:+ b) = chars a ++ chars b.
Proof. induction a as [|c a IH]; simpl; [done | by rewrite IH]. Qed.

Lemma text_app (a b : list ascii) : text (a ++ b) = text a +:+ text b.
Proof. induction a as [|c a IH]; simpl; [done | by rewrite IH]. Qed.

Lemma chars_inj (a b : string) : chars a = chars b → a = b.
Proof. intros H. rewrite <- (text_chars a), <- (text_chars b). by rewrite H. Qed.

(** ** Sorting keeps the elements *)

Lemma elem_of_sorted (s : gset string) (x : string) : x ∈ sorted s ↔ x ∈ s.
Proof.
  unfold sorted. rewrite merge_sort_Permutation. apply elem_of_elements.
Qed.

Lemma NoDup_sorted (s : gset string) : NoDup (sorted s).
Proof.
  unfold sorted. rewrite merge_sort_Permutation. apply NoDup_elements.
Qed.

Lemma StronglySorted_sorted (s : gset string) : StronglySorted String.le (sorted s).
Proof. apply StronglySorted_merge_sort; apply _. Qed.

(** ** The latest name of a base title *)

(** C5: with [max_rev] 0 the lookup answers the base exactly when the base
    is a catalog name; with a positive [max_rev] it answers the string
    "{base} (Rev {max_rev})" exactly when that string is a catalog name; in
    every other case it answers nothing, so an answer is always a catalog
    name. *)
Theorem get_latest_revision_name_member
    (base_name : string) (max_rev : Z) (redump_names : gset string) :
  (max_rev = 0 →
     (base_name ∈ redump_names →
        get_latest_revision_name base_name max_rev redump_names = Some base_name) ∧
     (base_name ∉ redump_names →
        get_latest_revision_name base_name max_rev redump_names = None)) ∧
  (0 < max_rev →
     (base_name +:+ " (Rev " +:+ Py.format_int max_rev +:+ ")" ∈ redump_names →
        get_latest_revision_name base_name max_rev redump_names
        = Some (base_name +:+ " (Rev " +:+ Py.format_int max_rev +:+ ")")) ∧
     (base_name +:+ " (Rev " +:+ Py.format_int max_rev +:+ ")" ∉ redump_names →
        get_latest_revision_name base_name max_rev redump_names = None)) ∧
  (∀ latest, get_latest_revision_name base_name max_rev redump_names = Some latest →
     latest ∈ redump_names).
Proof.
  unfold get_latest_revision_name. split_and!.
  - intros ->. rewrite decide_True by done. split; intros H.
    + by rewrite decide_True.
    + by rewrite decide_False.
  - intros Hpos. rewrite decide_False by lia. split; intros H.
    + by rewrite decide_True.
    + by rewrite decide_False.
  - intros latest. repeat case_decide; intros [= <-] || intros [=]; done.
Qed.

Lemma get_latest_revision_name_member_witness :
  get_latest_revision_name "Game A" 2 {[ "Game A"; "Game A (Rev 2)" ]}
    = Some "Game A (Rev 2)"
  ∧ get_latest_revision_name "Base" 5 {[ "Base (Rev 5) (Alt)" ]} = None.
Proof.
  split.
  - apply (get_latest_revision_name_member "Game A" 2
             {[ "Game A"; "Game A (Rev 2)" ]}).
    + lia.
    + vm_compute. set_solver.
  - apply (get_latest_revision_name_member "Base" 5 {[ "Base (Rev 5) (Alt)" ]}).
    + lia.
    + vm_compute. set_solver.
Defined.

(** ** Reconciliation of the two name sets *)

(** What a run that gets to its report has computed: the three sorted
    lists hold the elements of the two differences and of the
    intersection. *)
Lemma main_reported (html_unescape : string → string) (dat : EtParse)
    (txt_file : option (option string)) (fs : FileSystem) (r : Report) :
  main html_unescape (Some dat) txt_file fs = Reported r →
  ∃ dat_names,
    parse_dat_file html_unescape dat = Return dat_names ∧
    dat_names ≠ ∅ ∧ collect_collection_filenames fs ≠ ∅ ∧
    in_dat_not_collection r = sorted (dat_names ∖ collect_collection_filenames fs) ∧
    in_collection_not_dat r = sorted (collect_collection_filenames fs ∖ dat_names) ∧
    in_both r = sorted (collect_collection_filenames fs ∩ dat_names).
Proof.
  unfold main. destruct (parse_dat_file html_unescape dat) as [dat_names|e]; [|done].
  repeat case_decide; try done.
  destruct (print_relative_paths (sorted_paths _)); [|done].
  destruct (parse_dat_file_for_revisions html_unescape dat); [|done].
  destruct (find_revision_updates _ _ _) as [|[[[c ?] ?] ?] ?].
  - intros [= <-]. by exists dat_names.
  - destruct (print_relative_paths (take 3 _)); [|done].
    intros [= <-]. by exists dat_names.
Qed.

(** C7: for every pair of name sets, the three lists that [main] computes
    (catalog only, inventory only, both) hold the elements of the two
    differences and of the intersection, each name once, are pairwise
    disjoint and together hold exactly the names of the two sets; a run
    that gets to its report has these three lists. *)
Theorem reconciliation_partition (dat_names collection_names : gset string) :
  (∀ x, x ∈ sorted (dat_names ∖ collection_names)
        ↔ x ∈ dat_names ∧ x ∉ collection_names) ∧
  (∀ x, x ∈ sorted (collection_names ∖ dat_names)
        ↔ x ∈ collection_names ∧ x ∉ dat_names) ∧
  (∀ x, x ∈ sorted (collection_names ∩ dat_names)
        ↔ x ∈ collection_names ∧ x ∈ dat_names) ∧
  (∀ x, ¬ (x ∈ sorted (dat_names ∖ collection_names)
           ∧ x ∈ sorted (collection_names ∖ dat_names))) ∧
  (∀ x, ¬ (x ∈ sorted (dat_names ∖ collection_names)
           ∧ x ∈ sorted (collection_names ∩ dat_names))) ∧
  (∀ x, ¬ (x ∈ sorted (collection_names ∖ dat_names)
           ∧ x ∈ sorted (collection_names ∩ dat_names))) ∧
  (∀ x, x ∈ sorted (dat_names ∖ collection_names)
        ∨ x ∈ sorted (collection_names ∩ dat_names)
        ∨ x ∈ sorted (collection_names ∖ dat_names)
        ↔ x ∈ dat_names ∪ collection_names) ∧
  (NoDup (sorted (dat_names ∖ collection_names))
   ∧ NoDup (sorted (collection_names ∖ dat_names))
   ∧ NoDup (sorted (collection_names ∩ dat_names))) ∧
  (∀ html_unescape dat txt_file fs r,
     parse_dat_file html_unescape dat = Return dat_names →
     collect_collection_filenames fs = collection_names →
     main html_unescape (Some dat) txt_file fs = Reported r →
     in_dat_not_collection r = sorted (dat_names ∖ collection_names) ∧
     in_collection_not_dat r = sorted (collection_names ∖ dat_names) ∧
     in_both r = sorted (collection_names ∩ dat_names)).
Proof.
  split_and!;
    try (intros x;
         rewrite ?elem_of_sorted, ?elem_of_difference, ?elem_of_intersection;
         tauto).
  - intros x.
    rewrite !elem_of_sorted, !elem_of_difference, elem_of_intersection, elem_of_union.
    destruct (decide (x ∈ dat_names)), (decide (x ∈ collection_names)); tauto.
  - apply NoDup_sorted.
  - apply NoDup_sorted.
  - apply NoDup_sorted.
  - intros html_unescape dat txt_file fs r Hdat <- Hrun.
    apply main_reported in Hrun as (dat_names' & Hdat' & _ & _ & H1 & H2 & H3).
    rewrite Hdat in Hdat'. by injection Hdat' as <-.
Qed.

Lemma reconciliation_partition_witness :
  match main id (Some sample_catalog) None tidy_fs with
  | Reported r =>
      in_dat_not_collection r
        = sorted ({[ "Game A"; "Game Z" ]} ∖ collect_collection_filenames tidy_fs)
      ∧ in_collection_not_dat r
        = sorted (collect_collection_filenames tidy_fs ∖ {[ "Game A"; "Game Z" ]})
      ∧ in_both r
        = sorted (collect_collection_filenames tidy_fs ∩ {[ "Game A"; "Game Z" ]})
  | _ => False
  end.
Proof.
  destruct (main id (Some sample_catalog) None tidy_fs) as [| | |exn|r] eqn:Hrun;
    try (by vm_compute in Hrun).
  apply (proj2 (proj2 (proj2 (proj2 (proj2 (proj2 (proj2 (proj2
           (reconciliation_partition {[ "Game A"; "Game Z" ]}
              (collect_collection_filenames tidy_fs)))))))))
           id sample_catalog None tidy_fs r).
  - vm_compute. reflexivity.
  - reflexivity.
  - exact Hrun.
Defined.

(** ** A catalog that is not well-formed *)

(** C2, as the code has it: when the catalog is not well-formed,
    [parse_dat_file] handles the [ParseError] itself and returns the empty
    set of names to its caller; [main] then stops at its check for an empty
    set of names, before any comparison is made. *)
Theorem parse_error_empty_set (html_unescape : string → string) (msg : string)
    (txt_file : option (option string)) (fs : FileSystem) :
  parse_dat_file html_unescape (ParseError msg) = Return ∅ ∧
  main html_unescape (Some (ParseError msg)) txt_file fs = NoGameNames.
Proof. split; [done|]. unfold main. simpl. by rewrite decide_True. Qed.

(** C2 as stated fails: on a document that is not well-formed the parse
    operation does not raise, it returns the empty set. *)
Lemma parse_error_is_not_raised :
  parse_dat_file id (ParseError "syntax error: line 1, column 0") = Return ∅ ∧
  ¬ (∀ (html_unescape : string → string) (msg : string),
       ∃ exn, parse_dat_file html_unescape (ParseError msg) = Raise exn).
Proof.
  split; [done|]. intros H. destruct (H id "syntax error") as [exn Hexn].
  discriminate.
Qed.

(** ** Prefixes and substrings *)

Lemma after_prefix_Some (p s r : list ascii) :
  Py.after_prefix p s = Some r ↔ s = p ++ r.
Proof.
  revert s. induction p as [|a p IH]; intros s; simpl.
  - split; [by intros [= ->] | by intros ->].
  - destruct s as [|b s]; [done|].
    destruct (Ascii.eqb_spec a b) as [->|Hne].
    + rewrite IH. split; [by intros -> | by intros [= ->]].
    + split; [done | intros [= -> _]; done].
Qed.

Lemma startswith_true (p s : list ascii) :
  Py.startswith p s = true ↔ ∃ r, s = p ++ r.
Proof.
  unfold Py.startswith. destruct (Py.after_prefix p s) as [r|] eqn:H.
  - apply after_prefix_Some in H. split; [by exists r | done].
  - split; [done|]. intros [r Hr]. apply after_prefix_Some in Hr. congruence.
Qed.

Lemma contains_true (p s : list ascii) :
  Py.contains p s = true ↔ ∃ a b, s = a ++ p ++ b.
Proof.
  induction s as [|c s IH]; simpl.
  - rewrite orb_false_r, startswith_true. split.
    + intros [r Hr]. by exists [], r.
    + intros (a & b & Hab). destruct a; [by exists b|done].
  - rewrite orb_true_iff, startswith_true, IH. split.
    + intros [[r Hr]|(a & b & ->)]; [by exists [], r | by exists (c :: a), b].
    + intros (a & b & Hab). destruct a as [|c' a]; simpl in Hab.
      * left. by exists b.
      * injection Hab as <- ->. right. by exists a, b.
Qed.

Lemma str_contains_true (p s : string) :
  str_contains p s = true ↔ ∃ a b, s = a +:+ p +:+ b.
Proof.
  unfold str_contains. rewrite contains_true. split.
  - intros (a & b & H). exists (text a), (text b).
    apply chars_inj. by rewrite !chars_app, !chars_text.
  - intros (a & b & ->). exists (chars a), (chars b). by rewrite !chars_app.
Qed.

(** ** The inventory scan *)

Lemma elem_of_add_stems (acc : gset string) (files : list Path) (n : string) :
  n ∈ foldl add_stem acc files ↔
  n ∈ acc ∨ ∃ p, p ∈ files ∧ stem (name p) = n ∧ str_contains " alt" n = false.
Proof.
  revert acc. induction files as [|f files IH]; intros acc; simpl.
  - split; [by left|]. intros [H|(p & Hp & _)]; [done|]. by apply elem_of_nil in Hp.
  - rewrite IH. unfold add_stem.
    destruct (str_contains " alt" (stem (name f))) eqn:Halt.
    + split.
      * intros [H|(p & Hp & H)]; [by left|]. right. exists p. by rewrite elem_of_cons; auto.
      * intros [H|(p & Hp & Hn & H)]; [by left|].
        apply elem_of_cons in Hp as [->|Hp]; [congruence|]. right. by exists p.
    + rewrite elem_of_union, elem_of_singleton. split.
      * intros [[->|H]|(p & Hp & H)]; [|by left|].
        -- right. exists f. by rewrite elem_of_cons; auto.
        -- right. exists p. by rewrite elem_of_cons; auto.
      * intros [H|(p & Hp & Hn & H)]; [by left; right|].
        apply elem_of_cons in Hp as [->|Hp]; [by left; left|]. right. by exists p.
Qed.

Lemma glob_png_missing (fs : FileSystem) (directory : string) :
  dir_exists fs directory = false → glob_png fs directory = [].
Proof.
  unfold dir_exists, glob_png. destruct (fs !! directory) eqn:H; [|done].
  intros Hd. apply bool_decide_eq_false in Hd. by destruct Hd.
Qed.

Lemma elem_of_add_directories (fs : FileSystem) (acc : gset string)
    (dirs : list string) (n : string) :
  n ∈ foldl (add_directory fs) acc dirs ↔
  n ∈ acc ∨ ∃ d p, d ∈ dirs ∧ p ∈ glob_png fs d ∧ stem (name p) = n
                   ∧ str_contains " alt" n = false.
Proof.
  revert acc. induction dirs as [|d dirs IH]; intros acc; simpl.
  - split; [by left|]. intros [H|(d & p & Hd & _)]; [done|]. by apply elem_of_nil in Hd.
  - rewrite IH. unfold add_directory.
    assert (n ∈ (if negb (dir_exists fs d) then acc
                 else foldl add_stem acc (glob_png fs d))
            ↔ n ∈ acc ∨ ∃ p, p ∈ glob_png fs d ∧ stem (name p) = n
                             ∧ str_contains " alt" n = false) as ->.
    { destruct (dir_exists fs d) eqn:Hd; simpl; [apply elem_of_add_stems|].
      rewrite glob_png_missing by done. split; [by left|].
      intros [H|(p & Hp & _)]; [done|]. by apply elem_of_nil in Hp. }
    split.
    + intros [[H|(p & Hp & H)]|(d' & p & Hd' & H)]; [by left| |].
      * right. exists d, p. by rewrite elem_of_cons; auto.
      * right. exists d', p. by rewrite elem_of_cons; auto.
    + intros [H|(d' & p & Hd' & Hp & H)]; [by left; left|].
      apply elem_of_cons in Hd' as [->|Hd']; [left; right; by exists p|].
      right. by exists d', p.
Qed.

(** The inventory holds exactly the stems, without " alt", of the files
    that the scan sees in one of the eleven directories. *)
Lemma elem_of_collect_collection_filenames (fs : FileSystem) (n : string) :
  n ∈ collect_collection_filenames fs ↔
  ∃ category dirs d p,
    (category, dirs) ∈ COLLECTION_DIRS ∧ d ∈ dirs ∧ p ∈ glob_png fs d
    ∧ stem (name p) = n ∧ str_contains " alt" n = false.
Proof.
  unfold collect_collection_filenames.
  generalize COLLECTION_DIRS. intros table.
  assert (∀ acc,
    n ∈ foldl (λ collection_names '(category, dirs),
                 foldl (add_directory fs) collection_names dirs) acc table
    ↔ n ∈ acc ∨ ∃ category dirs d p,
        (category, dirs) ∈ table ∧ d ∈ dirs ∧ p ∈ glob_png fs d
        ∧ stem (name p) = n ∧ str_contains " alt" n = false) as Hgen.
  { induction table as [|[category dirs] table IH]; intros acc; simpl.
    - split; [by left|]. intros [H|(c & ds & d & p & Hc & _)]; [done|].
      by apply elem_of_nil in Hc.
    - rewrite IH, elem_of_add_directories. split.
      + intros [[H|(d & p & Hd & H)]|(c & ds & d & p & Hc & H)]; [by left| |].
        * right. exists category, dirs, d, p. by rewrite elem_of_cons; auto.
        * right. exists c, ds, d, p. by rewrite elem_of_cons; auto.
      + intros [H|(c & ds & d & p & Hc & Hd & H)]; [by left; left|].
        apply elem_of_cons in Hc as [[= -> ->]|Hc]; [left; right; by exists d, p|].
        right. by exists c, ds, d, p. }
  rewrite Hgen. split; [|by right]. intros [H|H]; [|done].
  by apply not_elem_of_empty in H.
Qed.

(** C8: whatever the asset directories hold, no name of the inventory
    contains the substring " alt". *)
Theorem inventory_excludes_alt (fs : FileSystem) (n : string) :
  n ∈ collect_collection_filenames fs →
  str_contains " alt" n = false ∧ ¬ ∃ a b, n = a +:+ " alt" +:+ b.
Proof.
  intros (_ & _ & _ & _ & _ & _ & _ & _ & Halt)%elem_of_collect_collection_filenames.
  split; [done|]. intros H%str_contains_true. congruence.
Qed.

Lemma inventory_excludes_alt_witness :
  "Game A" ∈ collect_collection_filenames sample_fs ∧
  str_contains " alt" "Game A" = false ∧ ¬ ∃ a b, "Game A" = a +:+ " alt" +:+ b.
Proof.
  assert ("Game A" ∈ collect_collection_filenames sample_fs) as Hin.
  { apply (bool_decide_unpack _). vm_compute. exact I. }
  split; [exact Hin|]. exact (inventory_excludes_alt sample_fs "Game A" Hin).
Defined.

(** ** The icon sync check *)

Lemma elem_of_mismatched_in (fs : FileSystem) (names : gset string)
    (acc : list Path) (psp_dir : string) (p : Path) :
  p ∈ mismatched_in fs names acc psp_dir ↔
  p ∈ acc ∨ (p ∈ glob_png fs psp_dir ∧ stem (name p) ∉ names).
Proof.
  unfold mismatched_in. destruct (dir_exists fs psp_dir) eqn:Hd; simpl.
  - generalize (glob_png fs psp_dir). intros files. revert acc.
    induction files as [|f files IH]; intros acc; simpl.
    + split; [by left|]. intros [H|[H _]]; [done|]. by apply elem_of_nil in H.
    + rewrite IH. case_decide as Hf.
      * rewrite elem_of_app, list_elem_of_singleton, elem_of_cons. split.
        -- intros [[H| ->]|[H1 H2]]; auto.
        -- intros [H|[[->|H1] H2]]; auto.
      * rewrite elem_of_cons. split.
        -- intros [H|[H1 H2]]; auto.
        -- intros [H|[[->|H1] H2]]; auto. done.
  - rewrite glob_png_missing by done. split; [by left|].
    intros [H|[H _]]; [done|]. by apply elem_of_nil in H.
Qed.

Lemma elem_of_check_psp_icon0_sync (fs : FileSystem) (names : gset string) (p : Path) :
  p ∈ check_psp_icon0_sync fs names ↔
  (∃ d, d ∈ PSP_DIRS ∧ p ∈ glob_png fs d) ∧ stem (name p) ∉ names.
Proof.
  unfold check_psp_icon0_sync, PSP_DIRS. simpl.
  rewrite !elem_of_mismatched_in. split.
  - intros [[H|[H1 H2]]|[H1 H2]]; [by apply elem_of_nil in H| |].
    + split; [|done]. eexists. split; [|exact H1]. apply elem_of_cons. by left.
    + split; [|done]. eexists. split; [|exact H1].
      apply elem_of_cons. right. apply elem_of_cons. by left.
  - intros [(d & Hd & Hp) Hn].
    apply elem_of_cons in Hd as [->|Hd]; [left; right; done|].
    apply elem_of_cons in Hd as [->|Hd]; [right; done|].
    by apply elem_of_nil in Hd.
Qed.

(** C3, as the code has it: the sync check reports exactly the icon files
    whose stem is not in the set of names it is given; the inventory scan
    reads the icon directories too, so with the scanned inventory the
    reported files are exactly the icon files whose stem contains " alt". *)
Theorem psp_icon0_sync_reports (fs : FileSystem) :
  (∀ (names : gset string) (p : Path),
     p ∈ check_psp_icon0_sync fs names ↔
     (∃ d, d ∈ PSP_DIRS ∧ p ∈ glob_png fs d) ∧ stem (name p) ∉ names) ∧
  (∀ p : Path,
     p ∈ check_psp_icon0_sync fs (collect_collection_filenames fs) ↔
     (∃ d, d ∈ PSP_DIRS ∧ p ∈ glob_png fs d)
     ∧ str_contains " alt" (stem (name p)) = true).
Proof.
  split; [apply elem_of_check_psp_icon0_sync|].
  intros p. rewrite elem_of_check_psp_icon0_sync.
  split; intros [(d & Hd & Hp) H]; (split; [by exists d|]).
  - destruct (str_contains " alt" (stem (name p))) eqn:Halt; [done|].
    exfalso. apply H. apply elem_of_collect_collection_filenames.
    exists "psp-icon0", PSP_DIRS, d, p. split_and!; try done.
    unfold COLLECTION_DIRS, PSP_DIRS. do 3 (apply elem_of_cons; right).
    apply elem_of_cons. by left.
  - intros (_ & _ & _ & _ & _ & _ & _ & _ & Hin)%elem_of_collect_collection_filenames.
    congruence.
Qed.

(** C3 as stated fails: an icon whose stem no 2D-box, 3D-box or disc folder
    holds is still part of the inventory, and it is not reported. *)
Lemma icon_only_stem_not_reported :
  {| parent := "composites/psp-icon0/psp-icon0-generated"; name := "Game X.png" |}
    ∈ glob_png icon_only_fs "composites/psp-icon0/psp-icon0-generated"
  ∧ (∀ category dirs d,
       (category, dirs) ∈ COLLECTION_DIRS → category ≠ "psp-icon0" → d ∈ dirs →
       glob_png icon_only_fs d = [])
  ∧ collect_collection_filenames icon_only_fs = {[ "Game X" ]}
  ∧ check_psp_icon0_sync icon_only_fs (collect_collection_filenames icon_only_fs) = [].
Proof.
  split_and!.
  - vm_compute. apply elem_of_cons. by left.
  - intros category dirs d Hc Hne Hd. unfold COLLECTION_DIRS in Hc.
    repeat (apply elem_of_cons in Hc as [[= -> ->]|Hc];
            [repeat (apply elem_of_cons in Hd as [->|Hd]; [by vm_compute|]);
             try (by apply elem_of_nil in Hd); done|]).
    by apply elem_of_nil in Hc.
  - apply (bool_decide_unpack _). by vm_compute.
  - by vm_compute.
Qed.

(** ** The completeness check *)

(** The two lists of one game, category by category. *)
Lemma classify_categories_spec (fs : FileSystem) (game : string)
    (cats : list string) (acc : list string * list string) (c : string) :
  (c ∈ (foldl (classify_category fs game) acc cats).1 ↔
     c ∈ acc.1 ∨ (c ∈ cats ∧ (check_image_exists fs game c).1 = false)) ∧
  (c ∈ (foldl (classify_category fs game) acc cats).2 ↔
     c ∈ acc.2 ∨ (c ∈ cats ∧ check_image_exists fs game c = (true, Some "missing"))).
Proof.
  revert acc. induction cats as [|k cats IH]; intros [m mo]; simpl.
  - split; (split; [by left|]); (intros [H|[H _]]; [done|]); by apply elem_of_nil in H.
  - destruct (IH (classify_category fs game (m, mo) k)) as [IH1 IH2].
    rewrite IH1, IH2. clear IH IH1 IH2. unfold classify_category.
    destruct (check_image_exists fs game k) as [found location] eqn:Hk.
    destruct found; simpl; [case_decide as Hloc; simpl|];
      rewrite ?elem_of_app, ?list_elem_of_singleton, !elem_of_cons;
      (split; (split; [intros [H|[H1 H2]]|intros [H|[[->|H1] H2]]]));
      rewrite ?Hk in *; simplify_eq/=; try tauto;
      destruct H as [H| ->]; rewrite ?Hk; tauto.
Qed.

Lemma classify_game_disjoint (fs : FileSystem) (game c : string) :
  ¬ (c ∈ (classify_game fs game).1 ∧ c ∈ (classify_game fs game).2).
Proof.
  unfold classify_game.
  destruct (classify_categories_spec fs game CATEGORIES ([], []) c) as [H1 H2].
  rewrite H1, H2. simpl. intros [[H|[_ Ha]] [H'|[_ Hb]]];
    try (by apply elem_of_nil in H); try (by apply elem_of_nil in H').
  rewrite Hb in Ha. done.
Qed.

(** What the two dictionaries hold under one key after the games of [games]
    have been visited. *)
Lemma record_games_lookup (fs : FileSystem) (games : list string)
    (acc : gmap string (list string) * gmap string (list string)) (game : string) :
  (foldl (record_game fs) acc games).1 !! game =
    (if decide (game ∈ games ∧ (classify_game fs game).1 ≠ [])
     then Some (classify_game fs game).1 else acc.1 !! game) ∧
  (foldl (record_game fs) acc games).2 !! game =
    (if decide (game ∈ games ∧ (classify_game fs game).2 ≠ [])
     then Some (classify_game fs game).2 else acc.2 !! game).
Proof.
  revert acc. induction games as [|g games IH]; intros [m mo]; cbn [foldl].
  - split; rewrite decide_False; try done; by intros [H%elem_of_nil _].
  - destruct (IH (record_game fs (m, mo) g)) as [IH1 IH2].
    rewrite IH1, IH2. clear IH IH1 IH2. unfold record_game.
    destruct (classify_game fs g) as [mc moc] eqn:Hg. simpl.
    split.
    + destruct (decide (game = g)) as [->|Hne].
      * rewrite Hg. simpl. destruct mc as [|k mc].
        -- rewrite !decide_False; [done|by intros [_ H]..].
        -- destruct (decide (g ∈ games ∧ k :: mc ≠ [])).
           ++ rewrite decide_True; [done|]. split; [by left|done].
           ++ rewrite decide_True by (split; [by left|done]).
              by rewrite lookup_insert_eq.
      * assert ((match mc with [] => m | _ :: _ => <[g:=mc]> m end) !! game
                = m !! game) as ->.
        { destruct mc; [done|]. by rewrite lookup_insert_ne. }
        apply decide_ext. rewrite elem_of_cons. tauto.
    + destruct (decide (game = g)) as [->|Hne].
      * rewrite Hg. simpl. destruct moc as [|k moc].
        -- rewrite !decide_False; [done|by intros [_ H]..].
        -- destruct (decide (g ∈ games ∧ k :: moc ≠ [])).
           ++ rewrite decide_True; [done|]. split; [by left|done].
           ++ rewrite decide_True by (split; [by left|done]).
              by rewrite lookup_insert_eq.
      * assert ((match moc with [] => mo | _ :: _ => <[g:=moc]> mo end) !! game
                = mo !! game) as ->.
        { destruct moc; [done|]. by rewrite lookup_insert_ne. }
        apply decide_ext. rewrite elem_of_cons. tauto.
Qed.

(** C10: for every game the list of missing categories and the list of
    placeholder-only categories share no category; for a game of the
    inventory and each of the four categories, the category is in the first
    list exactly when no folder holds the image, in the second exactly when
    the first folder that holds it is the placeholder folder, and in neither
    list in every other case. *)
Theorem completeness_lists_disjoint (fs : FileSystem)
    (collection_names : gset string) (game : string) :
  (∀ missing_cats missing_only_cats c,
     (check_collection_completeness fs collection_names).1 !! game = Some missing_cats →
     (check_collection_completeness fs collection_names).2 !! game = Some missing_only_cats →
     ¬ (c ∈ missing_cats ∧ c ∈ missing_only_cats)) ∧
  (game ∈ collection_names →
   ∀ c, c ∈ CATEGORIES →
     (c ∈ default [] ((check_collection_completeness fs collection_names).1 !! game)
        ↔ (check_image_exists fs game c).1 = false) ∧
     (c ∈ default [] ((check_collection_completeness fs collection_names).2 !! game)
        ↔ check_image_exists fs game c = (true, Some "missing"))).
Proof.
  unfold check_collection_completeness.
  destruct (record_games_lookup fs (elements collection_names) (∅, ∅) game)
    as [H1 H2].
  rewrite H1, H2. clear H1 H2. simpl. rewrite !lookup_empty. split.
  - intros mc moc c. repeat case_decide; try done.
    intros [= <-] [= <-]. apply classify_game_disjoint.
  - intros Hin c Hc. apply elem_of_elements in Hin.
    destruct (classify_categories_spec fs game CATEGORIES ([], []) c) as [Hm Hmo].
    fold (classify_game fs game) in Hm, Hmo. simpl in Hm, Hmo.
    split.
    + case_decide as Hd; simpl.
      * rewrite Hm. split; [intros [H%elem_of_nil|[_ H]]; done | by right].
      * split; [by intros H%elem_of_nil|]. intros Hf. exfalso. apply Hd.
        split; [done|]. intros Hnil.
        assert (c ∈ (classify_game fs game).1) as Hc' by (apply Hm; by right).
        rewrite Hnil in Hc'. by apply elem_of_nil in Hc'.
    + case_decide as Hd; simpl.
      * rewrite Hmo. split; [intros [H%elem_of_nil|[_ H]]; done | by right].
      * split; [by intros H%elem_of_nil|]. intros Hf. exfalso. apply Hd.
        split; [done|]. intros Hnil.
        assert (c ∈ (classify_game fs game).2) as Hc' by (apply Hmo; by right).
        rewrite Hnil in Hc'. by apply elem_of_nil in Hc'.
Qed.

Lemma completeness_lists_disjoint_witness :
  "Game A" ∈ collect_collection_filenames sample_fs ∧ "disc" ∈ CATEGORIES ∧
  ("disc" ∈ default []
     ((check_collection_completeness sample_fs
         (collect_collection_filenames sample_fs)).2 !! "Game A")
   ↔ check_image_exists sample_fs "Game A" "disc" = (true, Some "missing")).
Proof.
  assert ("Game A" ∈ collect_collection_filenames sample_fs) as Hin.
  { apply (bool_decide_unpack _). vm_compute. exact I. }
  assert ("disc" ∈ CATEGORIES) as Hc.
  { apply (bool_decide_unpack _). vm_compute. exact I. }
  split; [exact Hin|]. split; [exact Hc|].
  exact (proj2 (proj2 (completeness_lists_disjoint sample_fs
                         (collect_collection_filenames sample_fs) "Game A")
                  Hin "disc" Hc)).
Defined.

(** ** The removal report *)

Lemma lstrip_chars (line s : string) :
  str_lstrip line = s → Py.lstrip (chars line) = chars s.
Proof. unfold str_lstrip. intros <-. by rewrite chars_text. Qed.

(** A line that, once stripped, starts with a plus or minus sign is neither
    a section header nor one of the skipped lines. *)
Lemma marked_line_is_processed (line : string) (c : ascii) (rest : string) :
  str_lstrip line = String c (String " " rest) →
  c = "+"%char ∨ c = "-"%char →
  section_of_header line = None ∧
  bool_decide (line = EmptyString)
    || str_startswith "=" line || str_startswith "*" line
    || str_startswith "SECTIONS" line || str_startswith "This file" line = false.
Proof.
  intros H%lstrip_chars Hc. split.
  - unfold section_of_header.
    repeat (case_decide;
            [subst line; vm_compute in H; destruct Hc; subst c; discriminate|]).
    done.
  - assert (∀ p, (p = "=" ∨ p = "*" ∨ p = "SECTIONS" ∨ p = "This file") →
                 str_startswith p line = false) as Hp.
    { intros p Hp. destruct (str_startswith p line) eqn:E; [|done].
      apply startswith_true in E as [r Hr]. rewrite Hr in H.
      destruct Hp as [->|[->|[->| ->]]]; vm_compute in H;
        destruct Hc; subst c; discriminate. }
    rewrite !Hp by auto. rewrite bool_decide_eq_false_2; [done|].
    intros ->. vm_compute in H. discriminate.
Qed.

(** The step for a removed title. *)
Lemma filter_line_minus (st : FilterState) (raw rest : string) :
  str_lstrip (str_rstrip raw) = "- " +:+ rest →
  filter_line st raw =
    {| removed_games := <[str_strip rest := removal_reason st]> (removed_games st);
       current_section := current_section st;
       current_parent := current_parent st |}.
Proof.
  intros H. unfold filter_line.
  destruct (marked_line_is_processed (str_rstrip raw) "-" rest H) as [-> ->];
    [by right|].
  rewrite H. simpl. done.
Qed.

(** The step for a kept title. *)
Lemma filter_line_plus (st : FilterState) (raw rest : string) :
  str_lstrip (str_rstrip raw) = "+ " +:+ rest →
  filter_line st raw =
    if decide (current_section st = Some "Clone")
    then {| removed_games := removed_games st;
            current_section := current_section st;
            current_parent := Some (str_strip rest) |}
    else st.
Proof.
  intros H. unfold filter_line.
  destruct (marked_line_is_processed (str_rstrip raw) "+" rest H) as [-> ->];
    [by left|].
  rewrite H. simpl. done.
Qed.

(** The nine headers, and nothing else, open a section. *)
Lemma section_of_header_table (line section : string) :
  section_of_header line = Some section ↔ (line, section) ∈ SECTION_HEADERS.
Proof.
  unfold section_of_header, SECTION_HEADERS. split.
  - repeat (case_decide;
            [intros [= <-]; subst line; apply (bool_decide_unpack _);
             vm_compute; exact I|]).
    done.
  - rewrite !elem_of_cons, elem_of_nil.
    intros [H|[H|[H|[H|[H|[H|[H|[H|[H|[]]]]]]]]]]; injection H as -> ->;
      reflexivity.
Qed.

(** A skipped line is no header, and the step passes over it. *)
Lemma filter_line_skipped (st : FilterState) (raw : string) :
  skipped_line (str_rstrip raw) → filter_line st raw = st.
Proof.
  intros Hskip. unfold filter_line.
  assert (section_of_header (str_rstrip raw) = None) as ->.
  { unfold section_of_header.
    repeat (case_decide as Heq;
            [exfalso; rewrite Heq in Hskip;
             destruct Hskip as [H|[[r H]|[[r H]|[[r H]|[r H]]]]];
             discriminate
            |clear Heq]).
    done. }
  destruct Hskip as [->|[[r ->]|[[r ->]|[[r ->]|[r ->]]]]].
  - done.
  - unfold str_startswith.
    rewrite (proj2 (startswith_true (chars "=") _)) by (exists (chars r); apply chars_app).
    by rewrite orb_true_r.
  - unfold str_startswith.
    rewrite (proj2 (startswith_true (chars "*") _)) by (exists (chars r); apply chars_app).
    by rewrite !orb_true_r.
  - unfold str_startswith.
    rewrite (proj2 (startswith_true (chars "SECTIONS") _)) by (exists (chars r); apply chars_app).
    by rewrite !orb_true_r.
  - unfold str_startswith.
    rewrite (proj2 (startswith_true (chars "This file") _)) by (exists (chars r); apply chars_app).
    by rewrite !orb_true_r.
Qed.

(** A line that is no header and carries no mark leaves the state as it
    is. *)
Lemma filter_line_unmarked (st : FilterState) (raw : string) :
  (∀ section, (str_rstrip raw, section) ∉ SECTION_HEADERS) →
  (∀ rest, str_lstrip (str_rstrip raw) ≠ "+ " +:+ rest) →
  (∀ rest, str_lstrip (str_rstrip raw) ≠ "- " +:+ rest) →
  filter_line st raw = st.
Proof.
  intros Hheader Hplus Hminus. unfold filter_line.
  destruct (section_of_header (str_rstrip raw)) as [section|] eqn:Hs.
  { by apply section_of_header_table, Hheader in Hs. }
  destruct (bool_decide (str_rstrip raw = EmptyString)
            || str_startswith "=" (str_rstrip raw)
            || str_startswith "*" (str_rstrip raw)
            || str_startswith "SECTIONS" (str_rstrip raw)
            || str_startswith "This file" (str_rstrip raw)); [done|].
  destruct (Py.after_prefix (chars "+ ") (chars (str_lstrip (str_rstrip raw))))
    as [rest|] eqn:Hp.
  { apply after_prefix_Some in Hp. exfalso. apply (Hplus (text rest)).
    apply chars_inj. by rewrite chars_app, chars_text. }
  destruct (Py.after_prefix (chars "- ") (chars (str_lstrip (str_rstrip raw))))
    as [rest|] eqn:Hm; [|done].
  apply after_prefix_Some in Hm. exfalso. apply (Hminus (text rest)).
  apply chars_inj. by rewrite chars_app, chars_text.
Qed.

(** C9: the step of the removal-report parser on a line that starts, after
    stripping, with "- " stores the title under the reason of the current
    state: superseded by the parent when the section is Clone and a kept
    line has set a parent, the name of the section when a section is set,
    and "Removed" otherwise; a "+ " line sets the parent in the Clone
    section and does nothing in any other; a header line sets the section
    and clears the parent, and the nine headers open the nine sections of
    the table; blank lines, separator lines, the two lines of the preamble
    and every line without a mark leave section, parent and entries as they
    are; the parser runs this step over the lines, from the state without
    section, parent and entries; and the sample report gives the two
    expected entries. *)
Theorem parse_filter_report_state_machine :
  (∀ st raw rest,
     str_lstrip (str_rstrip raw) = "- " +:+ rest →
     filter_line st raw =
       {| removed_games := <[str_strip rest := removal_reason st]> (removed_games st);
          current_section := current_section st;
          current_parent := current_parent st |}) ∧
  (∀ st parent,
     current_section st = Some "Clone" → current_parent st = Some parent →
     parent ≠ EmptyString →
     removal_reason st = "Superior version: '" +:+ parent +:+ "'") ∧
  (∀ st section,
     current_section st = Some section → section ≠ EmptyString →
     section ≠ "Clone" ∨ current_parent st = None →
     removal_reason st = section) ∧
  (∀ st, current_section st = None → removal_reason st = "Removed") ∧
  (∀ st raw rest,
     str_lstrip (str_rstrip raw) = "+ " +:+ rest →
     current_section st = Some "Clone" →
     filter_line st raw =
       {| removed_games := removed_games st;
          current_section := Some "Clone";
          current_parent := Some (str_strip rest) |}) ∧
  (∀ st raw section,
     section_of_header (str_rstrip raw) = Some section →
     filter_line st raw =
       {| removed_games := removed_games st;
          current_section := Some section;
          current_parent := None |}) ∧
  parse_filter_report (Some sample_report) =
    {[ "Game A (Europe)" := "Superior version: 'Game A (USA)'";
       "Game B" := "Audio" ]} ∧
  (∀ line section,
     section_of_header line = Some section ↔ (line, section) ∈ SECTION_HEADERS) ∧
  (∀ st raw section,
     (str_rstrip raw, section) ∈ SECTION_HEADERS →
     filter_line st raw =
       {| removed_games := removed_games st;
          current_section := Some section;
          current_parent := None |}) ∧
  (∀ st raw, skipped_line (str_rstrip raw) → filter_line st raw = st) ∧
  (∀ st raw rest,
     str_lstrip (str_rstrip raw) = "+ " +:+ rest →
     current_section st ≠ Some "Clone" →
     filter_line st raw = st) ∧
  (∀ st raw,
     (∀ section, (str_rstrip raw, section) ∉ SECTION_HEADERS) →
     (∀ rest, str_lstrip (str_rstrip raw) ≠ "+ " +:+ rest) →
     (∀ rest, str_lstrip (str_rstrip raw) ≠ "- " +:+ rest) →
     filter_line st raw = st) ∧
  (∀ content,
     parse_filter_report (Some content) =
       removed_games (foldl filter_line
                        {| removed_games := ∅; current_section := None;
                           current_parent := None |}
                        (file_lines content))) ∧
  parse_filter_report None = ∅.
Proof.
  split_and!.
  - apply filter_line_minus.
  - intros st parent Hs Hp Hne. unfold removal_reason. rewrite Hs, Hp. simpl.
    by rewrite bool_decide_eq_false_2.
  - intros st section Hs Hne Hcase. unfold removal_reason. rewrite Hs. simpl.
    rewrite (bool_decide_eq_false_2 (section = EmptyString)) by done. simpl.
    destruct Hcase as [Hc| ->].
    + rewrite bool_decide_eq_false_2; [done|]. by intros [= ->].
    + simpl. by rewrite andb_false_r.
  - intros st Hs. unfold removal_reason. by rewrite Hs.
  - intros st raw rest H Hs. rewrite (filter_line_plus st raw rest H).
    rewrite decide_True by done. by rewrite Hs.
  - intros st raw section Hs. unfold filter_line. by rewrite Hs.
  - apply (bool_decide_unpack _). by vm_compute.
  - apply section_of_header_table.
  - intros st raw section Hs%section_of_header_table.
    unfold filter_line. by rewrite Hs.
  - apply filter_line_skipped.
  - intros st raw rest H Hs. rewrite (filter_line_plus st raw rest H).
    by rewrite decide_False.
  - apply filter_line_unmarked.
  - reflexivity.
  - reflexivity.
Qed.

Lemma parse_filter_report_state_machine_witness :
  filter_line initial_filter_state ("- Game B" +:+ String "010" EmptyString) =
    {| removed_games := {[ "Game B" := "Removed" ]};
       current_section := None;
       current_parent := None |}.
Proof.
  exact (proj1 parse_filter_report_state_machine initial_filter_state
           ("- Game B" +:+ String "010" EmptyString) "Game B" eq_refl).
Defined.

(** ** Digits *)

Lemma take_while_Forall (p : ascii → bool) (s : list ascii) :
  Forall (λ c, p c = true) (Py.take_while p s).
Proof.
  induction s as [|c s IH]; simpl; [constructor|].
  destruct (p c) eqn:Hc; constructor; done.
Qed.

Lemma take_drop_while (p : ascii → bool) (s : list ascii) :
  Py.take_while p s ++ Py.drop_while p s = s.
Proof.
  induction s as [|c s IH]; simpl; [done|].
  destruct (p c); simpl; [by rewrite IH | done].
Qed.

Lemma digit_value_nonneg (c : ascii) : Py.is_digit c = true → 0 ≤ Py.digit_value c.
Proof.
  unfold Py.is_digit, Py.digit_value. intros [H _]%andb_true_iff.
  apply N.leb_le in H. lia.
Qed.

Lemma fold_digits_nonneg (ds : list ascii) (acc : Z) :
  Forall (λ c, Py.is_digit c = true) ds → 0 ≤ acc →
  0 ≤ fold_left (λ acc c, 10 * acc + Py.digit_value c) ds acc.
Proof.
  intros Hds. revert acc.
  induction Hds as [|c ds Hc Hds IH]; intros acc Hacc; simpl; [done|].
  apply IH. apply digit_value_nonneg in Hc. lia.
Qed.

Lemma int_of_digits_nonneg (ds : list ascii) :
  Forall (λ c, Py.is_digit c = true) ds → 0 ≤ Py.int_of_digits ds.
Proof. intros Hds. by apply fold_digits_nonneg. Qed.

(** ** The marker pattern at the head of a text *)

Lemma take_while_app_stop (p : ascii → bool) (ds : list ascii) (c : ascii)
    (rest : list ascii) :
  Forall (λ c, p c = true) ds → p c = false →
  Py.take_while p (ds ++ c :: rest) = ds ∧ Py.drop_while p (ds ++ c :: rest) = c :: rest.
Proof.
  intros Hds Hc. induction Hds as [|d ds Hd Hds [IH1 IH2]]; simpl.
  - by rewrite Hc.
  - by rewrite Hd, IH1, IH2.
Qed.

Lemma ieq_R (c : ascii) : Py.ieq "R" c = true ↔ (c = "R" ∨ c = "r")%char.
Proof.
  destruct c as [[] [] [] [] [] [] [] []]; vm_compute;
    (split; [intros H; first [discriminate | by left | by right]
            | intros [H|H]; first [discriminate | done]]).
Qed.

Lemma ieq_e (c : ascii) : Py.ieq "e" c = true ↔ (c = "E" ∨ c = "e")%char.
Proof.
  destruct c as [[] [] [] [] [] [] [] []]; vm_compute;
    (split; [intros H; first [discriminate | by left | by right]
            | intros [H|H]; first [discriminate | done]]).
Qed.

Lemma ieq_v (c : ascii) : Py.ieq "v" c = true ↔ (c = "V" ∨ c = "v")%char.
Proof.
  destruct c as [[] [] [] [] [] [] [] []]; vm_compute;
    (split; [intros H; first [discriminate | by left | by right]
            | intros [H|H]; first [discriminate | done]]).
Qed.

(** The characters of a marker. *)
Lemma marker_chars (m ds : string) :
  revision_marker m ds ↔
  ∃ r e v, chars m = "("%char :: r :: e :: v :: " "%char :: chars ds ++ [")"%char]
           ∧ Py.ieq "R" r = true ∧ Py.ieq "e" e = true ∧ Py.ieq "v" v = true
           ∧ chars ds ≠ [] ∧ Forall (λ c, Py.is_digit c = true) (chars ds).
Proof.
  unfold revision_marker. split.
  - intros (r & e & v & -> & Hr & He & Hv & Hne & Hds). exists r, e, v.
    rewrite ieq_R, ieq_e, ieq_v. simpl. rewrite chars_app. split_and!; try done.
    intros H. apply Hne. apply chars_inj. by rewrite H.
  - intros (r & e & v & Hm & Hr & He & Hv & Hne & Hds). exists r, e, v.
    rewrite <- ieq_R, <- ieq_e, <- ieq_v. split_and!; try done.
    + apply chars_inj. rewrite Hm. simpl. by rewrite chars_app.
    + intros ->. by apply Hne.
Qed.

(** [marker_at] succeeds exactly on the texts that start with a marker. *)
Lemma marker_at_Some (s ds rest : list ascii) :
  Re.marker_at s = Some (ds, rest) ↔
  ∃ r e v, s = "("%char :: r :: e :: v :: " "%char :: ds ++ ")"%char :: rest
           ∧ Py.ieq "R" r = true ∧ Py.ieq "e" e = true ∧ Py.ieq "v" v = true
           ∧ ds ≠ [] ∧ Forall (λ c, Py.is_digit c = true) ds.
Proof.
  unfold Re.marker_at, Re.expect. split.
  - destruct s as [|c0 [|r [|e [|v [|sp s5]]]]]; simpl;
      repeat (case_match; simpl; try done).
    all: repeat match goal with
           | H : Ascii.eqb _ _ = true |- _ => apply Ascii.eqb_eq in H
           end; subst.
    all: intros [= <- <-].
    all: exists r, e, v; split_and!; try done.
    all: try (rewrite <- (take_drop_while Py.is_digit s5) at 1;
              by repeat match goal with H : _ = _ :: _ |- _ => rewrite H end).
    all: match goal with H : Py.take_while _ _ = _ |- _ => rewrite <- H end;
         apply take_while_Forall.
  - intros (r & e & v & -> & Hr & He & Hv & Hne & Hds). simpl.
    rewrite Hr. simpl. rewrite He. simpl. rewrite Hv. simpl.
    rewrite ?Ascii.eqb_refl. simpl.
    destruct (take_while_app_stop Py.is_digit ds ")" rest Hds eq_refl) as [-> ->].
    simpl. rewrite ?Ascii.eqb_refl. by destruct ds.
Qed.

Lemma marker_at_app_Some (x y ds rest : list ascii) :
  Re.marker_at x = Some (ds, rest) → Re.marker_at (x ++ y) = Some (ds, rest ++ y).
Proof.
  intros (r & e & v & -> & H)%marker_at_Some. apply marker_at_Some.
  exists r, e, v. split; [|done]. simpl. by rewrite <- app_assoc.
Qed.

Lemma drop_while_nil_Forall (p : ascii → bool) (s : list ascii) :
  Py.drop_while p s = [] → Forall (λ c, p c = true) s.
Proof.
  induction s as [|c s IH]; simpl; [constructor|].
  destruct (p c) eqn:Hc; [|done]. intros H. constructor; auto.
Qed.

Lemma drop_while_head (p : ascii → bool) (s r : list ascii) (c : ascii) :
  Py.drop_while p s = c :: r → p c = false.
Proof.
  induction s as [|d s IH]; simpl; [done|].
  destruct (p d) eqn:Hd; [done|]. by intros [= <- _].
Qed.

Lemma take_drop_while_app_all (p : ascii → bool) (a b : list ascii) :
  Forall (λ c, p c = true) a →
  Py.take_while p (a ++ b) = a ++ Py.take_while p b
  ∧ Py.drop_while p (a ++ b) = Py.drop_while p b.
Proof.
  intros Ha. induction Ha as [|c a Hc Ha [IH1 IH2]]; simpl; [done|].
  by rewrite Hc, IH1, IH2.
Qed.

Lemma take_drop_while_app_stop (p : ascii → bool) (a b r : list ascii) (c : ascii) :
  Py.drop_while p a = c :: r →
  Py.take_while p (a ++ b) = Py.take_while p a
  ∧ Py.drop_while p (a ++ b) = c :: r ++ b.
Proof.
  induction a as [|d a IH]; simpl; [done|].
  destruct (p d) eqn:Hd.
  - intros [-> ->]%IH. done.
  - by intros [= <- <-].
Qed.

Lemma space_not_marker_char (c : ascii) :
  Py.is_space c = true ∨ c = "("%char →
  Py.ieq "R" c = false ∧ Py.ieq "e" c = false ∧ Py.ieq "v" c = false
  ∧ Py.is_digit c = false ∧ Ascii.eqb ")" c = false.
Proof.
  destruct c as [[] [] [] [] [] [] [] []]; vm_compute;
    intros [H|H]; first [discriminate | done].
Qed.

Lemma gap_then_paren_head (y : list ascii) :
  gap_then_paren y →
  ∃ c y', y = c :: y' ∧ (Py.is_space c = true ∨ c = "("%char)
          ∧ (Py.is_space c = true → gap_then_paren y').
Proof.
  intros (ws & tail & -> & Hws). destruct Hws as [|w ws Hw Hws]; simpl.
  - exists "("%char, tail. split_and!; [done|by right|]. by vm_compute.
  - exists w, (ws ++ "("%char :: tail). split_and!; [done|by left|].
    intros _. by exists ws, tail.
Qed.

(** A marker cannot start in a text without markers and end beyond it,
    when what follows is white space and an opening parenthesis. *)
Lemma marker_at_straddle (x y : list ascii) :
  x ≠ [] → Re.marker_at x = None → gap_then_paren y →
  Re.marker_at (x ++ y) = None.
Proof.
  intros Hx Hnone Hy.
  destruct (gap_then_paren_head y Hy) as (c & y' & -> & Hc & Hy').
  destruct (space_not_marker_char c Hc) as (HR & He & Hv & Hd & Hp).
  unfold Re.marker_at, Re.expect in *.
  destruct x as [|c0 [|c1 [|c2 [|c3 [|c4 x5]]]]]; [done|..]; simpl in *.
  - destruct (Ascii.eqb "(" c0); simpl; [|done]. by rewrite HR.
  - destruct (Ascii.eqb "(" c0); simpl; [|done].
    destruct (Py.ieq "R" c1); simpl; [|done]. by rewrite He.
  - destruct (Ascii.eqb "(" c0); simpl; [|done].
    destruct (Py.ieq "R" c1); simpl; [|done].
    destruct (Py.ieq "e" c2); simpl; [|done]. by rewrite Hv.
  - destruct (Ascii.eqb "(" c0); simpl; [|done].
    destruct (Py.ieq "R" c1); simpl; [|done].
    destruct (Py.ieq "e" c2); simpl; [|done].
    destruct (Py.ieq "v" c3); simpl; [|done].
    destruct (Ascii.eqb_spec " " c) as [<-|Hsp]; simpl; [|done].
    destruct (gap_then_paren_head y' (Hy' eq_refl)) as (d & y'' & -> & Hd' & _).
    destruct (space_not_marker_char d Hd') as (_ & _ & _ & Hdd & _).
    simpl. by rewrite Hdd.
  - destruct (Ascii.eqb "(" c0); simpl in *; [|done].
    destruct (Py.ieq "R" c1); simpl in *; [|done].
    destruct (Py.ieq "e" c2); simpl in *; [|done].
    destruct (Py.ieq "v" c3); simpl in *; [|done].
    destruct (Ascii.eqb " " c4); simpl in *; [|done].
    destruct (Py.drop_while Py.is_digit x5) as [|nd r] eqn:Hdrop.
    + apply drop_while_nil_Forall in Hdrop.
      destruct (take_drop_while_app_all Py.is_digit x5 (c :: y') Hdrop) as [-> ->].
      simpl. rewrite Hd, Hp. simpl. by destruct (x5 ++ []).
    + destruct (take_drop_while_app_stop Py.is_digit x5 (c :: y') r nd Hdrop)
        as [-> ->].
      destruct (Py.take_while Py.is_digit x5); [done|]. simpl in *.
      by destruct (Ascii.eqb ")" nd).
Qed.

(** ** The leftmost match *)

Lemma search_cons_None (c : ascii) (s : list ascii) :
  Re.search (c :: s) = None → Re.marker_at (c :: s) = None ∧ Re.search s = None.
Proof.
  cbn [Re.search]. destruct (Re.marker_at (c :: s)) as [[ds rest]|]; [done|]. done.
Qed.

Lemma search_None_marker_at (s : list ascii) :
  Re.search s = None → Re.marker_at s = None.
Proof.
  destruct s as [|c s]; [done|]. by intros [H _]%search_cons_None.
Qed.

Lemma search_None_suffix (a b : list ascii) :
  Re.search (a ++ b) = None → Re.search b = None.
Proof.
  induction a as [|c a IH]; simpl app; [done|].
  intros [_ H]%search_cons_None. auto.
Qed.

Lemma search_None_prefix (a b : list ascii) :
  Re.search (a ++ b) = None → Re.search a = None.
Proof.
  induction a as [|c a IH]; [done|]. simpl app.
  intros [Hm Hs]%search_cons_None. cbn [Re.search].
  destruct (Re.marker_at (c :: a)) as [[ds rest]|] eqn:Ha.
  - apply (marker_at_app_Some _ b) in Ha. simpl in Ha. congruence.
  - auto.
Qed.

(** After a text without markers and some white space, the first marker is
    the one found. *)
Lemma search_first_marker (a ws y ds rest : list ascii) :
  Re.search a = None → Forall (λ c, Py.is_space c = true) ws →
  Re.marker_at y = Some (ds, rest) →
  Re.search (a ++ ws ++ y) = Some ds.
Proof.
  intros Ha Hws Hy.
  assert (gap_then_paren (ws ++ y)) as Hgap.
  { apply marker_at_Some in Hy as (r & e & v & -> & _). by eexists ws, _. }
  induction a as [|c a IH]; simpl app.
  - clear Hgap. induction Hws as [|w ws Hw Hws IH]; simpl app.
    + destruct y; cbn [Re.search]; by rewrite Hy.
    + cbn [Re.search]. unfold Re.marker_at at 1. simpl.
      destruct (Ascii.eqb_spec "(" w) as [<-|_]; [by vm_compute in Hw|].
      simpl. exact IH.
  - apply search_cons_None in Ha as [Hm Ha]. cbn [Re.search].
    change (c :: a ++ ws ++ y) with ((c :: a) ++ ws ++ y).
    rewrite (marker_at_straddle (c :: a) (ws ++ y)); [by apply IH|done..].
Qed.

(** A successful search splits the text at the first marker. *)
Lemma search_Some_split (s ds : list ascii) :
  Re.search s = Some ds →
  ∃ a y rest, s = a ++ y ∧ Re.marker_at y = Some (ds, rest) ∧ Re.search a = None.
Proof.
  induction s as [|c s IH].
  - intros H. by vm_compute in H.
  - cbn [Re.search]. destruct (Re.marker_at (c :: s)) as [[ds' rest]|] eqn:Hm.
    + intros [= ->]. by exists [], (c :: s), rest.
    + intros (a & y & rest & -> & Hy & Ha)%IH. exists (c :: a), y, rest.
      split_and!; [done..|]. cbn [Re.search].
      destruct (Re.marker_at (c :: a)) as [[ds' rest']|] eqn:Hca; [|done].
      apply (marker_at_app_Some _ y) in Hca. simpl in Hca. congruence.
Qed.

(** ** Deleting every match *)

Lemma drop_while_length (p : ascii → bool) (s : list ascii) :
  (length (Py.drop_while p s) ≤ length s)%nat.
Proof. induction s as [|c s IH]; simpl; [lia|]. destruct (p c); simpl; lia. Qed.

Lemma marker_at_length (y ds rest : list ascii) :
  Re.marker_at y = Some (ds, rest) → (length rest < length y)%nat.
Proof.
  intros (r & e & v & -> & _)%marker_at_Some. simpl. rewrite length_app. simpl. lia.
Qed.

Lemma ws_marker_at_length (s rest : list ascii) :
  Re.ws_marker_at s = Some rest → (length rest < length s)%nat.
Proof.
  unfold Re.ws_marker_at.
  destruct (Re.marker_at (Py.drop_while Py.is_space s)) as [[ds r]|] eqn:H; [|done].
  intros [= <-]. apply marker_at_length in H.
  pose proof (drop_while_length Py.is_space s). simpl. lia.
Qed.

(** Any amount of fuel from the length of the text on gives the same result. *)
Lemma sub_fuel_enough (n m : nat) (s : list ascii) :
  (length s ≤ n)%nat → (length s ≤ m)%nat → Re.sub_fuel n s = Re.sub_fuel m s.
Proof.
  revert m s. induction n as [|n IH]; intros m s Hn Hm.
  - destruct s; [|simpl in Hn; lia]. by destruct m.
  - destruct m as [|m].
    + destruct s; [done|simpl in Hm; lia].
    + simpl. destruct (Re.ws_marker_at s) as [rest|] eqn:Hs.
      * apply ws_marker_at_length in Hs. apply IH; lia.
      * destruct s as [|c s]; [done|]. simpl in Hn, Hm. f_equal. apply IH; lia.
Qed.

Lemma sub_unfold (s : list ascii) :
  Re.sub s =
    match Re.ws_marker_at s with
    | Some rest => Re.sub rest
    | None => match s with [] => [] | c :: s' => c :: Re.sub s' end
    end.
Proof.
  unfold Re.sub. destruct s as [|c s]; [by vm_compute|].
  cbn [length Re.sub_fuel].
  destruct (Re.ws_marker_at (c :: s)) as [rest|] eqn:Hs; [|done].
  apply ws_marker_at_length in Hs. simpl in Hs. apply sub_fuel_enough; lia.
Qed.

Lemma drop_while_is_suffix (p : ascii → bool) (s : list ascii) :
  ∃ a, s = a ++ Py.drop_while p s.
Proof. exists (Py.take_while p s). by rewrite take_drop_while. Qed.

Lemma ws_marker_at_no_marker (s : list ascii) :
  Re.search s = None → Re.ws_marker_at s = None.
Proof.
  intros Hs. unfold Re.ws_marker_at.
  destruct (drop_while_is_suffix Py.is_space s) as [a Ha].
  rewrite Ha in Hs. apply search_None_suffix, search_None_marker_at in Hs.
  by rewrite Hs.
Qed.

(** A text without markers is left as it is. *)
Lemma sub_no_marker (s : list ascii) : Re.search s = None → Re.sub s = s.
Proof.
  induction s as [|c s IH]; intros Hs; rewrite sub_unfold.
  - done.
  - rewrite ws_marker_at_no_marker by done.
    apply search_cons_None in Hs as [_ Hs]. by rewrite IH.
Qed.

Lemma last_not_space_tail (c : ascii) (a : list ascii) :
  last_not_space (c :: a) → last_not_space a.
Proof. intros H a0 d ->. by apply (H (c :: a0) d). Qed.

Lemma last_not_space_drop_while (a : list ascii) :
  a ≠ [] → last_not_space a → Py.drop_while Py.is_space a ≠ [].
Proof.
  intros Hne Hl Hd. apply drop_while_nil_Forall in Hd.
  destruct (exists_last Hne) as (a0 & c & ->).
  apply Forall_app in Hd as [_ Hc]. apply Forall_inv in Hc.
  specialize (Hl a0 c eq_refl). congruence.
Qed.

(** The text up to the first marker is kept, apart from the white space
    right before the marker; the scan goes on after the marker. *)
Lemma sub_cut (a ws y ds rest : list ascii) :
  Re.search a = None → last_not_space a →
  Forall (λ c, Py.is_space c = true) ws →
  Re.marker_at y = Some (ds, rest) →
  Re.sub (a ++ ws ++ y) = a ++ Re.sub rest.
Proof.
  intros Ha Hl Hws Hy.
  assert (gap_then_paren (ws ++ y)) as Hgap.
  { apply marker_at_Some in Hy as (r & e & v & -> & _). by eexists ws, _. }
  induction a as [|c a IH]; simpl app; rewrite sub_unfold.
  - unfold Re.ws_marker_at.
    destruct (take_drop_while_app_all Py.is_space ws y Hws) as [_ ->].
    assert (Py.drop_while Py.is_space y = y) as ->.
    { apply marker_at_Some in Hy as (r & e & v & -> & _). by vm_compute. }
    by rewrite Hy.
  - assert (Re.ws_marker_at (c :: a ++ ws ++ y) = None) as ->.
    { unfold Re.ws_marker_at.
      destruct (Py.drop_while Py.is_space (c :: a)) as [|d r] eqn:Hd.
      { by apply last_not_space_drop_while in Hd. }
      change (c :: a ++ ws ++ y) with ((c :: a) ++ ws ++ y).
      destruct (take_drop_while_app_stop Py.is_space (c :: a) (ws ++ y) r d Hd)
        as [_ ->].
      change (d :: r ++ ws ++ y) with ((d :: r) ++ ws ++ y).
      rewrite marker_at_straddle; [done|done| |done].
      destruct (drop_while_is_suffix Py.is_space (c :: a)) as [a0 Ha0].
      rewrite Hd in Ha0. rewrite Ha0 in Ha.
      by apply search_None_suffix, search_None_marker_at in Ha. }
    apply search_cons_None in Ha as [_ Ha].
    rewrite IH; [done|done|]. by apply last_not_space_tail in Hl.
Qed.

(** ** Stripping *)

Lemma drop_while_fixed (s : list ascii) :
  (∀ c r, s = c :: r → Py.is_space c = false) → Py.drop_while Py.is_space s = s.
Proof. destruct s as [|c r]; [done|]. intros H. simpl. by rewrite (H c r). Qed.

Lemma rstrip_is_prefix (s : list ascii) : ∃ z, s = Py.rstrip s ++ z.
Proof.
  unfold Py.rstrip. exists (rev (Py.take_while Py.is_space (rev s))).
  rewrite <- rev_app_distr, take_drop_while. by rewrite rev_involutive.
Qed.

Lemma rstrip_last_not_space (s : list ascii) : last_not_space (Py.rstrip s).
Proof.
  unfold Py.rstrip. intros a0 c H. apply (f_equal (@rev ascii)) in H.
  rewrite rev_involutive, rev_app_distr in H. simpl in H.
  by apply drop_while_head in H.
Qed.

Lemma rstrip_fixed (s : list ascii) : last_not_space s → Py.rstrip s = s.
Proof.
  intros Hl. unfold Py.rstrip. rewrite drop_while_fixed; [apply rev_involutive|].
  intros c r Hr. apply (Hl (rev r) c).
  rewrite <- (rev_involutive s), Hr. done.
Qed.

Lemma strip_last_not_space (s : list ascii) : last_not_space (Py.strip s).
Proof. apply rstrip_last_not_space. Qed.

Lemma strip_head_not_space (s : list ascii) (c : ascii) (r : list ascii) :
  Py.strip s = c :: r → Py.is_space c = false.
Proof.
  unfold Py.strip, Py.lstrip. intros H.
  destruct (rstrip_is_prefix (Py.drop_while Py.is_space s)) as [z Hz].
  rewrite H in Hz. simpl in Hz. by apply drop_while_head in Hz.
Qed.

Lemma strip_idempotent (s : list ascii) : Py.strip (Py.strip s) = Py.strip s.
Proof.
  unfold Py.strip at 1. unfold Py.lstrip.
  rewrite drop_while_fixed by (intros c r; apply strip_head_not_space).
  apply rstrip_fixed, strip_last_not_space.
Qed.

(** ** Decimal digits *)

Lemma fold_digits_uint_acc (d : Decimal.uint) (p : positive) :
  fold_left (λ acc c, 10 * acc + Py.digit_value c)
            (chars (NilEmpty.string_of_uint d)) (Z.pos p)
  = Z.pos (Pos.of_uint_acc d p).
Proof.
  revert p. induction d as [|d IH|d IH|d IH|d IH|d IH|d IH|d IH|d IH|d IH|d IH];
    intros p; simpl; [done|..]; rewrite <- IH; f_equal;
    unfold Py.digit_value; simpl; lia.
Qed.

Lemma fold_digits_uint (d : Decimal.uint) :
  fold_left (λ acc c, 10 * acc + Py.digit_value c)
            (chars (NilEmpty.string_of_uint d)) 0
  = Z.of_N (Pos.of_uint d).
Proof.
  induction d as [|d IH|d IH|d IH|d IH|d IH|d IH|d IH|d IH|d IH|d IH];
    simpl; [done|exact IH|..]; apply fold_digits_uint_acc.
Qed.

Lemma string_of_uint_digits (d : Decimal.uint) :
  Forall (λ c, Py.is_digit c = true) (chars (NilEmpty.string_of_uint d)).
Proof. induction d; simpl; constructor; done. Qed.

(** Printing a natural number and reading it back gives the number. *)
Lemma str_int_format_int (z : Z) : 0 ≤ z → str_int (Py.format_int z) = z.
Proof.
  intros Hz. unfold str_int, Py.int_of_digits, Py.format_int.
  destruct z as [|p|p]; [done| |lia]. simpl.
  rewrite fold_digits_uint, DecimalPos.Unsigned.of_to. done.
Qed.

Lemma format_int_digits (z : Z) :
  0 ≤ z →
  Py.format_int z ≠ EmptyString
  ∧ Forall (λ c, Py.is_digit c = true) (chars (Py.format_int z)).
Proof.
  intros Hz. unfold Py.format_int. destruct z as [|p|p]; [| |lia]; simpl.
  - split; [done|]. by repeat constructor.
  - split; [|apply string_of_uint_digits].
    pose proof (DecimalPos.Unsigned.to_uint_nonnil p) as Hnil.
    by destruct (Pos.to_uint p).
Qed.

(** ** [extract_revision] on strings *)

Lemma no_trailing_space_chars (s : string) :
  no_trailing_space s ↔ last_not_space (chars s).
Proof.
  unfold no_trailing_space, last_not_space. split.
  - intros H a0 c Hc. apply (H (text a0) c). apply chars_inj.
    by rewrite chars_app, chars_text.
  - intros H s0 c ->. apply (H (chars s0) c). by rewrite chars_app.
Qed.

Lemma revision_marker_at (m ds : string) (rest : list ascii) :
  revision_marker m ds → Re.marker_at (chars m ++ rest) = Some (chars ds, rest).
Proof.
  intros (r & e & v & Hm & H)%marker_chars. apply marker_at_Some.
  exists r, e, v. split; [|done]. rewrite Hm. simpl. by rewrite <- app_assoc.
Qed.

Lemma marker_at_revision_marker (y ds rest : list ascii) :
  Re.marker_at y = Some (ds, rest) →
  ∃ m, revision_marker (text m) (text ds) ∧ y = m ++ rest.
Proof.
  intros (r & e & v & -> & Hr & He & Hv & Hne & Hds)%marker_at_Some.
  exists ("("%char :: r :: e :: v :: " "%char :: ds ++ [")"%char]). split.
  - apply marker_chars. exists r, e, v. rewrite !chars_text. done.
  - simpl. by rewrite <- app_assoc.
Qed.

(** A text has a marker exactly when the search finds one. *)
Lemma has_marker_search (s : string) :
  has_marker s ↔ Re.search (chars s) ≠ None.
Proof.
  split.
  - intros (a & m & ds & b & Hm & ->) Hs. rewrite !chars_app in Hs.
    apply search_None_suffix, search_None_marker_at in Hs.
    by rewrite (revision_marker_at m ds) in Hs.
  - destruct (Re.search (chars s)) as [ds|] eqn:Hs; [intros _|done].
    apply search_Some_split in Hs as (a & y & rest & Hs & Hy & _).
    apply marker_at_revision_marker in Hy as (m & Hm & ->).
    exists (text a), (text m), (text ds), (text rest). split; [done|].
    apply chars_inj. by rewrite !chars_app, !chars_text.
Qed.

Lemma no_marker_search (s : string) :
  ¬ has_marker s ↔ Re.search (chars s) = None.
Proof.
  rewrite has_marker_search. destruct (Re.search (chars s)) as [ds|].
  - split; [|done]. intros H. by destruct H.
  - split; [done|]. intros _ H. by apply H.
Qed.

Lemma extract_revision_no_marker (name : string) :
  ¬ has_marker name → extract_revision name = (str_strip name, None).
Proof.
  intros H%no_marker_search. unfold extract_revision, re_search_rev. by rewrite H.
Qed.

Lemma re_sub_rev_no_marker (s : string) : ¬ has_marker s → re_sub_rev s = s.
Proof.
  intros H%no_marker_search. unfold re_sub_rev.
  by rewrite sub_no_marker, text_chars.
Qed.

Lemma re_sub_rev_cut (pre ws m ds post : string) :
  ¬ has_marker pre → no_trailing_space pre → all_space ws → revision_marker m ds →
  re_sub_rev (pre +:+ ws +:+ m +:+ post) = pre +:+ re_sub_rev post.
Proof.
  intros Hpre%no_marker_search Hl%no_trailing_space_chars Hws Hm.
  unfold re_sub_rev. rewrite !chars_app.
  rewrite (sub_cut (chars pre) (chars ws) _ (chars ds) (chars post));
    [|done|done|done|by apply revision_marker_at].
  by rewrite text_app, text_chars.
Qed.

Lemma extract_revision_cut (pre ws m ds post : string) :
  ¬ has_marker pre → no_trailing_space pre → all_space ws → revision_marker m ds →
  extract_revision (pre +:+ ws +:+ m +:+ post)
  = (str_strip (pre +:+ re_sub_rev post), Some (str_int ds)).
Proof.
  intros Hpre Hl Hws Hm. unfold extract_revision.
  rewrite (re_sub_rev_cut pre ws m ds post) by done.
  unfold re_search_rev. rewrite !chars_app.
  rewrite (search_first_marker (chars pre) (chars ws) _ (chars ds) (chars post));
    [|by apply no_marker_search|done|by apply revision_marker_at].
  simpl. by rewrite text_chars.
Qed.

(** A name with a marker splits at its first marker. *)
Lemma first_marker_split (name : string) :
  has_marker name →
  ∃ pre ws m ds post,
    name = pre +:+ ws +:+ m +:+ post
    ∧ ¬ has_marker pre ∧ no_trailing_space pre ∧ all_space ws
    ∧ revision_marker m ds.
Proof.
  intros H%has_marker_search.
  destruct (Re.search (chars name)) as [ds|] eqn:Hs; [|done].
  apply search_Some_split in Hs as (a & y & rest & Hs & Hy & Ha).
  apply marker_at_revision_marker in Hy as (m & Hm & ->).
  destruct (rstrip_is_prefix a) as [z Hz].
  exists (text (Py.rstrip a)), (text (rev (Py.take_while Py.is_space (rev a)))),
         (text m), (text ds), (text rest).
  assert (a = Py.rstrip a ++ rev (Py.take_while Py.is_space (rev a))) as Ha'.
  { unfold Py.rstrip. rewrite <- rev_app_distr, take_drop_while.
    by rewrite rev_involutive. }
  split_and!.
  - apply chars_inj. rewrite !chars_app, !chars_text, Hs.
    rewrite Ha' at 1. by rewrite <- !app_assoc.
  - apply no_marker_search. rewrite chars_text. rewrite Ha' in Ha.
    by apply search_None_prefix in Ha.
  - apply no_trailing_space_chars. rewrite chars_text. apply rstrip_last_not_space.
  - unfold all_space. rewrite chars_text. apply Forall_rev, take_while_Forall.
  - done.
Qed.

(** C1, as the code has it: a name without a marker gives its trimmed text
    and no revision; a name with a marker splits at its first marker, the
    revision is the number of that marker, and the base is the trimmed text
    that is left when every marker, each with the white space before it, is
    deleted: the text up to the first marker is kept, the rest is cleaned by
    the same rule, and a rest without markers is left as it is. *)
Theorem extract_revision_decomposition :
  (∀ name, ¬ has_marker name → extract_revision name = (str_strip name, None)) ∧
  (∀ pre ws m ds post,
     ¬ has_marker pre → no_trailing_space pre → all_space ws → revision_marker m ds →
     extract_revision (pre +:+ ws +:+ m +:+ post)
       = (str_strip (pre +:+ re_sub_rev post), Some (str_int ds))
     ∧ re_sub_rev (pre +:+ ws +:+ m +:+ post) = pre +:+ re_sub_rev post) ∧
  (∀ post, ¬ has_marker post → re_sub_rev post = post) ∧
  (∀ name, has_marker name →
     ∃ pre ws m ds post,
       name = pre +:+ ws +:+ m +:+ post
       ∧ ¬ has_marker pre ∧ no_trailing_space pre ∧ all_space ws
       ∧ revision_marker m ds).
Proof.
  split_and!.
  - apply extract_revision_no_marker.
  - intros pre ws m ds post Hpre Hl Hws Hm. split.
    + by apply extract_revision_cut.
    + by apply (re_sub_rev_cut pre ws m ds).
  - apply re_sub_rev_no_marker.
  - apply first_marker_split.
Qed.

Lemma sample_marker : revision_marker "(Rev 1)" "1".
Proof.
  exists "R"%char, "e"%char, "v"%char.
  split_and!; [done|by left|by right|by right|done|by repeat constructor].
Defined.

Lemma sample_no_trailing_space : no_trailing_space "Game A".
Proof.
  apply no_trailing_space_chars. intros a0 c H.
  assert (rev (chars "Game A") = rev (a0 ++ [c])) as Hr by (by rewrite H).
  rewrite rev_app_distr in Hr. simpl in Hr. by injection Hr as <- _.
Defined.

Lemma extract_revision_decomposition_witness :
  extract_revision ("Game A" +:+ " " +:+ "(Rev 1)" +:+ " (Europe)")
    = (str_strip ("Game A" +:+ re_sub_rev " (Europe)"), Some (str_int "1")).
Proof.
  apply (proj1 (proj2 extract_revision_decomposition)
           "Game A" " " "(Rev 1)" "1" " (Europe)").
  - apply no_marker_search. vm_compute. reflexivity.
  - exact sample_no_trailing_space.
  - repeat constructor.
  - exact sample_marker.
Defined.

(** ** Counting parentheses *)

Lemma open_parens_app (a b : list ascii) :
  open_parens (a ++ b) = (open_parens a + open_parens b)%nat.
Proof. apply count_occ_app. Qed.

Lemma open_parens_none (p : ascii → bool) (s : list ascii) :
  p "("%char = false → Forall (λ c, p c = true) s → open_parens s = O.
Proof.
  intros Hp Hs. induction Hs as [|c s Hc Hs IH]; [done|].
  unfold open_parens in *. simpl. destruct (ascii_dec c "(") as [->|_]; [congruence|done].
Qed.

Lemma open_parens_drop_while (s : list ascii) :
  open_parens (Py.drop_while Py.is_space s) = open_parens s.
Proof.
  induction s as [|c s IH]; [done|]. simpl.
  destruct (Py.is_space c) eqn:Hc; [|done]. rewrite IH.
  unfold open_parens. simpl. destruct (ascii_dec c "(") as [->|_]; [|done].
  by vm_compute in Hc.
Qed.

Lemma open_parens_strip (s : list ascii) : open_parens (Py.strip s) = open_parens s.
Proof.
  unfold Py.strip, Py.rstrip, Py.lstrip, open_parens.
  rewrite count_occ_rev. fold (open_parens (Py.drop_while Py.is_space
    (rev (Py.drop_while Py.is_space s)))).
  rewrite open_parens_drop_while. unfold open_parens. rewrite count_occ_rev.
  apply open_parens_drop_while.
Qed.

Lemma open_parens_marker (m ds : string) :
  revision_marker m ds → open_parens (chars m) = 1%nat.
Proof.
  intros (r & e & v & -> & Hr & He & Hv & _ & Hds)%marker_chars.
  change (open_parens ("("%char :: r :: e :: v :: " "%char :: chars ds ++ [")"%char]))
    with (open_parens (["("%char] ++ [r; e; v] ++ [" "%char] ++ chars ds ++ [")"%char])).
  rewrite !open_parens_app.
  rewrite (open_parens_none Py.is_digit (chars ds)) by done.
  apply ieq_R in Hr. apply ieq_e in He. apply ieq_v in Hv.
  destruct Hr as [-> | ->], He as [-> | ->], Hv as [-> | ->]; reflexivity.
Qed.

(** C1 as stated fails: with two markers in the name the base that
    [extract_revision] returns is not the trimmed name with exactly one
    marker (and the white space before it) taken out, whichever marker and
    however much of the white space is taken. *)
Lemma extract_revision_removes_every_marker :
  extract_revision "Game A (Rev 1) (Rev 2)" = ("Game A", Some 1) ∧
  ¬ ∃ pre ws m ds post,
      "Game A (Rev 1) (Rev 2)" = pre +:+ ws +:+ m +:+ post
      ∧ all_space ws ∧ revision_marker m ds
      ∧ "Game A" = str_strip (pre +:+ post).
Proof.
  split; [by vm_compute|].
  intros (pre & ws & m & ds & post & Hname & Hws & Hm & Hbase).
  apply (f_equal (λ s, open_parens (chars s))) in Hname.
  apply (f_equal (λ s, open_parens (chars s))) in Hbase.
  simpl in Hname, Hbase. unfold str_strip in Hbase.
  rewrite chars_text, open_parens_strip in Hbase.
  rewrite !chars_app, !open_parens_app in *.
  rewrite (open_parens_none Py.is_space (chars ws)) in Hname by done.
  rewrite (open_parens_marker m ds) in Hname by done.
  assert (open_parens (chars "Game A (Rev 1) (Rev 2)") = 2%nat) as H2 by done.
  assert (open_parens (chars "Game A") = 0%nat) as H0 by done.
  simpl in H2, H0. rewrite H2 in Hname. rewrite H0 in Hbase. lia.
Qed.

(** ** Reassembling a name *)

Lemma append_nil_r (s : string) : s +:+ EmptyString = s.
Proof. apply chars_inj. rewrite chars_app. apply app_nil_r. Qed.

Lemma str_strip_idempotent (s : string) : str_strip (str_strip s) = str_strip s.
Proof. unfold str_strip. by rewrite chars_text, strip_idempotent. Qed.

Lemma str_strip_no_trailing_space (s : string) : no_trailing_space (str_strip s).
Proof.
  apply no_trailing_space_chars. unfold str_strip. rewrite chars_text.
  apply strip_last_not_space.
Qed.

(** What [extract_revision] returns: a trimmed base and, if any, the number
    read from the digits of a marker. *)
Lemma extract_revision_result (name base : string) (rev : option Z) :
  extract_revision name = (base, rev) →
  str_strip base = base ∧ no_trailing_space base ∧ ∀ r, rev = Some r → 0 ≤ r.
Proof.
  unfold extract_revision, re_search_rev.
  destruct (Re.search (chars name)) as [ds|] eqn:Hs; simpl; intros [= <- <-].
  - split_and!; [apply str_strip_idempotent|apply str_strip_no_trailing_space|].
    intros r [= <-]. unfold str_int. rewrite chars_text.
    apply int_of_digits_nonneg.
    apply search_Some_split in Hs as (a & y & rest & _ & Hy & _).
    by apply marker_at_Some in Hy as (r & e & v & _ & _ & _ & _ & _ & Hds).
  - split_and!; [apply str_strip_idempotent|apply str_strip_no_trailing_space|done].
Qed.

Lemma reassembled_marker (rev : Z) :
  0 ≤ rev → revision_marker ("(Rev " +:+ Py.format_int rev +:+ ")") (Py.format_int rev).
Proof.
  intros Hrev. destruct (format_int_digits rev Hrev) as [Hne Hds].
  exists "R"%char, "e"%char, "v"%char.
  split_and!; [done|by left|by right|by right|done|done].
Qed.

(** A base without markers, reassembled with a revision number, is read
    back as that base and that number. *)
Lemma extract_revision_reassembled (base : string) (rev : Z) :
  str_strip base = base → no_trailing_space base → ¬ has_marker base → 0 ≤ rev →
  extract_revision (base +:+ " (Rev " +:+ Py.format_int rev +:+ ")") = (base, Some rev).
Proof.
  intros Hstrip Hl Hbase Hrev.
  change (base +:+ " (Rev " +:+ Py.format_int rev +:+ ")")
    with (base +:+ " " +:+ ("(Rev " +:+ Py.format_int rev +:+ ")")).
  rewrite <- (append_nil_r ("(Rev " +:+ Py.format_int rev +:+ ")")).
  rewrite (extract_revision_cut base " " _ (Py.format_int rev) EmptyString);
    [|done|done|by repeat constructor|by apply reassembled_marker].
  rewrite re_sub_rev_no_marker by (apply no_marker_search; by vm_compute).
  by rewrite append_nil_r, Hstrip, str_int_format_int.
Qed.

(** C6, as the code has it: when [extract_revision] yields a base and a
    revision above 0, and the base holds no further marker, then the
    reassembled name "{base} (Rev {rev})" is read back as the same pair. *)
Theorem extract_revision_round_trip (name base : string) (rev : Z) :
  extract_revision name = (base, Some rev) → 0 < rev → ¬ has_marker base →
  extract_revision (base +:+ " (Rev " +:+ Py.format_int rev +:+ ")") = (base, Some rev).
Proof.
  intros (Hstrip & Hl & Hrev)%extract_revision_result Hpos Hbase.
  apply extract_revision_reassembled; try done. lia.
Qed.

Lemma extract_revision_round_trip_witness :
  extract_revision ("Game A" +:+ " (Rev " +:+ Py.format_int 12 +:+ ")")
    = ("Game A", Some 12).
Proof.
  apply (extract_revision_round_trip "Game A (Rev 12) (Rev 3)" "Game A" 12).
  - vm_compute. reflexivity.
  - lia.
  - apply no_marker_search. vm_compute. reflexivity.
Defined.

(** C6 as stated fails: deleting a marker can bring the two halves of
    another marker together; the base then holds a marker, and the
    reassembled name is read back as another pair. *)
Lemma round_trip_fails_on_joined_marker :
  extract_revision "(Rev (Rev 1) 2)" = ("(Rev 2)", Some 1) ∧ 0 < 1 ∧
  extract_revision ("(Rev 2)" +:+ " (Rev " +:+ Py.format_int 1 +:+ ")")
    = (EmptyString, Some 2) ∧
  extract_revision ("(Rev 2)" +:+ " (Rev " +:+ Py.format_int 1 +:+ ")")
    ≠ ("(Rev 2)", Some 1).
Proof. split_and!; [by vm_compute|lia|by vm_compute|by vm_compute]. Qed.

(** ** The revision index *)

Lemma revision_of_nonneg (n : string) : 0 ≤ revision_of n.
Proof.
  unfold revision_of. destruct (extract_revision n) as [base rev] eqn:Hn.
  apply extract_revision_result in Hn as (_ & _ & Hrev).
  destruct rev as [r|]; simpl; [by apply Hrev | done].
Qed.

(** One step of the loop: the entry of the base of the name becomes the
    larger of its old value (0 when there is none) and the revision of the
    name; every other entry stays. *)
Lemma lookup_track_revision (acc : gmap string Z) (n b : string) :
  (∀ k v, acc !! k = Some v → 0 ≤ v) →
  track_revision acc n !! b =
    if decide (b = base_of n)
    then Some (Z.max (default 0 (acc !! b)) (revision_of n))
    else acc !! b.
Proof.
  intros Hacc. unfold track_revision, base_of, revision_of.
  destruct (extract_revision n) as [base [r|]]; simpl.
  - destruct (decide (b = base)) as [->|Hb].
    + case_decide; rewrite lookup_insert_eq; f_equal; lia.
    + case_decide; rewrite ?lookup_insert_ne by done; done.
  - destruct (decide (b = base)) as [->|Hb].
    + destruct (acc !! base) as [v|] eqn:Hbase; simpl.
      * rewrite Hbase. apply Hacc in Hbase. f_equal. lia.
      * by rewrite lookup_insert_eq.
    + destruct (acc !! base) as [v|] eqn:Hbase; [done|].
      by rewrite lookup_insert_ne.
Qed.

Lemma track_revision_nonneg (acc : gmap string Z) (n : string) :
  (∀ k v, acc !! k = Some v → 0 ≤ v) →
  ∀ k v, track_revision acc n !! k = Some v → 0 ≤ v.
Proof.
  intros Hacc k v. rewrite lookup_track_revision by done.
  case_decide; [|apply Hacc]. intros [= <-].
  pose proof (revision_of_nonneg n). lia.
Qed.

(** The loop over a list of names, started from any dictionary. *)
Lemma track_revisions_spec (names : list string) (acc : gmap string Z) (b : string) :
  (∀ k v, acc !! k = Some v → 0 ≤ v) →
  (is_Some (foldl track_revision acc names !! b) ↔
     is_Some (acc !! b) ∨ ∃ n, n ∈ names ∧ base_of n = b) ∧
  (∀ r, foldl track_revision acc names !! b = Some r →
     (acc !! b = Some r ∨ ∃ n, n ∈ names ∧ base_of n = b ∧ revision_of n = r)
     ∧ (∀ v, acc !! b = Some v → v ≤ r)
     ∧ (∀ n, n ∈ names → base_of n = b → revision_of n ≤ r)).
Proof.
  revert acc. induction names as [|n names IH]; intros acc Hacc; cbn [foldl].
  - split.
    + split; [by left|]. intros [H|(n & Hn & _)]; [done|]. by apply elem_of_nil in Hn.
    + intros r Hr. split_and!; [by left| |].
      * intros v Hv. rewrite Hr in Hv. injection Hv as ->. lia.
      * intros n Hn. by apply elem_of_nil in Hn.
  - destruct (IH (track_revision acc n) (track_revision_nonneg acc n Hacc))
      as [IH1 IH2].
    clear IH. rewrite lookup_track_revision in IH1, IH2 by done. split.
    + rewrite IH1. clear IH1 IH2. case_decide as Hb.
      * split; [intros _|intros _; by left]. right. exists n.
        split; [by left|done].
      * split.
        -- intros [H|(n' & Hn' & Hb')]; [by left|]. right. exists n'.
           split; [by right|done].
        -- intros [H|(n' & Hn' & Hb')]; [by left|].
           apply elem_of_cons in Hn' as [->|Hn']; [done|]. right. by exists n'.
    + intros r Hr. destruct (IH2 r Hr) as (Hsrc & Hge & Hmax). clear IH1 IH2.
      case_decide as Hb.
      * specialize (Hge _ eq_refl). split_and!.
        -- destruct Hsrc as [[= Hsrc]|(n' & Hn' & Hb' & Hr')].
           ++ destruct (acc !! b) as [v|] eqn:Hv; simpl in Hsrc.
              ** destruct (Z.max_spec v (revision_of n)) as [[_ Hm]|[_ Hm]].
                 --- right. exists n. split_and!; [by left|done|lia].
                 --- left. f_equal. lia.
              ** right. exists n. split_and!; [by left|done|].
                 pose proof (revision_of_nonneg n). lia.
           ++ right. exists n'. split_and!; [by right|done..].
        -- intros v Hv. rewrite Hv in Hge. simpl in Hge. lia.
        -- intros n' Hn' Hb'. apply elem_of_cons in Hn' as [->|Hn']; [lia|].
           by apply Hmax.
      * split_and!.
        -- destruct Hsrc as [Hsrc|(n' & Hn' & Hb' & Hr')]; [by left|].
           right. exists n'. split_and!; [by right|done..].
        -- done.
        -- intros n' Hn' Hb'. apply elem_of_cons in Hn' as [->|Hn']; [done|].
           by apply Hmax.
Qed.

(** The loop of [parse_dat_file_for_revisions] is the revision index of the
    decoded names. *)
Lemma parse_dat_file_for_revisions_names (html_unescape : string → string)
    (root : list Element) :
  parse_dat_file_for_revisions html_unescape (Parsed root)
  = Return (build_revision_index (decoded_names html_unescape root)).
Proof.
  unfold parse_dat_file_for_revisions, build_revision_index, decoded_names.
  f_equal. generalize (∅ : gmap string Z). generalize (findall_game root).
  intros games. induction games as [|g games IH]; intros acc; [done|].
  cbn [foldl omap list_omap]. rewrite IH. unfold track_game.
  destruct (attr_name g) as [n|]; [|done]. by case_decide.
Qed.

(** C4: the revision index maps exactly the base titles of the input names;
    the number under a base is the revision of one of the names with that
    base and is not below the revision of any of them, a name without marker
    counting as revision 0; so a base that only occurs without marker maps
    to 0, and the three names of Game A give the single entry Game A: 2.
    [parse_dat_file_for_revisions] builds this index from the decoded names
    of the document. *)
Theorem build_revision_index_max (names : list string) :
  (∀ b, is_Some (build_revision_index names !! b)
        ↔ ∃ n, n ∈ names ∧ base_of n = b) ∧
  (∀ b r, build_revision_index names !! b = Some r →
     (∃ n, n ∈ names ∧ base_of n = b ∧ revision_of n = r)
     ∧ (∀ n, n ∈ names → base_of n = b → revision_of n ≤ r)) ∧
  (∀ b, (∃ n, n ∈ names ∧ base_of n = b) →
        (∀ n, n ∈ names → base_of n = b → (extract_revision n).2 = None) →
        build_revision_index names !! b = Some 0) ∧
  build_revision_index ["Game A"; "Game A (Rev 1)"; "Game A (Rev 2)"]
    = {[ "Game A" := 2 ]} ∧
  (∀ html_unescape root,
     parse_dat_file_for_revisions html_unescape (Parsed root)
     = Return (build_revision_index (decoded_names html_unescape root))).
Proof.
  assert (∀ k v, (∅ : gmap string Z) !! k = Some v → 0 ≤ v) as Hempty.
  { intros k v. by rewrite lookup_empty. }
  assert (∀ b, is_Some (build_revision_index names !! b)
               ↔ ∃ n, n ∈ names ∧ base_of n = b) as Hdom.
  { intros b. destruct (track_revisions_spec names ∅ b Hempty) as [-> _].
    rewrite lookup_empty. split; [|by right].
    intros [H|H]; [by destruct H|done]. }
  assert (∀ b r, build_revision_index names !! b = Some r →
     (∃ n, n ∈ names ∧ base_of n = b ∧ revision_of n = r)
     ∧ (∀ n, n ∈ names → base_of n = b → revision_of n ≤ r)) as Hmax.
  { intros b r Hr. destruct (track_revisions_spec names ∅ b Hempty) as [_ H].
    destruct (H r Hr) as ([Hsrc|Hsrc] & _ & Hle); [by rewrite lookup_empty in Hsrc|].
    done. }
  split_and!; [done|done| | |apply parse_dat_file_for_revisions_names].
  - intros b Hex Hnone. apply Hdom in Hex as [r Hr]. rewrite Hr. f_equal.
    destruct (Hmax b r Hr) as ((n & Hn & Hb & <-) & _).
    unfold revision_of. by rewrite (Hnone n Hn Hb).
  - apply (bool_decide_unpack _). by vm_compute.
Qed.

Lemma build_revision_index_max_witness :
  build_revision_index ["Game B"; "Game A"; "Game A (Rev 3)"] !! "Game B" = Some 0.
Proof.
  apply (proj1 (proj2 (proj2
           (build_revision_index_max ["Game B"; "Game A"; "Game A (Rev 3)"])))).
  - exists "Game B". split; [apply elem_of_cons; by left | by vm_compute].
  - intros n Hn Hb. repeat (apply elem_of_cons in Hn as [->|Hn]; [by vm_compute in Hb |- *|]).
    by apply elem_of_nil in Hn.
Defined.

(** * Further properties *)

(** ** The shape of what [extract_revision] returns *)

(** X1: the base that [extract_revision] returns has no white space at
    either end, the revision is absent exactly when the name holds no
    marker, and a revision that is present is not negative. *)
Theorem extract_revision_shape (n : string) :
  str_strip (extract_revision n).1 = (extract_revision n).1 ∧
  (∀ c r, chars (extract_revision n).1 = c :: r → Py.is_space c = false) ∧
  no_trailing_space (extract_revision n).1 ∧
  ((extract_revision n).2 = None ↔ ¬ has_marker n) ∧
  (∀ r, (extract_revision n).2 = Some r → 0 ≤ r).
Proof.
  destruct (extract_revision n) as [base rev] eqn:Hn.
  pose proof (extract_revision_result n base rev Hn) as (Hstrip & Hl & Hrev).
  simpl. split_and!; [done| |done| |done].
  - intros c r Hc. rewrite <- Hstrip in Hc. unfold str_strip in Hc.
    rewrite chars_text in Hc. by apply strip_head_not_space in Hc.
  - rewrite no_marker_search. unfold extract_revision, re_search_rev in Hn.
    destruct (Re.search (chars n)); simpl in Hn; injection Hn as <- <-; done.
Qed.

(** ** The latest name, read again *)

(** X2: when the lookup of the latest name for a trimmed base without
    markers and a revision above 0 finds a catalog name, [extract_revision]
    reads that name back as the same base and revision. *)
Theorem latest_name_parses_back (base_name latest : string) (max_rev : Z)
    (redump_names : gset string) :
  0 < max_rev → str_strip base_name = base_name → ¬ has_marker base_name →
  get_latest_revision_name base_name max_rev redump_names = Some latest →
  latest ∈ redump_names ∧ extract_revision latest = (base_name, Some max_rev).
Proof.
  intros Hpos Hstrip Hbase. unfold get_latest_revision_name.
  rewrite decide_False by lia. case_decide as Hin; [|done]. intros [= <-].
  split; [done|]. apply extract_revision_reassembled; try done; [|lia].
  rewrite <- Hstrip. apply str_strip_no_trailing_space.
Qed.

Lemma latest_name_parses_back_witness :
  "Game A (Rev 2)" ∈ ({[ "Game A"; "Game A (Rev 2)" ]} : gset string)
  ∧ extract_revision "Game A (Rev 2)" = ("Game A", Some 2).
Proof.
  apply (latest_name_parses_back "Game A" "Game A (Rev 2)" 2
           {[ "Game A"; "Game A (Rev 2)" ]}).
  - lia.
  - vm_compute. reflexivity.
  - apply no_marker_search. vm_compute. reflexivity.
  - vm_compute. reflexivity.
Defined.

(** ** The name of the superior version *)

Lemma endswith_true (p s : string) :
  str_endswith p s = true ↔ ∃ a, s = a +:+ p.
Proof.
  unfold str_endswith. rewrite startswith_true. split.
  - intros [r Hr]. exists (text (rev r)). apply chars_inj.
    rewrite chars_app, chars_text. apply (f_equal (@rev ascii)) in Hr.
    by rewrite rev_involutive, rev_app_distr, rev_involutive in Hr.
  - intros [a ->]. exists (rev (chars a)). by rewrite chars_app, rev_app_distr.
Qed.

Lemma str_startswith_true (p s : string) :
  str_startswith p s = true ↔ ∃ r, s = p +:+ r.
Proof.
  unfold str_startswith. rewrite startswith_true. split.
  - intros [r Hr]. exists (text r). apply chars_inj.
    by rewrite chars_app, chars_text.
  - intros [r ->]. exists (chars r). by rewrite chars_app.
Qed.

Lemma slice_to_last_app (pfx body : string) (c : ascii) :
  slice_to_last (length (chars pfx)) (pfx +:+ body +:+ String c EmptyString) = body.
Proof.
  unfold slice_to_last. rewrite !chars_app. simpl chars.
  rewrite drop_app_length, !length_app. simpl length.
  replace (length (chars pfx) + (length (chars body) + 1) - 1 - length (chars pfx))%nat
    with (length (chars body)) by lia.
  by rewrite take_app_length, text_chars.
Qed.

(** X3: the reason that the report parser stores for a superseded title,
    "Superior version: '{parent}'", gives the parent back, whatever the
    parent is; and [extract_superior_version_name] answers with a name only
    on a reason of that form, or with the empty name on the bare prefix. *)
Theorem superior_version_name_round_trip :
  (∀ parent,
     extract_superior_version_name ("Superior version: '" +:+ parent +:+ "'")
     = Some parent) ∧
  (∀ reason superior,
     extract_superior_version_name reason = Some superior →
     reason = "Superior version: '" +:+ superior +:+ "'"
     ∨ (reason = "Superior version: '" ∧ superior = EmptyString)).
Proof.
  split.
  - intros parent. unfold extract_superior_version_name.
    rewrite (proj2 (str_startswith_true _ _)) by (by eexists).
    rewrite (proj2 (endswith_true "'" _)).
    + simpl negb. cbv iota. f_equal.
      apply (slice_to_last_app "Superior version: '" parent "'").
    + exists ("Superior version: '" +:+ parent). apply chars_inj.
      rewrite !chars_app. by rewrite <- app_assoc.
  - intros reason superior. unfold extract_superior_version_name.
    destruct (str_startswith "Superior version: '" reason) eqn:Hs; [|done].
    destruct (str_endswith "'" reason) eqn:He; [|done].
    simpl. intros [= <-].
    apply str_startswith_true in Hs as [r ->].
    apply endswith_true in He as [a Ha].
    destruct (decide (r = EmptyString)) as [->|Hr].
    + right. split; [by rewrite append_nil_r|]. by vm_compute.
    + left. assert (∃ body, r = body +:+ "'") as [body ->].
      { apply (f_equal chars) in Ha. rewrite !chars_app in Ha.
        assert (chars r ≠ []) as Hne.
        { intros H. apply Hr. apply chars_inj. by rewrite H. }
        destruct (exists_last Hne) as (body & c & Hbody).
        rewrite Hbody in Ha. change (chars "'") with ["'"%char] in Ha.
        rewrite app_assoc in Ha. apply app_inj_tail in Ha as [_ ->].
        exists (text body). apply chars_inj.
        by rewrite chars_app, chars_text. }
      pose proof (slice_to_last_app "Superior version: '" body "'") as Hsl.
      change (length (chars "Superior version: '")) with 19%nat in Hsl.
      by rewrite Hsl.
Qed.

Lemma superior_version_name_round_trip_witness :
  extract_superior_version_name "Superior version: 'Game A'" = Some "Game A" ∧
  ("Superior version: 'Game A'" = "Superior version: '" +:+ "Game A" +:+ "'"
   ∨ ("Superior version: 'Game A'" = "Superior version: '"
      ∧ "Game A" = EmptyString)).
Proof.
  split; [reflexivity|].
  apply (proj2 superior_version_name_round_trip
           "Superior version: 'Game A'" "Game A").
  reflexivity.
Defined.

(** ** The names of the catalog *)

Lemma elem_of_add_game_names (html_unescape : string → string)
    (games : list Element) (acc : gset string) (n : string) :
  n ∈ foldl (add_game_name html_unescape) acc games ↔
  n ∈ acc ∨ ∃ game raw, game ∈ games ∧ attr_name game = Some raw
                        ∧ raw ≠ EmptyString ∧ n = html_unescape raw.
Proof.
  revert acc. induction games as [|g games IH]; intros acc; cbn [foldl].
  - split; [by left|]. intros [H|(g & raw & Hg & _)]; [done|].
    by apply elem_of_nil in Hg.
  - rewrite IH. unfold add_game_name. split.
    + intros [Hacc|(g' & raw & Hg' & H)].
      * destruct (attr_name g) as [raw|] eqn:Hraw; [|by left].
        case_decide as Hne; [by left|].
        apply elem_of_union in Hacc as [->%elem_of_singleton|Hacc]; [|by left].
        right. exists g, raw. split_and!; [by left|done..].
      * right. exists g', raw. split; [by right|done].
    + intros [Hacc|(g' & raw & Hg' & Hraw & Hne & ->)].
      * left. destruct (attr_name g); [|done]. case_decide; [done|].
        apply elem_of_union. by right.
      * apply elem_of_cons in Hg' as [->|Hg'].
        -- left. rewrite Hraw. rewrite decide_False by done.
           apply elem_of_union. left. by apply elem_of_singleton.
        -- right. by exists g', raw.
Qed.

Lemma elem_of_decoded_names (html_unescape : string → string)
    (root : list Element) (n : string) :
  n ∈ decoded_names html_unescape root ↔
  ∃ game raw, game ∈ root ∧ tag game = "game" ∧ attr_name game = Some raw
              ∧ raw ≠ EmptyString ∧ n = html_unescape raw.
Proof.
  unfold decoded_names, findall_game. rewrite list_elem_of_omap. split.
  - intros (g & [Htag Hg]%list_elem_of_filter & H).
    destruct (attr_name g) as [raw|] eqn:Hraw; [|done].
    case_decide; [done|]. injection H as <-. by exists g, raw.
  - intros (g & raw & Hg & Htag & Hraw & Hne & ->). exists g.
    split; [by apply list_elem_of_filter|]. rewrite Hraw.
    by rewrite decide_False.
Qed.

Lemma elem_of_parsed_names (html_unescape : string → string)
    (root : list Element) (n : string) :
  n ∈ foldl (add_game_name html_unescape) ∅ (findall_game root) ↔
  ∃ game raw, game ∈ root ∧ tag game = "game" ∧ attr_name game = Some raw
              ∧ raw ≠ EmptyString ∧ n = html_unescape raw.
Proof.
  rewrite elem_of_add_game_names. unfold findall_game. split.
  - intros [H|(g & raw & [Htag Hg]%list_elem_of_filter & H)].
    + by apply not_elem_of_empty in H.
    + by exists g, raw.
  - intros (g & raw & Hg & Htag & H). right. exists g, raw.
    split; [by apply list_elem_of_filter|done].
Qed.

Lemma parse_dat_file_parsed (html_unescape : string → string)
    (root : list Element) :
  parse_dat_file html_unescape (Parsed root) =
  Return (foldl (add_game_name html_unescape) ∅ (findall_game root)).
Proof. reflexivity. Qed.

(** X4: on a well-formed document [parse_dat_file] returns exactly the
    decoded values of the non-empty [name] attributes of the children of the
    root that are tagged [game]; other children, children without a name and
    children with an empty name add nothing. *)
Theorem parse_dat_file_names (html_unescape : string → string)
    (root : list Element) :
  ∃ dat_names,
    parse_dat_file html_unescape (Parsed root) = Return dat_names ∧
    (∀ n, n ∈ dat_names ↔
          ∃ game raw, game ∈ root ∧ tag game = "game"
                      ∧ attr_name game = Some raw ∧ raw ≠ EmptyString
                      ∧ n = html_unescape raw) ∧
    (∀ n, n ∈ dat_names ↔ n ∈ decoded_names html_unescape root).
Proof.
  eexists. split; [apply parse_dat_file_parsed|]. split.
  - apply elem_of_parsed_names.
  - intros n. by rewrite elem_of_parsed_names, elem_of_decoded_names.
Qed.

(** X5: the two parsers agree on one document: the revision index has an
    entry exactly for the bases of the names that [parse_dat_file] returns,
    and the entry of a base is the revision of one of these names and is
    not below the revision of any of them. *)
Theorem revision_index_covers_catalog (html_unescape : string → string)
    (doc : EtParse) (dat_names : gset string) (index : gmap string Z) :
  parse_dat_file html_unescape doc = Return dat_names →
  parse_dat_file_for_revisions html_unescape doc = Return index →
  (∀ b, is_Some (index !! b) ↔ ∃ n, n ∈ dat_names ∧ base_of n = b) ∧
  (∀ b r, index !! b = Some r →
     0 ≤ r
     ∧ (∃ n, n ∈ dat_names ∧ base_of n = b ∧ revision_of n = r)
     ∧ (∀ n, n ∈ dat_names → base_of n = b → revision_of n ≤ r)).
Proof.
  assert (∀ k v, (∅ : gmap string Z) !! k = Some v → 0 ≤ v) as Hempty.
  { intros k v. by rewrite lookup_empty. }
  destruct doc as [root|msg|msg]; intros Hdat Hindex;
    [|simpl in Hdat, Hindex; injection Hdat as <-..].
  - rewrite parse_dat_file_parsed in Hdat. injection Hdat as <-.
    assert (∀ n, n ∈ foldl (add_game_name html_unescape) ∅ (findall_game root)
                 ↔ n ∈ decoded_names html_unescape root) as Hnames.
    { intros n. by rewrite elem_of_parsed_names, elem_of_decoded_names. }
    rewrite parse_dat_file_for_revisions_names in Hindex. injection Hindex as <-.
    unfold build_revision_index. split.
    + intros b.
      destruct (track_revisions_spec (decoded_names html_unescape root) ∅ b Hempty)
        as [-> _].
      rewrite lookup_empty. split.
      * intros [[? [=]]|(n & Hn & Hb)]. exists n. by rewrite Hnames.
      * intros (n & Hn & Hb). right. exists n. by rewrite <- Hnames.
    + intros b r Hr.
      destruct (track_revisions_spec (decoded_names html_unescape root) ∅ b Hempty)
        as [_ H].
      destruct (H r Hr) as ([Hsrc|(n & Hn & Hb & Hrev)] & _ & Hle);
        [by rewrite lookup_empty in Hsrc|].
      split_and!.
      * rewrite <- Hrev. apply revision_of_nonneg.
      * exists n. by rewrite Hnames.
      * intros n' Hn'. apply Hle. by rewrite <- Hnames.
  - injection Hindex as <-. split.
    + intros b. rewrite lookup_empty. split; [by intros [? [=]]|].
      intros (n & Hn & _). by apply not_elem_of_empty in Hn.
    + intros b r. by rewrite lookup_empty.
  - injection Hindex as <-. split.
    + intros b. rewrite lookup_empty. split; [by intros [? [=]]|].
      intros (n & Hn & _). by apply not_elem_of_empty in Hn.
    + intros b r. by rewrite lookup_empty.
Qed.

Lemma revision_index_covers_catalog_witness :
  is_Some (build_revision_index ["Game A"; "Game Z"] !! "Game Z")
  ↔ ∃ n, n ∈ ({[ "Game A"; "Game Z" ]} : gset string) ∧ base_of n = "Game Z".
Proof.
  refine (proj1 (revision_index_covers_catalog id sample_catalog
                   {[ "Game A"; "Game Z" ]}
                   (build_revision_index ["Game A"; "Game Z"]) _ _) "Game Z").
  - vm_compute. reflexivity.
  - vm_compute. reflexivity.
Defined.

(** ** The revision pass *)

Lemma rev_name_not_empty (base_name digits : string) :
  base_name +:+ " (Rev " +:+ digits +:+ ")" ≠ EmptyString.
Proof.
  intros H. apply (f_equal chars) in H. rewrite chars_app in H.
  apply app_eq_nil in H as [_ H]. done.
Qed.

(** One inventory name adds at most one finding, and adds it exactly when
    its base is in the index with a higher revision and the name built from
    the base and that revision is a catalog name. *)
Lemma check_revision_step (index : gmap string Z) (dat_names : gset string)
    (acc : list (string * string * Z * Z)) (c : string) :
  (check_revision index dat_names acc c = acc
   ∧ ¬ ∃ m, index !! base_of c = Some m ∧ revision_of c < m
            ∧ base_of c +:+ " (Rev " +:+ Py.format_int m +:+ ")" ∈ dat_names)
  ∨ (∃ m, check_revision index dat_names acc c
          = acc ++ [(c, base_of c +:+ " (Rev " +:+ Py.format_int m +:+ ")",
                     revision_of c, m)]
          ∧ index !! base_of c = Some m ∧ revision_of c < m
          ∧ base_of c +:+ " (Rev " +:+ Py.format_int m +:+ ")" ∈ dat_names).
Proof.
  pose proof (revision_of_nonneg c) as Hnonneg.
  unfold check_revision, base_of, revision_of in *.
  destruct (extract_revision c) as [base rev]. simpl in *.
  destruct (index !! base) as [m|] eqn:Hm.
  - case_decide as Hlt.
    + unfold get_latest_revision_name. rewrite decide_False by lia.
      case_decide as Hin.
      * right. exists m. simpl.
        rewrite bool_decide_eq_false_2 by apply rev_name_not_empty. done.
      * left. split; [done|]. intros (m' & [= <-] & _ & Hin'). done.
    + left. split; [done|]. intros (m' & [= <-] & Hlt' & _). done.
  - left. split; [done|]. by intros (m' & [=] & _).
Qed.

Lemma elem_of_check_revisions (index : gmap string Z) (dat_names : gset string)
    (names : list string) (acc : list (string * string * Z * Z))
    (x : string * string * Z * Z) :
  x ∈ foldl (check_revision index dat_names) acc names ↔
  x ∈ acc ∨ ∃ c m, c ∈ names ∧ index !! base_of c = Some m ∧ revision_of c < m
                   ∧ base_of c +:+ " (Rev " +:+ Py.format_int m +:+ ")" ∈ dat_names
                   ∧ x = (c, base_of c +:+ " (Rev " +:+ Py.format_int m +:+ ")",
                          revision_of c, m).
Proof.
  revert acc. induction names as [|c names IH]; intros acc; cbn [foldl].
  - split; [by left|]. intros [H|(c & m & Hc & _)]; [done|]. by apply elem_of_nil in Hc.
  - rewrite IH.
    destruct (check_revision_step index dat_names acc c)
      as [[-> Hno]|(m & -> & Hm & Hlt & Hin)].
    + split.
      * intros [H|(c' & m & Hc' & H)]; [by left|]. right. exists c', m.
        split; [by right|done].
      * intros [H|(c' & m & Hc' & Hm & Hlt & Hin & Hx)]; [by left|].
        apply elem_of_cons in Hc' as [->|Hc']; [|right; by exists c', m].
        destruct Hno. by exists m.
    + rewrite elem_of_app, list_elem_of_singleton. split.
      * intros [[H| ->]|(c' & m' & Hc' & H)]; [by left| |].
        -- right. exists c, m. split; [by left|done].
        -- right. exists c', m'. split; [by right|done].
      * intros [H|(c' & m' & Hc' & Hm' & Hlt' & Hin' & Hx)]; [by left; left|].
        apply elem_of_cons in Hc' as [->|Hc']; [|right; by exists c', m'].
        left. right. rewrite Hm in Hm'. by injection Hm' as <-.
Qed.

(** X6: the revision pass reports the tuple (inventory name, latest name,
    inventory revision, highest revision) exactly when the base of the
    inventory name is in the index with a revision above that of the name
    and the string "{base} (Rev {highest})" is a catalog name; the reported
    latest name is that string. *)
Theorem revision_updates_exact (index : gmap string Z)
    (dat_names collection_names : gset string) (c latest : string) (r m : Z) :
  (c, latest, r, m) ∈ find_revision_updates index dat_names collection_names ↔
  c ∈ collection_names ∧ index !! base_of c = Some m
  ∧ r = revision_of c ∧ r < m
  ∧ latest = base_of c +:+ " (Rev " +:+ Py.format_int m +:+ ")"
  ∧ latest ∈ dat_names.
Proof.
  unfold find_revision_updates. case_decide as Hempty.
  - subst index. split; [by intros H%elem_of_nil|].
    intros (_ & H & _). by rewrite lookup_empty in H.
  - rewrite elem_of_check_revisions. split.
    + intros [H%elem_of_nil|(c' & m' & Hc' & Hm & Hlt & Hin & [= -> -> -> ->])];
        [done|]. by apply elem_of_sorted in Hc'.
    + intros (Hc & Hm & -> & Hlt & -> & Hin). right. exists c, m.
      split; [by apply elem_of_sorted|done].
Qed.

Lemma check_revisions_names (index : gmap string Z) (dat_names : gset string)
    (names : list string) (acc : list (string * string * Z * Z)) :
  ∃ found, (λ x, x.1.1.1) <$> foldl (check_revision index dat_names) acc names
           = ((λ x, x.1.1.1) <$> acc) ++ found
           ∧ found `sublist_of` names.
Proof.
  revert acc. induction names as [|c names IH]; intros acc; cbn [foldl].
  - exists []. split; [by rewrite app_nil_r|constructor].
  - destruct (IH (check_revision index dat_names acc c)) as (found & -> & Hsub).
    destruct (check_revision_step index dat_names acc c)
      as [[-> _]|(m & -> & _)].
    + exists found. split; [done|]. by constructor.
    + exists (c :: found). split; [|by constructor].
      rewrite fmap_app. simpl. by rewrite <- app_assoc.
Qed.

(** X7: the inventory names of the findings of the revision pass follow the
    sorted order of the inventory, each name at most once; with an empty
    index, as after a catalog that could not be parsed, nothing is found. *)
Theorem revision_updates_once (index : gmap string Z)
    (dat_names collection_names : gset string) :
  (λ x, x.1.1.1) <$> find_revision_updates index dat_names collection_names
    `sublist_of` sorted collection_names
  ∧ NoDup ((λ x, x.1.1.1) <$> find_revision_updates index dat_names collection_names)
  ∧ (∀ html_unescape msg,
       parse_dat_file_for_revisions html_unescape (ParseError msg) = Return index →
       find_revision_updates index dat_names collection_names = []).
Proof.
  assert ((λ x, x.1.1.1) <$> find_revision_updates index dat_names collection_names
            `sublist_of` sorted collection_names) as Hsub.
  { unfold find_revision_updates. case_decide; [apply sublist_nil_l|].
    destruct (check_revisions_names index dat_names (sorted collection_names) [])
      as (found & -> & Hsub). done. }
  split_and!; [done| |].
  - eapply sublist_NoDup; [apply NoDup_sorted|done].
  - intros html_unescape msg [= <-]. done.
Qed.

Lemma revision_updates_once_witness :
  parse_dat_file_for_revisions id (ParseError "no element found") = Return ∅ ∧
  find_revision_updates ∅ {[ "Game A (Rev 1)" ]} {[ "Game A" ]} = [].
Proof.
  split; [reflexivity|].
  apply (proj2 (proj2 (revision_updates_once ∅ {[ "Game A (Rev 1)" ]} {[ "Game A" ]}))
           id "no element found").
  reflexivity.
Defined.

(** ** Where the image of a game is *)

Lemma folder_has_spec (fs : FileSystem) (d g : string) :
  folder_has fs d g = true ↔
  ∃ listing e, fs !! d = Some listing ∧ e ∈ listing
               ∧ entry_name e = g +:+ ".png" ∧ dangling e = false.
Proof.
  unfold folder_has, dir_exists, file_exists.
  destruct (fs !! d) as [listing|]; simpl.
  - rewrite existsb_exists. split.
    + intros (e & He%list_elem_of_In & [Hname Hd]%andb_true_iff).
      apply bool_decide_eq_true in Hname. apply negb_true_iff in Hd.
      by exists listing, e.
    + intros (l & e & [= <-] & He & Hname & Hd). exists e.
      split; [by apply list_elem_of_In|].
      by rewrite Hd, (bool_decide_eq_true_2 _ Hname).
  - split; [done|]. by intros (l & e & [=] & _).
Qed.

Lemma first_location_spec (fs : FileSystem) (g : string)
    (dirs : list (string * string)) :
  (first_location fs g dirs = (false, None)
   ∧ ∀ d l, (d, l) ∈ dirs → folder_has fs d g = false)
  ∨ (∃ pre d l post,
       dirs = pre ++ (d, l) :: post ∧ first_location fs g dirs = (true, Some l)
       ∧ folder_has fs d g = true
       ∧ ∀ d' l', (d', l') ∈ pre → folder_has fs d' g = false).
Proof.
  induction dirs as [|[d l] dirs IH]; simpl.
  - left. split; [done|]. intros d l H. by apply elem_of_nil in H.
  - fold (folder_has fs d g). destruct (folder_has fs d g) eqn:Hd.
    + right. exists [], d, l, dirs. split_and!; [done..|].
      intros d' l' H. by apply elem_of_nil in H.
    + destruct IH as [[-> Hno]|(pre & d' & l' & post & -> & -> & Hd' & Hpre)].
      * left. split; [done|]. intros d' l' [[= -> ->]|H]%elem_of_cons; [done|].
        by apply (Hno d' l').
      * right. exists ((d, l) :: pre), d', l', post. split_and!; [done..|].
        intros d'' l'' [[= -> ->]|H]%elem_of_cons; [done|]. by apply (Hpre d'' l'').
Qed.

Lemma check_image_exists_std (fs : FileSystem) (g c : string) :
  c ∈ ["2dbox"; "3dbox"; "disc"] →
  check_image_exists fs g c =
    if folder_has fs (joinpath LIBRARY_DIR c) g then (true, Some "normal")
    else if folder_has fs (joinpath LIBRARY_DIR (c +:+ "-lq")) g then (true, Some "lq")
    else if folder_has fs (joinpath LIBRARY_DIR (c +:+ "-missing")) g
         then (true, Some "missing")
         else (false, None).
Proof.
  intros Hc. repeat (apply elem_of_cons in Hc as [->|Hc]; [reflexivity|]).
  by apply elem_of_nil in Hc.
Qed.

Lemma check_image_exists_icon (fs : FileSystem) (g : string) :
  check_image_exists fs g "psp-icon0" =
    if folder_has fs (joinpath (joinpath COMPOSITES_DIR "psp-icon0")
                        "psp-icon0-generated") g
    then (true, Some "generated")
    else if folder_has fs (joinpath (joinpath COMPOSITES_DIR "psp-icon0")
                             "psp-icon0-bespoke") g
         then (true, Some "bespoke")
         else (false, None).
Proof. reflexivity. Qed.

Lemma check_image_exists_unknown (fs : FileSystem) (g c : string) :
  c ∉ CATEGORIES → check_image_exists fs g c = (false, None).
Proof.
  intros Hc. unfold check_image_exists, image_dirs.
  repeat (case_decide;
          [subst c; exfalso; apply Hc; unfold CATEGORIES;
           rewrite !elem_of_cons; tauto|]).
  done.
Qed.

(** X8: [check_image_exists] finds an image exactly when it names a folder,
    and a category outside the fixed four is never found; for a box or disc
    category the answer is the placeholder folder exactly when that folder
    holds the image and neither the normal nor the low-quality folder does;
    an icon is never placeholder-only. *)
Theorem check_image_exists_location (fs : FileSystem) (g c : string) :
  ((check_image_exists fs g c).1 = true ↔ is_Some (check_image_exists fs g c).2) ∧
  (c ∉ CATEGORIES → check_image_exists fs g c = (false, None)) ∧
  (c ∈ ["2dbox"; "3dbox"; "disc"] →
     (check_image_exists fs g c = (true, Some "missing") ↔
        folder_has fs (joinpath LIBRARY_DIR (c +:+ "-missing")) g = true
        ∧ folder_has fs (joinpath LIBRARY_DIR c) g = false
        ∧ folder_has fs (joinpath LIBRARY_DIR (c +:+ "-lq")) g = false)) ∧
  check_image_exists fs g "psp-icon0" ≠ (true, Some "missing").
Proof.
  split_and!.
  - unfold check_image_exists. destruct (image_dirs c) as [dirs|]; simpl.
    + destruct (first_location_spec fs g dirs)
        as [[-> _]|(pre & d & l & post & _ & -> & _)]; simpl.
      * split; [done|]. by intros [? [=]].
      * split; [by eexists|done].
    + split; [done|]. by intros [? [=]].
  - apply check_image_exists_unknown.
  - intros Hc. rewrite check_image_exists_std by done.
    repeat match goal with
           | |- context [folder_has fs ?d g] => destruct (folder_has fs d g)
           end; split; (intros [=] || intros (? & ? & ?)); done.
  - rewrite check_image_exists_icon.
    repeat match goal with
           | |- context [folder_has fs ?d g] => destruct (folder_has fs d g)
           end; done.
Qed.

Lemma check_image_exists_location_witness :
  check_image_exists sample_fs "Game A" "disc" = (true, Some "missing") ↔
  folder_has sample_fs (joinpath LIBRARY_DIR ("disc" +:+ "-missing")) "Game A" = true
  ∧ folder_has sample_fs (joinpath LIBRARY_DIR "disc") "Game A" = false
  ∧ folder_has sample_fs (joinpath LIBRARY_DIR ("disc" +:+ "-lq")) "Game A" = false.
Proof.
  apply (proj1 (proj2 (proj2 (check_image_exists_location sample_fs "Game A" "disc")))).
  apply (bool_decide_unpack _). vm_compute. exact I.
Defined.

(** ** The files of one name *)

Lemma elem_of_collect_all_files (fs : FileSystem) (g : string) (p : Path) :
  p ∈ collect_all_files_for_name fs g ↔
  ∃ c dirs d, (c, dirs) ∈ COLLECTION_DIRS ∧ d ∈ dirs ∧ folder_has fs d g = true
              ∧ p = {| parent := d; name := g +:+ ".png" |}.
Proof.
  unfold collect_all_files_for_name. generalize COLLECTION_DIRS. intros table.
  set (inner := λ (files : list Path) (directory : string),
         if negb (dir_exists fs directory) then files
         else
           let file_path := {| parent := directory; name := g +:+ ".png" |} in
           if file_exists fs (parent file_path) (name file_path)
           then files ++ [file_path] else files).
  assert (∀ dirs acc,
    p ∈ foldl inner acc dirs ↔
    p ∈ acc ∨ ∃ d, d ∈ dirs ∧ folder_has fs d g = true
                   ∧ p = {| parent := d; name := g +:+ ".png" |}) as Hinner.
  { induction dirs as [|d dirs IH]; intros acc; cbn [foldl].
    - split; [by left|]. intros [H|(d & Hd & _)]; [done|]. by apply elem_of_nil in Hd.
    - rewrite IH. unfold inner, folder_has. simpl.
      destruct (dir_exists fs d) eqn:Hd; simpl.
      + destruct (file_exists fs d (g +:+ ".png")) eqn:Hf.
        * rewrite elem_of_app, list_elem_of_singleton. split.
          -- intros [[H| ->]|(d' & Hd' & H)]; [by left| |].
             ++ right. exists d. rewrite Hd, Hf. split; [by left|done].
             ++ right. exists d'. split; [by right|done].
          -- intros [H|(d' & Hd' & Hh & ->)]; [by left; left|].
             apply elem_of_cons in Hd' as [->|Hd']; [by left; right|].
             right. by exists d'.
        * split.
          -- intros [H|(d' & Hd' & H)]; [by left|]. right. exists d'.
             split; [by right|done].
          -- intros [H|(d' & Hd' & Hh & ->)]; [by left|].
             apply elem_of_cons in Hd' as [->|Hd'].
             ++ rewrite Hd, Hf in Hh. done.
             ++ right. by exists d'.
      + split.
        * intros [H|(d' & Hd' & H)]; [by left|]. right. exists d'.
          split; [by right|done].
        * intros [H|(d' & Hd' & Hh & ->)]; [by left|].
          apply elem_of_cons in Hd' as [->|Hd'].
          -- rewrite Hd in Hh. done.
          -- right. by exists d'. }
  assert (∀ acc,
    p ∈ foldl (λ files '(category, dirs), foldl inner files dirs) acc table ↔
    p ∈ acc ∨ ∃ c dirs d, (c, dirs) ∈ table ∧ d ∈ dirs ∧ folder_has fs d g = true
                          ∧ p = {| parent := d; name := g +:+ ".png" |}) as Houter.
  { induction table as [|[c dirs] table IH]; intros acc; cbn [foldl].
    - split; [by left|]. intros [H|(c & dirs & d & Hc & _)]; [done|].
      by apply elem_of_nil in Hc.
    - rewrite IH, Hinner. split.
      + intros [[H|(d & Hd & H)]|(c' & dirs' & d & Hc' & H)]; [by left| |].
        * right. exists c, dirs, d. split; [by left|done].
        * right. exists c', dirs', d. split; [by right|done].
      + intros [H|(c' & dirs' & d & Hc' & Hd & H)]; [by left; left|].
        apply elem_of_cons in Hc' as [[= -> ->]|Hc']; [left; right; by exists d|].
        right. by exists c', dirs', d. }
  rewrite Houter. split; [|by right]. intros [H|H]; [|done].
  by apply elem_of_nil in H.
Qed.

(** The two tables of directories, [COLLECTION_DIRS] and the one inside
    [check_image_exists], list the same directories for each category. *)
Lemma image_dirs_collection_dirs (c : string) :
  c ∈ CATEGORIES →
  ∃ idirs, image_dirs c = Some idirs ∧ (c, idirs.*1) ∈ COLLECTION_DIRS
           ∧ ∀ dirs, (c, dirs) ∈ COLLECTION_DIRS → dirs = idirs.*1.
Proof.
  intros Hc. unfold CATEGORIES in Hc.
  repeat (apply elem_of_cons in Hc as [->|Hc];
    [eexists; split; [reflexivity|]; split;
      [unfold COLLECTION_DIRS; simpl; rewrite !elem_of_cons; tauto
      |intros dirs Hd; unfold COLLECTION_DIRS in Hd;
       repeat (apply elem_of_cons in Hd as [Hd|Hd];
               [by simplify_eq|]); by apply elem_of_nil in Hd]|]).
  by apply elem_of_nil in Hc.
Qed.

Lemma collection_dirs_categories (c : string) (dirs : list string) :
  (c, dirs) ∈ COLLECTION_DIRS → c ∈ CATEGORIES.
Proof.
  unfold COLLECTION_DIRS, CATEGORIES. rewrite !elem_of_cons.
  intros [[= -> _]|[[= -> _]|[[= -> _]|[[= -> _]|H%elem_of_nil]]]]; tauto.
Qed.

Lemma check_image_exists_found (fs : FileSystem) (g c : string) :
  c ∈ CATEGORIES →
  ((check_image_exists fs g c).1 = true ↔
   ∃ dirs d, (c, dirs) ∈ COLLECTION_DIRS ∧ d ∈ dirs ∧ folder_has fs d g = true).
Proof.
  intros Hc. destruct (image_dirs_collection_dirs c Hc) as (idirs & Hi & Hin & Huniq).
  unfold check_image_exists. rewrite Hi. split.
  - destruct (first_location_spec fs g idirs)
      as [[-> _]|(pre & d & l & post & Hdirs & -> & Hd & _)]; [done|].
    intros _. exists (idirs.*1), d. split_and!; [done| |done].
    rewrite Hdirs, fmap_app, fmap_cons. apply elem_of_app. right. by left.
  - intros (dirs & d & Hdirs & Hd & Hh). apply Huniq in Hdirs as ->.
    apply list_elem_of_fmap in Hd as ([d' l] & -> & Hd). simpl in Hh.
    destruct (first_location_spec fs g idirs)
      as [[_ Hno]|(pre & d'' & l' & post & _ & -> & _)]; [|done].
    rewrite (Hno d' l Hd) in Hh. done.
Qed.

(** X9: [collect_all_files_for_name] returns exactly the files
    "{name}.png" of the collection directories that hold one; for each of
    the four categories [check_image_exists] finds the image exactly when
    one of the returned files lies in a directory of that category, so no
    file is returned exactly when all four categories are missing. *)
Theorem collect_all_files_matches_check (fs : FileSystem) (g : string) :
  (∀ p, p ∈ collect_all_files_for_name fs g ↔
        name p = g +:+ ".png"
        ∧ (∃ c dirs, (c, dirs) ∈ COLLECTION_DIRS ∧ parent p ∈ dirs)
        ∧ folder_has fs (parent p) g = true) ∧
  (∀ c, c ∈ CATEGORIES →
        ((check_image_exists fs g c).1 = true ↔
         ∃ p dirs, (c, dirs) ∈ COLLECTION_DIRS
                   ∧ p ∈ collect_all_files_for_name fs g ∧ parent p ∈ dirs)) ∧
  (collect_all_files_for_name fs g = [] ↔
   ∀ c, c ∈ CATEGORIES → (check_image_exists fs g c).1 = false).
Proof.
  assert (∀ c, c ∈ CATEGORIES →
        ((check_image_exists fs g c).1 = true ↔
         ∃ p dirs, (c, dirs) ∈ COLLECTION_DIRS
                   ∧ p ∈ collect_all_files_for_name fs g ∧ parent p ∈ dirs)) as Hcheck.
  { intros c Hc. rewrite check_image_exists_found by done. split.
    - intros (dirs & d & Hdirs & Hd & Hh).
      exists {| parent := d; name := g +:+ ".png" |}, dirs.
      split_and!; [done| |done]. apply elem_of_collect_all_files.
      by exists c, dirs, d.
    - intros (p & dirs & Hdirs & (c' & dirs' & d & _ & _ & Hh & ->)%elem_of_collect_all_files & Hp).
      by exists dirs, d. }
  split_and!; [|done|].
  - intros p. rewrite elem_of_collect_all_files. split.
    + intros (c & dirs & d & Hc & Hd & Hh & ->). simpl.
      split_and!; [done|by exists c, dirs|done].
    + intros (Hn & (c & dirs & Hc & Hd) & Hh). exists c, dirs, (parent p).
      split_and!; [done..|]. destruct p as [d n]. simpl in *. by subst n.
  - split.
    + intros Hnil c Hc. destruct (check_image_exists fs g c).1 eqn:Hf; [|done].
      apply Hcheck in Hf as (p & dirs & _ & Hp & _); [|done].
      rewrite Hnil in Hp. by apply elem_of_nil in Hp.
    + intros Hall. apply elem_of_nil_inv. intros p Hp.
      pose proof Hp as (c & dirs & d & Hc & Hd & Hh & ->)%elem_of_collect_all_files.
      assert ((check_image_exists fs g c).1 = true) as Hf.
      { apply Hcheck; [by eapply collection_dirs_categories|].
        by eexists _, dirs. }
      rewrite Hall in Hf; [done|]. by eapply collection_dirs_categories.
Qed.

Lemma collect_all_files_matches_check_witness :
  (check_image_exists sample_fs "Game A" "2dbox").1 = true ↔
  ∃ p dirs, ("2dbox", dirs) ∈ COLLECTION_DIRS
            ∧ p ∈ collect_all_files_for_name sample_fs "Game A" ∧ parent p ∈ dirs.
Proof.
  apply (proj1 (proj2 (collect_all_files_matches_check sample_fs "Game A")) "2dbox").
  apply (bool_decide_unpack _). vm_compute. exact I.
Defined.

(** ** Every inventory name has a file *)

Lemma rfind_absent (c : ascii) (s : list ascii) : c ∉ s → rfind c s = None.
Proof.
  induction s as [|a s IH]; [done|]. intros Hc. simpl.
  rewrite IH by (intros H; apply Hc; by right).
  destruct (Ascii.eqb_spec a c) as [->|_]; [|done]. destruct Hc. by left.
Qed.

Lemma rfind_last (c : ascii) (x y : list ascii) :
  c ∉ y → rfind c (x ++ c :: y) = Some (length x).
Proof.
  intros Hy. induction x as [|a x IH]; simpl.
  - by rewrite rfind_absent, Ascii.eqb_refl.
  - by rewrite IH.
Qed.

(** The stem of a file found by the pattern [*.png] is the name without
    these four characters, unless the name is just ".png". *)
Lemma stem_png (entry : string) :
  str_endswith ".png" entry = true →
  entry = stem entry +:+ ".png" ∨ (entry = ".png" ∧ stem entry = ".png").
Proof.
  intros [a ->]%endswith_true. destruct (decide (a = EmptyString)) as [->|Ha].
  - right. by vm_compute.
  - left. unfold stem. rewrite chars_app.
    change (chars ".png") with ("."%char :: chars "png").
    rewrite rfind_last.
    + assert (0 < length (chars a))%nat as Hlen.
      { destruct a; [done|simpl; lia]. }
      rewrite length_app. simpl length.
      replace ((0 <? length (chars a)) && (length (chars a) <? length (chars a) + 4 - 1))%nat
        with true.
      * by rewrite take_app_length, text_chars.
      * symmetry. apply andb_true_iff. split; [apply Nat.ltb_lt|apply Nat.ltb_lt]; lia.
    + simpl. rewrite !elem_of_cons, elem_of_nil. intros [H|[H|[H|H]]]; done.
Qed.

(** X10: in an asset tree without links to missing targets, every name of
    the scanned inventory, other than the name ".png" of a file that is
    called just that, has at least one file "{name}.png" in the collection
    directories, so [check_image_exists] finds it in at least one of the
    four categories and the completeness check never lists all four
    categories as missing for it. *)
Theorem inventory_name_has_file (fs : FileSystem) (n : string) :
  no_dangling_links fs →
  n ∈ collect_collection_filenames fs → n ≠ ".png" →
  collect_all_files_for_name fs n ≠ []
  ∧ (∃ c, c ∈ CATEGORIES ∧ (check_image_exists fs n c).1 = true)
  ∧ (check_collection_completeness fs (collect_collection_filenames fs)).1 !! n
      ≠ Some CATEGORIES.
Proof.
  intros Hlinks Hn Hne.
  pose proof Hn as (c & dirs & d & p & Hc & Hd & Hp & Hstem & _)%elem_of_collect_collection_filenames.
  assert (folder_has fs d n = true) as Hh.
  { apply folder_has_spec. unfold glob_png in Hp.
    destruct (fs !! d) as [listing|] eqn:Hlisting; [|by apply elem_of_nil in Hp].
    apply list_elem_of_fmap in Hp as (e & -> & [Hpng He]%list_elem_of_filter).
    simpl in Hstem. exists listing, e. split_and!; [done..| |].
    - destruct (stem_png (entry_name e) Hpng) as [Hs|[_ Hs]]; [|congruence].
      by rewrite <- Hstem, <- Hs.
    - by apply (Hlinks d listing). }
  assert (c ∈ CATEGORIES) as Hcat by (by eapply collection_dirs_categories).
  assert ((check_image_exists fs n c).1 = true) as Hfound.
  { apply check_image_exists_found; [done|]. by exists dirs, d. }
  split_and!.
  - intros Hnil.
    assert ({| parent := d; name := n +:+ ".png" |} ∈ collect_all_files_for_name fs n) as Hin.
    { apply elem_of_collect_all_files. by exists c, dirs, d. }
    rewrite Hnil in Hin. by apply elem_of_nil in Hin.
  - by exists c.
  - unfold check_collection_completeness.
    destruct (record_games_lookup fs (elements (collect_collection_filenames fs))
                (∅, ∅) n) as [-> _].
    simpl. rewrite lookup_empty. case_decide; [|done]. intros [= Hall].
    destruct (classify_categories_spec fs n CATEGORIES ([], []) c) as [Hm _].
    fold (classify_game fs n) in Hm. rewrite Hall in Hm. simpl in Hm.
    destruct (proj1 Hm Hcat) as [Hx%elem_of_nil|[_ Hx]]; [done|]. congruence.
Qed.

Lemma inventory_name_has_file_witness :
  collect_all_files_for_name sample_fs "Game A" ≠ []
  ∧ (∃ c, c ∈ CATEGORIES ∧ (check_image_exists sample_fs "Game A" c).1 = true)
  ∧ (check_collection_completeness sample_fs
       (collect_collection_filenames sample_fs)).1 !! "Game A" ≠ Some CATEGORIES.
Proof.
  apply (inventory_name_has_file sample_fs "Game A").
  - intros d listing e Hd He. unfold sample_fs in Hd.
    repeat (apply lookup_insert_Some in Hd as [[_ <-]|[_ Hd]];
            [apply list_elem_of_fmap in He as (x & -> & _); reflexivity|]).
    apply lookup_singleton_Some in Hd as [_ <-].
    apply list_elem_of_fmap in He as (x & -> & _). reflexivity.
  - apply (bool_decide_unpack _). vm_compute. exact I.
  - discriminate.
Defined.

(** The name ".png" shows that the exception is real: a file called just
    ".png" puts the name ".png" into the inventory, and no file
    ".png.png" is there for it. *)
Lemma dot_png_has_no_file :
  ".png" ∈ collect_collection_filenames {[ "library/2dbox" := [file ".png"] ]}
  ∧ collect_all_files_for_name {[ "library/2dbox" := [file ".png"] ]} ".png" = [].
Proof. split; [apply (bool_decide_unpack _); by vm_compute | by vm_compute]. Qed.

(** The condition on the links is needed as well: [glob] lists a link to a
    missing target, so its stem is an inventory name, but [exists()] denies
    the link, so the name has no file and all four categories are missing. *)
Lemma dangling_link_has_no_file :
  "Game D" ∈ collect_collection_filenames dangling_fs
  ∧ collect_all_files_for_name dangling_fs "Game D" = []
  ∧ (check_collection_completeness dangling_fs
       (collect_collection_filenames dangling_fs)).1 !! "Game D" = Some CATEGORIES.
Proof.
  split_and!.
  - apply (bool_decide_unpack _). by vm_compute.
  - by vm_compute.
  - apply (bool_decide_unpack _). by vm_compute.
Qed.

(** ** Counting the high-quality images *)

Lemma filter_none (P : string → Prop) `{∀ x, Decision (P x)} (l : list string) :
  (∀ x, x ∈ l → ¬ P x) → length (filter P l) = O.
Proof.
  intros Hno. apply length_zero_iff_nil, elem_of_nil_inv.
  intros x [HP Hx]%list_elem_of_filter. by apply (Hno x).
Qed.

(** X11: [count_hq_images] counts, for any category, exactly the inventory
    names that [check_image_exists] locates in the normal folder; it never
    exceeds the number of names and is 0 for the icons. *)
Theorem count_hq_images_counts_normal (fs : FileSystem) (c : string)
    (collection_names : gset string) :
  count_hq_images fs c collection_names =
    length (filter (λ g, check_image_exists fs g c = (true, Some "normal"))
                   (elements collection_names))
  ∧ (count_hq_images fs c collection_names ≤ size collection_names)%nat
  ∧ count_hq_images fs "psp-icon0" collection_names = O.
Proof.
  assert (count_hq_images fs c collection_names =
    length (filter (λ g, check_image_exists fs g c = (true, Some "normal"))
                   (elements collection_names))) as Hcount.
  { assert (∀ hq_dir (l : list string) k,
      foldl (λ hq_count game_name,
               if file_exists fs hq_dir (game_name +:+ ".png")
               then S hq_count else hq_count) k l
      = (k + length (filter (λ g, file_exists fs hq_dir (g +:+ ".png") = true) l))%nat)
      as Hfold.
    { intros hq_dir l. induction l as [|g l IH]; intros k; cbn [foldl].
      - simpl. lia.
      - rewrite IH, filter_cons.
        destruct (file_exists fs hq_dir (g +:+ ".png")) eqn:Hf.
        + rewrite decide_True by done. simpl. lia.
        + rewrite decide_False by done. done. }
    destruct (decide (c ∈ ["2dbox"; "3dbox"; "disc"])) as [Hc|Hc].
    - assert (count_hq_images fs c collection_names =
        if negb (dir_exists fs (joinpath LIBRARY_DIR c)) then O
        else foldl (λ hq_count game_name,
                      if file_exists fs (joinpath LIBRARY_DIR c) (game_name +:+ ".png")
                      then S hq_count else hq_count)
                   O (elements collection_names)) as ->.
      { repeat (apply elem_of_cons in Hc as [->|Hc]; [reflexivity|]).
        by apply elem_of_nil in Hc. }
      rewrite Hfold. simpl. destruct (dir_exists fs (joinpath LIBRARY_DIR c)) eqn:Hd; simpl.
      + f_equal. apply list_filter_iff. intros g.
        rewrite check_image_exists_std by done. unfold folder_has. rewrite Hd. simpl.
        destruct (file_exists fs (joinpath LIBRARY_DIR c) (g +:+ ".png")); [done|].
        split; [done|].
        repeat match goal with
               | |- context [if ?b then _ else _] => destruct b
               end; done.
      + symmetry. apply filter_none. intros g _.
        rewrite check_image_exists_std by done. unfold folder_has. rewrite Hd. simpl.
        repeat match goal with
               | |- context [if ?b then _ else _] => destruct b
               end; done.
    - assert (count_hq_images fs c collection_names = O) as ->.
      { unfold count_hq_images. rewrite !elem_of_cons in Hc.
        repeat (case_decide; [tauto|]). done. }
      symmetry. apply filter_none. intros g _.
      destruct (decide (c = "psp-icon0")) as [->|Hicon].
      + rewrite check_image_exists_icon.
        repeat match goal with
               | |- context [if ?b then _ else _] => destruct b
               end; done.
      + rewrite check_image_exists_unknown; [done|].
        unfold CATEGORIES. rewrite !elem_of_cons in *. tauto. }
  split_and!; [done| |reflexivity].
  rewrite Hcount. etrans; [apply length_filter|]. done.
Qed.

Lemma count_hq_images_counts_normal_witness :
  count_hq_images sample_fs "2dbox" (collect_collection_filenames sample_fs) = 1%nat.
Proof.
  rewrite (proj1 (count_hq_images_counts_normal sample_fs "2dbox"
                    (collect_collection_filenames sample_fs))).
  vm_compute. reflexivity.
Defined.

(** ** Images in more than one folder *)

Lemma collection_dir_values :
  collection_dir "2dbox" 0 = joinpath LIBRARY_DIR "2dbox"
  ∧ collection_dir "2dbox" 1 = joinpath LIBRARY_DIR "2dbox-lq"
  ∧ collection_dir "2dbox" 2 = joinpath LIBRARY_DIR "2dbox-missing"
  ∧ collection_dir "3dbox" 0 = joinpath LIBRARY_DIR "3dbox"
  ∧ collection_dir "3dbox" 1 = joinpath LIBRARY_DIR "3dbox-lq"
  ∧ collection_dir "3dbox" 2 = joinpath LIBRARY_DIR "3dbox-missing"
  ∧ collection_dir "disc" 0 = joinpath LIBRARY_DIR "disc"
  ∧ collection_dir "disc" 1 = joinpath LIBRARY_DIR "disc-lq"
  ∧ collection_dir "disc" 2 = joinpath LIBRARY_DIR "disc-missing"
  ∧ collection_dir "psp-icon0" 0
    = joinpath (joinpath COMPOSITES_DIR "psp-icon0") "psp-icon0-generated"
  ∧ collection_dir "psp-icon0" 1
    = joinpath (joinpath COMPOSITES_DIR "psp-icon0") "psp-icon0-bespoke".
Proof. split_and!; vm_compute; reflexivity. Qed.

(** The labels of the folders that hold the image, in the order of the
    table of [check_image_exists]. *)
Lemma duplicate_locations_labels (fs : FileSystem) (c g : string) :
  c ∈ CATEGORIES →
  ∃ idirs, image_dirs c = Some idirs
           ∧ duplicate_locations fs c g
             = (filter (λ dl, folder_has fs dl.1 g = true) idirs).*2.
Proof.
  destruct collection_dir_values
    as (E1 & E2 & E3 & E4 & E5 & E6 & E7 & E8 & E9 & E10 & E11).
  intros Hc. unfold CATEGORIES in Hc.
  repeat (apply elem_of_cons in Hc as [->|Hc];
    [eexists; split; [reflexivity|]; unfold duplicate_locations;
     rewrite ?decide_True by done; rewrite ?decide_False by done;
     rewrite ?E1, ?E2, ?E3, ?E4, ?E5, ?E6, ?E7, ?E8, ?E9, ?E10, ?E11;
     rewrite !filter_cons, filter_nil; cbn [fst];
     repeat match goal with
            | |- context [folder_has fs ?d g] => destruct (folder_has fs d g)
            end; reflexivity|]).
  by apply elem_of_nil in Hc.
Qed.

Lemma first_location_filter (fs : FileSystem) (g : string)
    (idirs : list (string * string)) :
  first_location fs g idirs =
    match (filter (λ dl, folder_has fs dl.1 g = true) idirs).*2 with
    | [] => (false, None)
    | l :: _ => (true, Some l)
    end.
Proof.
  induction idirs as [|[d l] idirs IH]; [done|]. simpl. rewrite filter_cons. simpl.
  fold (folder_has fs d g). destruct (folder_has fs d g); [done|].
  rewrite decide_False by done. exact IH.
Qed.

Lemma flag_duplicates_lookup (fs : FileSystem) (c : string) (games : list string)
    (duplicates : gmap string (list (string * list string))) (c' : string) :
  foldl (flag_duplicate fs c) duplicates games !! c' =
    if decide (c' = c)
    then (λ found, found ++ duplicate_entries fs c games) <$> duplicates !! c'
    else duplicates !! c'.
Proof.
  revert duplicates. induction games as [|g games IH]; intros duplicates; cbn [foldl].
  - case_decide; [|done]. unfold duplicate_entries. simpl.
    destruct (duplicates !! c'); simpl; [by rewrite app_nil_r|done].
  - rewrite IH. unfold flag_duplicate, duplicate_entries. cbn [omap list_omap].
    destruct (1 <? length (duplicate_locations fs c g))%nat.
    + case_decide as Hc.
      * subst c'. rewrite lookup_alter_eq.
        destruct (duplicates !! c); simpl; [|done]. by rewrite <- app_assoc.
      * by rewrite lookup_alter_ne.
    + done.
Qed.

Lemma check_duplicates_lookup (fs : FileSystem) (names : gset string) (c : string) :
  c ∈ CATEGORIES →
  check_missing_folder_duplicates fs names !! c
  = Some (duplicate_entries fs c (elements names)).
Proof.
  intros Hc. unfold check_missing_folder_duplicates, CATEGORIES in *. cbn [foldl].
  rewrite !flag_duplicates_lookup.
  repeat (apply elem_of_cons in Hc as [->|Hc];
          [repeat (rewrite decide_False by done);
           rewrite decide_True by done;
           repeat (rewrite decide_False by done); reflexivity|]).
  by apply elem_of_nil in Hc.
Qed.

Lemma elem_of_duplicate_entries (fs : FileSystem) (c : string) (games : list string)
    (g : string) (locs : list string) :
  (g, locs) ∈ duplicate_entries fs c games ↔
  g ∈ games ∧ locs = duplicate_locations fs c g ∧ (2 ≤ length locs)%nat.
Proof.
  unfold duplicate_entries. rewrite list_elem_of_omap. split.
  - intros (g' & Hg' & H).
    destruct (1 <? length (duplicate_locations fs c g'))%nat eqn:Hlen; [|done].
    injection H as <- <-. apply Nat.ltb_lt in Hlen. split_and!; [done..|lia].
  - intros (Hg & -> & Hlen). exists g. split; [done|].
    apply Nat.ltb_lt in Hlen. by rewrite Hlen.
Qed.

Lemma duplicate_entries_names (fs : FileSystem) (c : string) (games : list string) :
  (duplicate_entries fs c games).*1 `sublist_of` games.
Proof.
  unfold duplicate_entries. induction games as [|g games IH]; [constructor|].
  cbn [omap list_omap].
  destruct (1 <? length (duplicate_locations fs c g))%nat; simpl;
    by constructor.
Qed.

(** X12: for each of the four categories the duplicate check lists a game
    with its locations exactly when the game is an inventory name whose
    image is in two or more folders of the category; each game is listed at
    most once, the locations are the labels of all folders that hold the
    image, in the fixed order, and the first of them is the location that
    [check_image_exists] answers. *)
Theorem duplicates_exact (fs : FileSystem) (collection_names : gset string)
    (c : string) :
  c ∈ CATEGORIES →
  ∃ entries idirs,
    check_missing_folder_duplicates fs collection_names !! c = Some entries
    ∧ image_dirs c = Some idirs
    ∧ (∀ g locs, (g, locs) ∈ entries ↔
         g ∈ collection_names
         ∧ locs = (filter (λ dl, folder_has fs dl.1 g = true) idirs).*2
         ∧ (2 ≤ length locs)%nat)
    ∧ NoDup entries.*1
    ∧ (∀ g locs, (g, locs) ∈ entries →
         ∃ l rest, locs = l :: rest ∧ check_image_exists fs g c = (true, Some l)).
Proof.
  intros Hc.
  destruct (duplicate_locations_labels fs c "" Hc) as (idirs & Hi & _).
  assert (∀ g, duplicate_locations fs c g
               = (filter (λ dl, folder_has fs dl.1 g = true) idirs).*2) as Hlocs.
  { intros g. destruct (duplicate_locations_labels fs c g Hc) as (idirs' & Hi' & ->).
    rewrite Hi in Hi'. by injection Hi' as <-. }
  exists (duplicate_entries fs c (elements collection_names)), idirs.
  split_and!.
  - by apply check_duplicates_lookup.
  - done.
  - intros g locs. rewrite elem_of_duplicate_entries, elem_of_elements.
    by rewrite Hlocs.
  - apply (sublist_NoDup _ (elements collection_names));
      [apply NoDup_elements|apply duplicate_entries_names].
  - intros g locs (_ & -> & Hlen)%elem_of_duplicate_entries.
    unfold check_image_exists. rewrite Hi, first_location_filter, <- Hlocs.
    destruct (duplicate_locations fs c g) as [|l rest]; [simpl in Hlen; lia|].
    by exists l, rest.
Qed.

(** X13: the flag with which [main] decides whether duplicates are listed
    looks at the 2D boxes, the 3D boxes and the discs only: it is set
    exactly when some inventory name is in two or more folders of one of
    these three categories, so a name that is in both icon folders and
    nowhere else twice does not set it. *)
Theorem has_duplicates_ignores_icons (fs : FileSystem) (collection_names : gset string) :
  has_duplicates (check_missing_folder_duplicates fs collection_names) = true ↔
  ∃ c g, c ∈ ["2dbox"; "3dbox"; "disc"] ∧ g ∈ collection_names
         ∧ (2 ≤ length (duplicate_locations fs c g))%nat.
Proof.
  assert (∀ c, c ∈ ["2dbox"; "3dbox"; "disc"] →
    (match default [] (check_missing_folder_duplicates fs collection_names !! c) with
     | [] => false
     | _ :: _ => true
     end = true
     ↔ ∃ g, g ∈ collection_names ∧ (2 ≤ length (duplicate_locations fs c g))%nat))
    as Hcat.
  { intros c Hc. rewrite check_duplicates_lookup.
    - simpl.
      destruct (duplicate_entries fs c (elements collection_names))
        as [|[g locs] entries] eqn:He.
      + split; [done|]. intros (g & Hg & Hlen).
        assert ((g, duplicate_locations fs c g)
                ∈ duplicate_entries fs c (elements collection_names)) as Hin.
        { apply elem_of_duplicate_entries. by rewrite elem_of_elements. }
        rewrite He in Hin. by apply elem_of_nil in Hin.
      + split; [intros _|done].
        assert ((g, locs) ∈ duplicate_entries fs c (elements collection_names))
          as (Hg & -> & Hlen)%elem_of_duplicate_entries
          by (rewrite He; by left).
        exists g. by rewrite <- elem_of_elements.
    - unfold CATEGORIES. rewrite !elem_of_cons in *. tauto. }
  unfold has_duplicates. cbn [existsb]. rewrite orb_false_r, !orb_true_iff.
  rewrite !Hcat by (rewrite !elem_of_cons; tauto). split.
  - intros [(g & H)|[(g & H)|(g & H)]]; eexists _, g;
      (split; [|exact H]); rewrite !elem_of_cons; tauto.
  - intros (c & g & Hc & H). rewrite !elem_of_cons, elem_of_nil in Hc.
    destruct Hc as [->|[->|[->|[]]]]; [left|right; left|right; right]; by exists g.
Qed.

Lemma duplicates_exact_witness :
  ∃ entries idirs,
    check_missing_folder_duplicates sample_fs {[ "Game A" ]} !! "disc" = Some entries
    ∧ image_dirs "disc" = Some idirs
    ∧ (∀ g locs, (g, locs) ∈ entries ↔
         g ∈ ({[ "Game A" ]} : gset string)
         ∧ locs = (filter (λ dl, folder_has sample_fs dl.1 g = true) idirs).*2
         ∧ (2 ≤ length locs)%nat)
    ∧ NoDup entries.*1
    ∧ (∀ g locs, (g, locs) ∈ entries →
         ∃ l rest, locs = l :: rest
                   ∧ check_image_exists sample_fs g "disc" = (true, Some l)).
Proof.
  apply (duplicates_exact sample_fs {[ "Game A" ]} "disc").
  apply (bool_decide_unpack _). vm_compute. exact I.
Defined.

(** A game whose only duplicate is its icon is in the list of the icon
    category, and the flag of [main] stays off. *)
Lemma icon_duplicate_not_flagged :
  check_missing_folder_duplicates
    {[ "composites/psp-icon0/psp-icon0-generated" := [file "Game X.png"];
       "composites/psp-icon0/psp-icon0-bespoke" := [file "Game X.png"] ]}
    {[ "Game X" ]} !! "psp-icon0"
  = Some [("Game X", ["generated"; "bespoke"])]
  ∧ has_duplicates
      (check_missing_folder_duplicates
         {[ "composites/psp-icon0/psp-icon0-generated" := [file "Game X.png"];
            "composites/psp-icon0/psp-icon0-bespoke" := [file "Game X.png"] ]}
         {[ "Game X" ]}) = false.
Proof. split; vm_compute; reflexivity. Qed.

(** ** What the report parser stores *)

Lemma strip_nonempty (s : list ascii) :
  s ≠ [] → last_not_space s → Py.strip s ≠ [].
Proof.
  intros Hne Hl. unfold Py.strip, Py.lstrip.
  destruct (drop_while_is_suffix Py.is_space s) as [a Ha].
  rewrite rstrip_fixed; [by apply last_not_space_drop_while|].
  intros a0 c Hc. apply (Hl (a ++ a0) c). rewrite Ha at 1. rewrite Hc.
  by rewrite app_assoc.
Qed.

(** The title after the mark of a kept or removed line is not empty, since
    the line has lost its trailing white space. *)
Lemma marked_title (raw : string) (mark rest : list ascii) :
  Py.after_prefix (mark ++ [" "%char]) (chars (str_lstrip (str_rstrip raw))) = Some rest →
  text (Py.strip rest) ≠ EmptyString
  ∧ str_strip (text (Py.strip rest)) = text (Py.strip rest).
Proof.
  intros H%after_prefix_Some. unfold str_lstrip, str_rstrip in H.
  rewrite !chars_text in H.
  pose proof (rstrip_last_not_space (chars raw)) as Hl.
  destruct (drop_while_is_suffix Py.is_space (Py.rstrip (chars raw))) as [a Ha].
  unfold Py.lstrip in H. rewrite H in Ha.
  assert (rest ≠ []) as Hne.
  { intros ->. rewrite app_nil_r, app_assoc in Ha.
    specialize (Hl _ _ Ha). done. }
  assert (last_not_space rest) as Hrest.
  { intros r0 x ->. apply (Hl (a ++ (mark ++ [" "%char]) ++ r0) x).
    rewrite Ha. by rewrite <- !app_assoc. }
  split.
  - intros Ht. apply (strip_nonempty rest Hne Hrest).
    apply (f_equal chars) in Ht. by rewrite chars_text in Ht.
  - unfold str_strip. by rewrite chars_text, strip_idempotent.
Qed.

Lemma section_of_header_name (line section : string) :
  section_of_header line = Some section →
  section ∈ PLAIN_REASONS ∧ section ≠ "Removed".
Proof.
  unfold section_of_header, PLAIN_REASONS.
  repeat (case_decide; [intros [= <-]; split; [rewrite !elem_of_cons; tauto|done]|]).
  done.
Qed.

Lemma removal_reason_entry (st : FilterState) :
  filter_state_ok st →
  removal_reason st ∈ PLAIN_REASONS
  ∨ ∃ p, p ≠ EmptyString ∧ str_strip p = p
         ∧ removal_reason st = "Superior version: '" +:+ p +:+ "'".
Proof.
  intros (Hsec & Hpar & _). unfold removal_reason.
  destruct (current_section st) as [s|] eqn:Hs.
  - destruct (Hsec s eq_refl) as [Hin Hrem].
    destruct (current_parent st) as [p|] eqn:Hp.
    + destruct (Hpar p eq_refl) as (Hne & Hstrip & [= ->]).
      right. exists p. split_and!; [done..|]. simpl.
      by rewrite bool_decide_eq_false_2.
    + left. simpl. rewrite andb_false_r.
      rewrite bool_decide_eq_false_2; [done|].
      intros ->. unfold PLAIN_REASONS in Hin. rewrite !elem_of_cons, elem_of_nil in Hin.
      repeat (destruct Hin as [Hin|Hin]; [done|]). done.
  - left. simpl. unfold PLAIN_REASONS. rewrite !elem_of_cons. tauto.
Qed.

Lemma filter_line_ok (st : FilterState) (raw : string) :
  filter_state_ok st → filter_state_ok (filter_line st raw).
Proof.
  intros Hok. pose proof Hok as (Hsec & Hpar & Hrem). unfold filter_line.
  destruct (section_of_header (str_rstrip raw)) as [section|] eqn:Hh.
  { split_and!; simpl; [|done|done].
    intros s [= <-]. by eapply section_of_header_name. }
  destruct (bool_decide (str_rstrip raw = EmptyString)
            || str_startswith "=" (str_rstrip raw)
            || str_startswith "*" (str_rstrip raw)
            || str_startswith "SECTIONS" (str_rstrip raw)
            || str_startswith "This file" (str_rstrip raw)); [done|].
  destruct (Py.after_prefix (chars "+ ") (chars (str_lstrip (str_rstrip raw))))
    as [rest|] eqn:Hplus.
  { case_decide as Hclone; [|done].
    destruct (marked_title raw ["+"%char] rest Hplus) as [Hne Hstrip].
    split_and!; simpl; [done| |done]. by intros p [= <-]. }
  destruct (Py.after_prefix (chars "- ") (chars (str_lstrip (str_rstrip raw))))
    as [rest|] eqn:Hminus; [|done].
  destruct (marked_title raw ["-"%char] rest Hminus) as [Hne Hstrip].
  split_and!; simpl; [done..|].
  intros k v. destruct (decide (k = text (Py.strip rest))) as [->|Hk].
  - rewrite lookup_insert_eq. intros [= <-].
    split_and!; [done..|]. by apply removal_reason_entry.
  - rewrite lookup_insert_ne by done. apply Hrem.
Qed.

Lemma filter_lines_ok (st : FilterState) (lines : list string) :
  filter_state_ok st → filter_state_ok (foldl filter_line st lines).
Proof.
  revert st. induction lines as [|l lines IH]; intros st Hok; [done|].
  cbn [foldl]. by apply IH, filter_line_ok.
Qed.

Lemma parse_filter_report_entries (content : option string) (k v : string) :
  parse_filter_report content !! k = Some v → removal_entry k v.
Proof.
  destruct content as [content|]; simpl; [|by rewrite lookup_empty].
  assert (filter_state_ok initial_filter_state) as Hinit.
  { split_and!; simpl; [done..|]. intros k' v'. by rewrite lookup_empty. }
  destruct (filter_lines_ok initial_filter_state (file_lines content) Hinit)
    as (_ & _ & Hrem).
  apply Hrem.
Qed.

Lemma plain_reason_not_superior (v : string) :
  v ∈ PLAIN_REASONS → extract_superior_version_name v = None.
Proof.
  unfold PLAIN_REASONS. rewrite !elem_of_cons, elem_of_nil.
  intros [->|[->|[->|[->|[->|[->|[->|[->|[->|[->|[]]]]]]]]]]]; reflexivity.
Qed.

Lemma superior_reason_name (p : string) :
  extract_superior_version_name ("Superior version: '" +:+ p +:+ "'") = Some p.
Proof.
  unfold extract_superior_version_name.
  rewrite (proj2 (str_startswith_true _ _)) by (by eexists).
  rewrite (proj2 (endswith_true "'" _)).
  - simpl negb. cbv iota. f_equal.
    apply (slice_to_last_app "Superior version: '" p "'").
  - exists ("Superior version: '" +:+ p). apply chars_inj.
    rewrite !chars_app. by rewrite <- app_assoc.
Qed.

(** X14: every reason in the result of [parse_filter_report] is the name of
    one of the nine sections, or "Removed", or "Superior version:
    '{parent}'" with a parent that is not empty and has no white space
    around it; [extract_superior_version_name] answers nothing on the first
    kind and the parent on the second. *)
Theorem parse_filter_report_reasons (content : option string) (k v : string) :
  parse_filter_report content !! k = Some v →
  (v ∈ PLAIN_REASONS ∧ extract_superior_version_name v = None)
  ∨ (∃ p, p ≠ EmptyString ∧ str_strip p = p
          ∧ v = "Superior version: '" +:+ p +:+ "'"
          ∧ extract_superior_version_name v = Some p).
Proof.
  intros (_ & _ & [Hplain|(p & Hne & Hstrip & ->)])%parse_filter_report_entries.
  - left. split; [done|]. by apply plain_reason_not_superior.
  - right. exists p. split_and!; [done..|]. apply superior_reason_name.
Qed.

(** X15: every title in the result of [parse_filter_report] is not empty
    and has no white space at either end; a report that cannot be read
    gives no title at all. *)
Theorem parse_filter_report_titles (content : option string) (k v : string) :
  parse_filter_report content !! k = Some v →
  k ≠ EmptyString ∧ str_strip k = k ∧ content ≠ None.
Proof.
  intros H. pose proof H as (Hne & Hstrip & _)%parse_filter_report_entries.
  split_and!; [done..|]. intros ->. simpl in H. by rewrite lookup_empty in H.
Qed.

Lemma parse_filter_report_reasons_witness :
  ("Audio" ∈ PLAIN_REASONS ∧ extract_superior_version_name "Audio" = None)
  ∨ (∃ p, p ≠ EmptyString ∧ str_strip p = p
          ∧ "Audio" = "Superior version: '" +:+ p +:+ "'"
          ∧ extract_superior_version_name "Audio" = Some p).
Proof.
  apply (parse_filter_report_reasons (Some sample_report) "Game B" "Audio").
  vm_compute. reflexivity.
Defined.

Lemma parse_filter_report_titles_witness :
  "Game B" ≠ EmptyString ∧ str_strip "Game B" = "Game B"
  ∧ Some sample_report ≠ None.
Proof.
  apply (parse_filter_report_titles (Some sample_report) "Game B" "Audio").
  vm_compute. reflexivity.
Defined.

(** ** The names that the catalog does not list, with their reasons *)

Lemma elem_of_games_by_reason (removal_reasons : gmap string string)
    (names : list string) (acc : list (string * string) * list string) :
  (∀ n r, (n, r) ∈ (foldl (split_by_reason removal_reasons) acc names).1 ↔
          (n, r) ∈ acc.1 ∨ (n ∈ names ∧ removal_reasons !! n = Some r)) ∧
  (∀ n, n ∈ (foldl (split_by_reason removal_reasons) acc names).2 ↔
        n ∈ acc.2 ∨ (n ∈ names ∧ removal_reasons !! n = None)).
Proof.
  revert acc. induction names as [|x names IH]; intros acc; cbn [foldl].
  - split.
    + intros n r. split; [by left|]. intros [H|[H _]]; [done|].
      by apply elem_of_nil in H.
    + intros n. split; [by left|]. intros [H|[H _]]; [done|].
      by apply elem_of_nil in H.
  - destruct (IH (split_by_reason removal_reasons acc x)) as [IH1 IH2].
    split.
    + intros n r. rewrite IH1. unfold split_by_reason.
      destruct (removal_reasons !! x) as [rx|] eqn:Hx; simpl.
      * rewrite elem_of_app, list_elem_of_singleton, elem_of_cons. split.
        -- intros [[H|[= -> ->]]|[H1 H2]]; [by left|right|right]; by auto.
        -- intros [H|[[->|H1] H2]]; [by left; left| |by right].
           left. right. congruence.
      * rewrite elem_of_cons. split.
        -- intros [H|[H1 H2]]; [by left|right]; by auto.
        -- intros [H|[[->|H1] H2]]; [by left|congruence|by right].
    + intros n. rewrite IH2. unfold split_by_reason.
      destruct (removal_reasons !! x) as [rx|] eqn:Hx; simpl.
      * rewrite elem_of_cons. split.
        -- intros [H|[H1 H2]]; [by left|right]; by auto.
        -- intros [H|[[->|H1] H2]]; [by left|congruence|by right].
      * rewrite elem_of_app, list_elem_of_singleton, elem_of_cons. split.
        -- intros [[H| ->]|[H1 H2]]; [by left|right|right]; by auto.
        -- intros [H|[[->|H1] H2]]; [by left; left|by left; right|by right].
Qed.

Lemma elem_of_games_with_reasons (removal_reasons : gmap string string)
    (collection_names dat_names : gset string) (n r : string) :
  (n, r) ∈ (games_by_reason removal_reasons
              (sorted (collection_names ∖ dat_names))).1 ↔
  n ∈ collection_names ∧ (n ∉ dat_names) ∧ removal_reasons !! n = Some r.
Proof.
  unfold games_by_reason.
  rewrite (proj1 (elem_of_games_by_reason _ _ _)), elem_of_sorted,
    elem_of_difference. simpl. rewrite elem_of_nil. tauto.
Qed.

Lemma elem_of_add_superior_candidates (collection_names : gset string)
    (games : list (string * string)) (acc : list (string * string * string))
    (x : string * string * string) :
  x ∈ foldl (add_superior_candidate collection_names) acc games ↔
  x ∈ acc ∨ ∃ name reason superior,
    (name, reason) ∈ games ∧ str_startswith "Superior version" reason = true
    ∧ extract_superior_version_name reason = Some superior
    ∧ superior ≠ EmptyString ∧ superior ∈ collection_names
    ∧ x = (name, superior, reason).
Proof.
  revert acc. induction games as [|[name reason] games IH]; intros acc;
    cbn [foldl].
  - split; [by left|]. intros [H|(? & ? & ? & H & _)]; [done|].
    by apply elem_of_nil in H.
  - rewrite IH. clear IH. unfold add_superior_candidate. split.
    + intros [H|(n & r & s & Hin & H)].
      * destruct (str_startswith "Superior version" reason) eqn:Hstart;
          [|by left].
        destruct (extract_superior_version_name reason) as [superior|] eqn:Hsup;
          [|by left].
        destruct (truthy (Some superior) && bool_decide (superior ∈ collection_names))
          eqn:Hcond; [|by left].
        apply elem_of_app in H as [H| ->%list_elem_of_singleton]; [by left|].
        apply andb_true_iff in Hcond as [Hne Hmem]. simpl in Hne.
        apply negb_true_iff, bool_decide_eq_false in Hne.
        apply bool_decide_eq_true in Hmem.
        right. exists name, reason, superior. split_and!; try done. by left.
      * right. exists n, r, s. split; [by right|done].
    + intros [H|(n & r & s & Hin & Hstart & Hsup & Hne & Hmem & ->)].
      * left. destruct (str_startswith "Superior version" reason); [|done].
        destruct (extract_superior_version_name reason) as [superior|]; [|done].
        destruct (truthy (Some superior) && bool_decide (superior ∈ collection_names));
          [|done].
        apply elem_of_app. by left.
      * apply elem_of_cons in Hin as [[= -> ->]|Hin].
        -- left. rewrite Hstart, Hsup. simpl.
           rewrite (bool_decide_eq_false_2 _ Hne), (bool_decide_eq_true_2 _ Hmem).
           simpl. apply elem_of_app. right. by apply list_elem_of_singleton.
        -- right. by exists n, r, s.
Qed.

Lemma elem_of_add_rename_candidates (games : list (string * string))
    (acc : list (string * string)) (x : string * string) :
  x ∈ foldl add_rename_candidate acc games ↔
  x ∈ acc ∨ ∃ name reason superior,
    (name, reason) ∈ games ∧ str_startswith "Superior version" reason = true
    ∧ extract_superior_version_name reason = Some superior
    ∧ superior ≠ EmptyString ∧ x = (name, superior).
Proof.
  revert acc. induction games as [|[name reason] games IH]; intros acc;
    cbn [foldl].
  - split; [by left|]. intros [H|(? & ? & ? & H & _)]; [done|].
    by apply elem_of_nil in H.
  - rewrite IH. clear IH. unfold add_rename_candidate. split.
    + intros [H|(n & r & s & Hin & H)].
      * destruct (str_startswith "Superior version" reason) eqn:Hstart;
          [|by left].
        destruct (extract_superior_version_name reason) as [superior|] eqn:Hsup;
          [|by left].
        destruct (truthy (Some superior)) eqn:Hne; [|by left].
        apply elem_of_app in H as [H| ->%list_elem_of_singleton]; [by left|].
        simpl in Hne. apply negb_true_iff, bool_decide_eq_false in Hne.
        right. exists name, reason, superior. split_and!; try done. by left.
      * right. exists n, r, s. split; [by right|done].
    + intros [H|(n & r & s & Hin & Hstart & Hsup & Hne & ->)].
      * left. destruct (str_startswith "Superior version" reason); [|done].
        destruct (extract_superior_version_name reason) as [superior|]; [|done].
        destruct (truthy (Some superior)); [|done].
        apply elem_of_app. by left.
      * apply elem_of_cons in Hin as [[= -> ->]|Hin].
        -- left. rewrite Hstart, Hsup. simpl.
           rewrite (bool_decide_eq_false_2 _ Hne).
           simpl. apply elem_of_app. right. by apply list_elem_of_singleton.
        -- right. by exists n, r, s.
Qed.

Lemma elem_of_add_cleanup_candidates (games : list (string * string))
    (lists : CleanupList → list (string * string)) (l : CleanupList)
    (x : string * string) :
  x ∈ foldl add_cleanup_candidate lists games l ↔
  x ∈ lists l ∨ (x ∈ games ∧ cleanup_list_of x.2 = Some l).
Proof.
  revert lists. induction games as [|[name reason] games IH]; intros lists;
    cbn [foldl].
  - split; [by left|]. intros [H|[H _]]; [done|]. by apply elem_of_nil in H.
  - rewrite IH. clear IH. unfold add_cleanup_candidate.
    rewrite elem_of_cons.
    destruct (cleanup_list_of reason) as [target|] eqn:Htarget.
    + destruct (decide (l = target)) as [->|Hne].
      * rewrite elem_of_app, list_elem_of_singleton. split.
        -- intros [[H| ->]|H]; [by left| |right; by split; [right|]; apply H].
           right. by split; [left|].
        -- intros [H|[[->|H1] H2]]; [by left; left|by left; right|by right].
      * split.
        -- intros [H|[H1 H2]]; [by left|]. right. by split; [right|].
        -- intros [H|[[->|H1] H2]]; [by left| |by right].
           simpl in H2. congruence.
    + split.
      * intros [H|[H1 H2]]; [by left|]. right. by split; [right|].
      * intros [H|[[->|H1] H2]]; [by left| |by right].
        simpl in H2. congruence.
Qed.

Lemma cleanup_list_of_reason_name (reason : string) (l : CleanupList) :
  cleanup_list_of reason = Some l ↔ reason = reason_name l.
Proof.
  unfold cleanup_list_of. split.
  - repeat (case_decide; [intros [= <-]; by subst|]). done.
  - intros ->. by destruct l.
Qed.

Lemma superior_reason_startswith (p : string) :
  str_startswith "Superior version" ("Superior version: '" +:+ p +:+ "'") = true.
Proof. apply str_startswith_true. by exists (": '" +:+ p +:+ "'"). Qed.

Lemma superior_reason_not_plain (p : string) :
  "Superior version: '" +:+ p +:+ "'" ∉ PLAIN_REASONS.
Proof.
  intros H%plain_reason_not_superior. by rewrite superior_reason_name in H.
Qed.

(** What the parser's invariant says of a reason that names a superior
    version. *)
Lemma superior_entry (content : option string) (n reason superior : string) :
  parse_filter_report content !! n = Some reason →
  extract_superior_version_name reason = Some superior →
  superior ≠ EmptyString ∧ reason = "Superior version: '" +:+ superior +:+ "'".
Proof.
  intros (_ & _ & [Hplain|(p & Hp & _ & ->)])%parse_filter_report_entries Hsup.
  - by rewrite (plain_reason_not_superior _ Hplain) in Hsup.
  - rewrite superior_reason_name in Hsup. by injection Hsup as <-.
Qed.

(** X17: with the reasons of the removal report, a game is a candidate for
    the superior-version cleanup exactly when it is an inventory name that
    the catalog does not list, the report removed it in favour of a parent,
    and that parent is an inventory name; it is a candidate for renaming
    exactly under the first two conditions, whether or not the parent is in
    the inventory or the catalog. The reason of a candidate is the text
    "Superior version: '{parent}'". *)
Theorem superior_candidates_exact (content : option string)
    (collection_names dat_names : gset string) :
  let removal_reasons := parse_filter_report content in
  let games_with_reasons :=
    (games_by_reason removal_reasons (sorted (collection_names ∖ dat_names))).1 in
  (∀ inferior superior reason,
     (inferior, superior, reason)
       ∈ superior_version_candidates collection_names games_with_reasons ↔
     inferior ∈ collection_names ∧ (inferior ∉ dat_names)
     ∧ removal_reasons !! inferior = Some reason
     ∧ reason = "Superior version: '" +:+ superior +:+ "'"
     ∧ superior ∈ collection_names) ∧
  (∀ old_name new_name,
     (old_name, new_name) ∈ rename_candidates games_with_reasons ↔
     old_name ∈ collection_names ∧ (old_name ∉ dat_names)
     ∧ removal_reasons !! old_name
       = Some ("Superior version: '" +:+ new_name +:+ "'")) ∧
  (∀ inferior superior reason,
     (inferior, superior, reason)
       ∈ superior_version_candidates collection_names games_with_reasons ↔
     (inferior, superior) ∈ rename_candidates games_with_reasons
     ∧ superior ∈ collection_names
     ∧ reason = "Superior version: '" +:+ superior +:+ "'").
Proof.
  intros removal_reasons games_with_reasons.
  assert (∀ inferior superior reason,
     (inferior, superior, reason)
       ∈ superior_version_candidates collection_names games_with_reasons ↔
     inferior ∈ collection_names ∧ (inferior ∉ dat_names)
     ∧ removal_reasons !! inferior = Some reason
     ∧ reason = "Superior version: '" +:+ superior +:+ "'"
     ∧ superior ∈ collection_names) as Hsuperior.
  { intros inferior superior reason. unfold superior_version_candidates.
    rewrite elem_of_add_superior_candidates, elem_of_nil. split.
    - intros [[]|(n & r & s & Hin & _ & Hsup & _ & Hmem & [= -> -> ->])].
      unfold sorted_tuples in Hin. rewrite merge_sort_Permutation in Hin.
      apply elem_of_games_with_reasons in Hin as (Hc & Hd & Hr).
      destruct (superior_entry content _ _ _ Hr Hsup) as [_ ->]. done.
    - intros (Hc & Hd & Hr & -> & Hmem). right.
      exists inferior, ("Superior version: '" +:+ superior +:+ "'"), superior.
      destruct (superior_entry content _ _ _ Hr (superior_reason_name superior))
        as [Hne _].
      split_and!;
        first [ apply superior_reason_startswith
              | apply superior_reason_name
              | by unfold sorted_tuples; rewrite merge_sort_Permutation;
                   apply elem_of_games_with_reasons
              | done ]. }
  assert (∀ old_name new_name,
     (old_name, new_name) ∈ rename_candidates games_with_reasons ↔
     old_name ∈ collection_names ∧ (old_name ∉ dat_names)
     ∧ removal_reasons !! old_name
       = Some ("Superior version: '" +:+ new_name +:+ "'")) as Hrename.
  { intros old_name new_name. unfold rename_candidates.
    rewrite elem_of_add_rename_candidates, elem_of_nil. split.
    - intros [[]|(n & r & s & Hin & _ & Hsup & _ & [= -> ->])].
      apply elem_of_games_with_reasons in Hin as (Hc & Hd & Hr).
      destruct (superior_entry content _ _ _ Hr Hsup) as [_ ->]. done.
    - intros (Hc & Hd & Hr). right.
      exists old_name, ("Superior version: '" +:+ new_name +:+ "'"), new_name.
      destruct (superior_entry content _ _ _ Hr (superior_reason_name new_name))
        as [Hne _].
      split_and!;
        first [ apply superior_reason_startswith
              | apply superior_reason_name
              | by apply elem_of_games_with_reasons
              | done ]. }
  split_and!; [done..|].
  intros inferior superior reason. rewrite Hsuperior, Hrename. split.
  - intros (Hc & Hd & Hr & -> & Hmem). done.
  - intros ((Hc & Hd & Hr) & Hmem & ->). done.
Qed.

(** A title that the report lists as its own parent is a candidate for the
    cleanup in favour of itself. *)
Example own_parent_is_candidate :
  ("Game A", "Game A", "Superior version: 'Game A'")
    ∈ superior_version_candidates {[ "Game A" ]}
        (games_by_reason
           (parse_filter_report
              (Some ("TITLES WITH CLONES" +:+ String "010" (
                     "+ Game A" +:+ String "010" (
                     "- Game A" +:+ String "010" EmptyString)))))
           (sorted ({[ "Game A" ]} ∖ {[ "Game B" ]}))).1.
Proof. apply (bool_decide_unpack _). vm_compute. exact I. Qed.

(** X18: each of the eight cleanup lists of [main] holds exactly the
    inventory names that the catalog does not list and that the report
    removed for the reason of that list, each with that reason; a name that
    the report removed as "Clone" (a removed title of the clone section that
    has no parent) or as "Removed" has a reason and is in none of the eight
    lists and is no candidate for renaming; no name is in two of the lists,
    and no name of a list is a candidate for renaming. *)
Theorem cleanup_lists_exact (content : option string)
    (collection_names dat_names : gset string) :
  let removal_reasons := parse_filter_report content in
  let games_with_reasons :=
    (games_by_reason removal_reasons (sorted (collection_names ∖ dat_names))).1 in
  (∀ l n r,
     (n, r) ∈ cleanup_candidates games_with_reasons l ↔
     n ∈ collection_names ∧ (n ∉ dat_names)
     ∧ removal_reasons !! n = Some r ∧ r = reason_name l) ∧
  (∀ n r, (n, r) ∈ games_with_reasons → r ∈ ["Clone"; "Removed"] →
     (∀ l r', (n, r') ∉ cleanup_candidates games_with_reasons l)
     ∧ (∀ new_name, (n, new_name) ∉ rename_candidates games_with_reasons)) ∧
  (∀ l l' n r r',
     (n, r) ∈ cleanup_candidates games_with_reasons l →
     (n, r') ∈ cleanup_candidates games_with_reasons l' → l = l' ∧ r = r') ∧
  (∀ l n r new_name,
     (n, r) ∈ cleanup_candidates games_with_reasons l →
     (n, new_name) ∉ rename_candidates games_with_reasons).
Proof.
  intros removal_reasons games_with_reasons.
  assert (∀ l n r,
     (n, r) ∈ cleanup_candidates games_with_reasons l ↔
     n ∈ collection_names ∧ (n ∉ dat_names)
     ∧ removal_reasons !! n = Some r ∧ r = reason_name l) as Hlists.
  { intros l n r. unfold cleanup_candidates.
    rewrite elem_of_add_cleanup_candidates, elem_of_nil. simpl.
    rewrite cleanup_list_of_reason_name.
    unfold games_with_reasons. rewrite elem_of_games_with_reasons. tauto. }
  assert (∀ n new_name,
     (n, new_name) ∈ rename_candidates games_with_reasons →
     removal_reasons !! n = Some ("Superior version: '" +:+ new_name +:+ "'"))
    as Hrename.
  { intros n new_name. unfold rename_candidates.
    rewrite elem_of_add_rename_candidates, elem_of_nil.
    intros [[]|(n' & r & s & Hin & _ & Hsup & _ & [= -> ->])].
    apply elem_of_games_with_reasons in Hin as (_ & _ & Hr).
    destruct (superior_entry content _ _ _ Hr Hsup) as [_ ->]. done. }
  assert (∀ l, reason_name l ∈ PLAIN_REASONS) as Hplain.
  { intros l. apply (bool_decide_unpack _). by destruct l. }
  split_and!; [done|..].
  - intros n r Hin Hr.
    apply elem_of_games_with_reasons in Hin as (_ & _ & Hn). split.
    + intros l r' (_ & _ & Hn' & ->)%Hlists.
      rewrite Hn in Hn'. injection Hn' as ->.
      revert Hr. rewrite !elem_of_cons, elem_of_nil. by destruct l; intros [|[|[]]].
    + intros new_name Hnew%Hrename.
      rewrite Hn in Hnew. injection Hnew as ->.
      revert Hr. rewrite !elem_of_cons, elem_of_nil. by intros [|[|[]]].
  - intros l l' n r r' (_ & _ & Hn & ->)%Hlists (_ & _ & Hn' & ->)%Hlists.
    rewrite Hn in Hn'. injection Hn' as Heq. split; [|done].
    by destruct l, l'.
  - intros l n r new_name (_ & _ & Hn & ->)%Hlists Hnew%Hrename.
    rewrite Hn in Hnew. injection Hnew as Heq.
    apply (superior_reason_not_plain new_name). rewrite <- Heq. apply Hplain.
Qed.

Lemma cleanup_lists_exact_witness :
  ("Game C", "Clone")
    ∉ cleanup_candidates
        (games_by_reason
           (parse_filter_report
              (Some ("TITLES WITH CLONES" +:+ String "010" (
                     "- Game C" +:+ String "010" EmptyString))))
           (sorted ({[ "Game C" ]} ∖ {[ "Game B" ]}))).1 language_candidates.
Proof.
  refine (proj1 (proj1 (proj2 (cleanup_lists_exact
            (Some ("TITLES WITH CLONES" +:+ String "010" (
                   "- Game C" +:+ String "010" EmptyString)))
            {[ "Game C" ]} {[ "Game B" ]})) "Game C" "Clone" _ _)
            language_candidates "Clone").
  - apply (bool_decide_unpack _). vm_compute. exact I.
  - apply (bool_decide_unpack _). vm_compute. exact I.
Defined.

(** ** The run of [main] *)

(** No collection directory lies under the parent of the script
    directory. *)
Lemma relative_to_collection (p : Path) :
  (∃ c dirs, (c, dirs) ∈ COLLECTION_DIRS ∧ parent p ∈ dirs) →
  relative_to (full_path p) SCRIPT_PARENT = Raise "ValueError".
Proof.
  intros (c & dirs & Hc & Hd). destruct p as [d n]. simpl in Hd.
  unfold COLLECTION_DIRS in Hc.
  repeat (apply elem_of_cons in Hc as [[= -> ->]|Hc];
          [repeat (apply elem_of_cons in Hd as [->|Hd]; [reflexivity|]);
           by apply elem_of_nil in Hd|]).
  by apply elem_of_nil in Hc.
Qed.

Lemma print_relative_paths_raises (files : list Path) :
  (∀ p, p ∈ files → ∃ c dirs, (c, dirs) ∈ COLLECTION_DIRS ∧ parent p ∈ dirs) →
  print_relative_paths files =
    match files with [] => Return tt | _ :: _ => Raise "ValueError" end.
Proof.
  destruct files as [|p files]; [done|]. intros H. cbn [print_relative_paths].
  rewrite relative_to_collection; [done|]. apply H. by left.
Qed.

Lemma psp_dirs_collection_dirs (d : string) :
  d ∈ PSP_DIRS → ∃ c dirs, (c, dirs) ∈ COLLECTION_DIRS ∧ d ∈ dirs.
Proof.
  intros Hd. exists "psp-icon0", PSP_DIRS. split; [|done].
  unfold COLLECTION_DIRS, PSP_DIRS. do 3 (apply elem_of_cons; right).
  apply elem_of_cons. by left.
Qed.

Lemma glob_png_parent (fs : FileSystem) (d : string) (p : Path) :
  p ∈ glob_png fs d → parent p = d.
Proof.
  unfold glob_png. destruct (fs !! d); [|by rewrite elem_of_nil].
  by intros (e & -> & _)%list_elem_of_fmap.
Qed.

(** The printing of the icons without a game raises as soon as there is
    one. *)
Lemma print_mismatched_psp (fs : FileSystem) (names : gset string) :
  print_relative_paths (sorted_paths (check_psp_icon0_sync fs names)) =
    if decide (check_psp_icon0_sync fs names = []) then Return tt
    else Raise "ValueError".
Proof.
  rewrite print_relative_paths_raises.
  - unfold sorted_paths.
    pose proof (merge_sort_Permutation path_le (check_psp_icon0_sync fs names)) as Hperm.
    destruct (merge_sort path_le (check_psp_icon0_sync fs names)) as [|p l].
    + apply Permutation_nil in Hperm. by rewrite Hperm.
    + case_decide as Hnil; [|done]. rewrite Hnil in Hperm.
      symmetry in Hperm. by apply Permutation_nil in Hperm.
  - intros p. unfold sorted_paths. rewrite merge_sort_Permutation.
    intros [(d & Hd & Hp) _]%elem_of_check_psp_icon0_sync.
    rewrite (glob_png_parent fs d p Hp). by apply psp_dirs_collection_dirs.
Qed.

(** The printing of the files of a revision finding raises as soon as
    there is one. *)
Lemma print_files_to_rename (fs : FileSystem) (collection_name : string) :
  print_relative_paths (take 3 (collect_all_files_for_name fs collection_name)) =
    if decide (collect_all_files_for_name fs collection_name = []) then Return tt
    else Raise "ValueError".
Proof.
  rewrite print_relative_paths_raises.
  - by destruct (collect_all_files_for_name fs collection_name).
  - intros p Hp%(subseteq_take 3).
    apply elem_of_collect_all_files in Hp as (c & dirs & d & Hc & Hd & _ & ->).
    by exists c, dirs.
Qed.

(** [main] past its three early returns. *)
Lemma main_past_returns (html_unescape : string → string) (dat : EtParse)
    (txt_file : option (option string)) (fs : FileSystem)
    (dat_names : gset string) (base_to_max_rev : gmap string Z) :
  parse_dat_file html_unescape dat = Return dat_names →
  parse_dat_file_for_revisions html_unescape dat = Return base_to_max_rev →
  dat_names ≠ ∅ → collect_collection_filenames fs ≠ ∅ →
  ∃ report,
    mismatched_psp report
      = check_psp_icon0_sync fs (collect_collection_filenames fs) ∧
    main html_unescape (Some dat) txt_file fs =
      if decide (check_psp_icon0_sync fs (collect_collection_filenames fs) = [])
      then
        match find_revision_updates base_to_max_rev dat_names
                (collect_collection_filenames fs) with
        | [] => Reported report
        | (collection_name, _, _, _) :: _ =>
            if decide (collect_all_files_for_name fs collection_name = [])
            then Reported report
            else Crashed "ValueError"
        end
      else Crashed "ValueError".
Proof.
  intros Hdat Hindex Hne1 Hne2. unfold main. rewrite Hdat, Hindex.
  rewrite (decide_False _ _ Hne1), (decide_False _ _ Hne2).
  eexists. split; [|rewrite print_mismatched_psp].
  2: { case_decide; [|done].
       destruct (find_revision_updates _ _ _) as [|[[[c ?] ?] ?] ?]; [done|].
       rewrite print_files_to_rename. by case_decide. }
  reflexivity.
Qed.

(** X19: a run of [main] that is past the three early returns raises
    [ValueError], before it asks anything, exactly when the icon check finds
    a file without a game or the first finding of the revision pass has a
    file to rename: both lists are printed with
    [relative_to(SCRIPT_DIR.parent)], and no collection directory lies under
    that directory.  In every other case the run gets to its report, so a
    report has no icon without a game; and an icon file whose stem contains
    " alt" always ends the run with the exception. *)
Theorem main_raises_on_relative_paths (html_unescape : string → string)
    (dat : EtParse) (txt_file : option (option string)) (fs : FileSystem)
    (dat_names : gset string) (base_to_max_rev : gmap string Z) :
  parse_dat_file html_unescape dat = Return dat_names →
  parse_dat_file_for_revisions html_unescape dat = Return base_to_max_rev →
  dat_names ≠ ∅ → collect_collection_filenames fs ≠ ∅ →
  (main html_unescape (Some dat) txt_file fs = Crashed "ValueError" ↔
     check_psp_icon0_sync fs (collect_collection_filenames fs) ≠ []
     ∨ ∃ collection_name latest_name collection_rev max_rev rest,
         find_revision_updates base_to_max_rev dat_names
           (collect_collection_filenames fs)
         = (collection_name, latest_name, collection_rev, max_rev) :: rest
         ∧ collect_all_files_for_name fs collection_name ≠ []) ∧
  ((∃ r, main html_unescape (Some dat) txt_file fs = Reported r) ↔
     main html_unescape (Some dat) txt_file fs ≠ Crashed "ValueError") ∧
  (∀ r, main html_unescape (Some dat) txt_file fs = Reported r →
        mismatched_psp r = []) ∧
  (∀ d p, d ∈ PSP_DIRS → p ∈ glob_png fs d →
          str_contains " alt" (stem (name p)) = true →
          main html_unescape (Some dat) txt_file fs = Crashed "ValueError").
Proof.
  intros Hdat Hindex Hne1 Hne2.
  destruct (main_past_returns html_unescape dat txt_file fs dat_names
              base_to_max_rev Hdat Hindex Hne1 Hne2) as (report & Hpsp & ->).
  assert (∀ d p, d ∈ PSP_DIRS → p ∈ glob_png fs d →
                 str_contains " alt" (stem (name p)) = true →
                 check_psp_icon0_sync fs (collect_collection_filenames fs) ≠ [])
    as Halt.
  { intros d p Hd Hp Hcontains Hnil.
    assert (p ∈ check_psp_icon0_sync fs (collect_collection_filenames fs)) as Hin.
    { apply elem_of_check_psp_icon0_sync. split; [by exists d|].
      intros (_ & _ & _ & _ & _ & _ & _ & _ & H)%elem_of_collect_collection_filenames.
      congruence. }
    rewrite Hnil in Hin. by apply elem_of_nil in Hin. }
  split_and!.
  - case_decide as Hnil.
    + destruct (find_revision_updates _ _ _) as [|[[[c l] r] m] rest].
      * split; [done|]. by intros [H|(? & ? & ? & ? & ? & [=] & _)].
      * case_decide as Hfiles.
        -- split; [done|]. intros [H|(? & ? & ? & ? & ? & [= <- _ _ _ _] & H)]; done.
        -- split; [|done]. intros _. right. by exists c, l, r, m, rest.
    + split; [by left|done].
  - case_decide as Hnil.
    + destruct (find_revision_updates _ _ _) as [|[[[c l] r] m] rest].
      * split; [done|]. intros _. by exists report.
      * case_decide as Hfiles.
        -- split; [done|]. intros _. by exists report.
        -- split; [by intros [? [=]]|done].
    + split; [by intros [? [=]]|done].
  - intros r. case_decide as Hnil.
    + destruct (find_revision_updates _ _ _) as [|[[[c l] r'] m] rest].
      * intros [= <-]. by rewrite Hpsp.
      * case_decide; [|done]. intros [= <-]. by rewrite Hpsp.
    + done.
  - intros d p Hd Hp Hcontains. rewrite decide_False; [done|]. by eapply Halt.
Qed.

Lemma main_raises_on_relative_paths_witness :
  main id (Some sample_catalog) None sample_fs = Crashed "ValueError".
Proof.
  refine (proj2 (proj2 (proj2
            (main_raises_on_relative_paths id sample_catalog None sample_fs
               {[ "Game A"; "Game Z" ]}
               (build_revision_index ["Game A"; "Game Z"]) _ _ _ _)))
            "composites/psp-icon0/psp-icon0-generated"
            {| parent := "composites/psp-icon0/psp-icon0-generated";
               name := "Game Y alt.png" |} _ _ _).
  - vm_compute. reflexivity.
  - vm_compute. reflexivity.
  - apply (bool_decide_unpack _). vm_compute. exact I.
  - apply (bool_decide_unpack _). vm_compute. exact I.
  - apply (bool_decide_unpack _). vm_compute. exact I.
  - apply list_elem_of_In. vm_compute. right. left. reflexivity.
  - vm_compute. reflexivity.
Defined.
